(** * Open-LLM-VTuber: the TTS text preprocessor

    A shallow embedding of [src/open_llm_vtuber/utils/tts_preprocessor.py]
    and the properties of its stages.

    Python's [str] is a sequence of Unicode code points: a character is a
    code point in [Z], a text is a list of them.  The regular expressions of
    the module are kept as data ([regex]) and run by a backtracking matcher
    with the priorities of Python's [re] (greedy and lazy repetition,
    negative look-ahead and look-behind, the multi-line anchor), and
    [re.sub] is the left-to-right scan for non-overlapping matches. *)

From Stdlib Require Import String Ascii ZArith Bool Lia Arith List.
From Stdlib Require Decimal DecimalNat.
Import ListNotations.

Set Implicit Arguments.

(** ** Characters and texts *)

Definition char := Z.
Definition text := list char.

Fixpoint of_string (s : string) : text :=
  match s with
  | EmptyString => []
  | String a s' => Z.of_N (N_of_ascii a) :: of_string s'
  end.

Definition c_nl : char := 10%Z.
Definition c_space : char := 32%Z.
Definition c_hash : char := 35%Z.
Definition c_lparen : char := 40%Z.
Definition c_rparen : char := 41%Z.
Definition c_star : char := 42%Z.
Definition c_plus : char := 43%Z.
Definition c_minus : char := 45%Z.
Definition c_dot : char := 46%Z.
Definition c_langle : char := 60%Z.
Definition c_rangle : char := 62%Z.
Definition c_lbracket : char := 91%Z.
Definition c_rbracket : char := 93%Z.
Definition c_underscore : char := 95%Z.

Definition is_char (a : char) : char -> bool := fun c => Z.eqb c a.
Definition not_char (a : char) : char -> bool := fun c => negb (Z.eqb c a).

(** [str.isspace], [str.strip] and the class [\s] of a [str] pattern all
    use CPython's whitespace table [_PyUnicode_IsWhitespace]. *)
Definition isspace (c : char) : bool :=
  ((9 <=? c) && (c <=? 13) || (28 <=? c) && (c <=? 32)
   || (c =? 133) || (c =? 160) || (c =? 5760)
   || (8192 <=? c) && (c <=? 8202)
   || (c =? 8232) || (c =? 8233) || (c =? 8239) || (c =? 8287)
   || (c =? 12288))%Z.

(** ** Regular expressions, as far as the module uses them *)

Inductive regex : Type :=
| Chr (p : char -> bool)                 (* one character of a class *)
| Seq (r1 r2 : regex)
| Rep (lo : nat) (hi : option nat) (greedy : bool) (r : regex)
                                         (* r{lo,hi}, r{lo,}, and the lazy forms *)
| NotAhead (r : regex)                   (* (?!r) *)
| NotBehind (p : char -> bool)           (* (?<!c) for a one-character class *)
| Bol.                                   (* ^ under re.MULTILINE *)

(** A position in the subject is the reversed text before it and the text
    from it on.  A continuation receives the position the rest of the
    pattern starts at and answers with the text left after the whole match. *)
Definition cont := text -> text -> option text.

Definition orelse (a b : option text) : option text :=
  match a with Some x => Some x | None => b end.

Definition below (cnt : nat) (hi : option nat) : bool :=
  match hi with None => true | Some h => cnt <? h end.

(** The repetition loop: [cnt] copies are matched already.  Below [lo] one
    more copy is required; from [lo] on a greedy loop tries one more copy
    before leaving, a lazy loop leaves first.  A copy that consumes
    nothing ends the loop. *)
Fixpoint rep_loop (step : text -> text -> cont -> option text)
    (lo : nat) (hi : option nat) (greedy : bool) (k : cont)
    (fuel cnt : nat) (pre s : text) : option text :=
  match fuel with
  | O => None
  | S fuel' =>
    let more :=
      if below cnt hi then
        step pre s (fun pre' s' =>
          if length s' <? length s
          then rep_loop step lo hi greedy k fuel' (S cnt) pre' s'
          else None)
      else None in
    if cnt <? lo then more
    else if greedy then orelse more (k pre s)
    else orelse (k pre s) more
  end.

Fixpoint rmatch (r : regex) (pre s : text) (k : cont) : option text :=
  match r with
  | Chr p =>
    match s with
    | c :: s' => if p c then k (c :: pre) s' else None
    | [] => None
    end
  | Seq r1 r2 => rmatch r1 pre s (fun pre' s' => rmatch r2 pre' s' k)
  | Rep lo hi greedy r1 =>
    rep_loop (rmatch r1) lo hi greedy k (S (length s)) 0 pre s
  | NotAhead r1 =>
    match rmatch r1 pre s (fun _ s' => Some s') with
    | Some _ => None
    | None => k pre s
    end
  | NotBehind p =>
    match pre with
    | c :: _ => if p c then None else k pre s
    | [] => k pre s
    end
  | Bol =>
    match pre with
    | c :: _ => if (c =? c_nl)%Z then k pre s else None
    | [] => k pre s
    end
  end.

(** The match starting at a position, if any: the text left after it. *)
Definition match_at (r : regex) (pre s : text) : option text :=
  rmatch r pre s (fun _ s' => Some s').

(** ** [re.sub]: the scan for non-overlapping matches, left to right *)

Inductive seg : Type :=
| Keep (c : char)      (* a character outside every match *)
| Hit (m : text).      (* a match, to be replaced *)

(** [skip] characters of the current match are still to be passed.  No
    pattern of the module matches the empty string; an empty match would
    be replaced and the scan would move on by one character. *)
Fixpoint scan_go (r : regex) (skip : nat) (pre s : text) : list seg :=
  match s with
  | [] =>
    match match_at r pre [] with
    | Some _ => [Hit []]
    | None => []
    end
  | c :: s' =>
    match skip with
    | S n => scan_go r n (c :: pre) s'
    | O =>
      match match_at r pre s with
      | Some rest =>
        let n := length s - length rest in
        Hit (firstn n s) ::
          match n with
          | O => Keep c :: scan_go r 0 (c :: pre) s'
          | S n' => scan_go r n' (c :: pre) s'
          end
      | None => Keep c :: scan_go r 0 (c :: pre) s'
      end
    end
  end.

Definition scan (r : regex) (t : text) : list seg := scan_go r 0 [] t.

(** [re.sub(r, repl, t)] with a replacement text: the characters outside
    the matches stay, each match gives way to [repl]. *)
Definition keep_out (repl : text) (sg : seg) : text :=
  match sg with Keep c => [c] | Hit _ => repl end.

Definition sub (r : regex) (repl : text) (t : text) : text :=
  flat_map (keep_out repl) (scan r t).

(** [re.sub(r, f, t)] with a replacement function that has a state of its
    own (a closure over [nonlocal] variables), called once per match, in
    order. *)
Fixpoint sub_segs {St : Type} (f : St -> text -> St * text)
    (st : St) (l : list seg) : St * text :=
  match l with
  | [] => (st, [])
  | Keep c :: l' => let (st', out) := sub_segs f st l' in (st', c :: out)
  | Hit m :: l' =>
    let (st1, rep) := f st m in
    let (st', out) := sub_segs f st1 l' in (st', rep ++ out)
  end.

Definition sub_with {St : Type} (r : regex) (f : St -> text -> St * text)
    (st : St) (t : text) : St * text :=
  sub_segs f st (scan r t).

(** ** Whitespace clean-up: [re.sub(r"\s+", " ", t).strip()], named
    [clean_spaces] here *)

Definition re_spaces : regex := Rep 1 None true (Chr isspace).

Fixpoint lstrip (t : text) : text :=
  match t with
  | c :: t' => if isspace c then lstrip t' else t
  | [] => []
  end.

Definition strip (t : text) : text := rev (lstrip (rev (lstrip t))).

Definition collapse_spaces (t : text) : text := sub re_spaces [c_space] t.

Definition clean_spaces (t : text) : text := strip (collapse_spaces t).

(** ** [_filter_nested] and its three instances *)

(** One turn of the [for] loop over the state [(result, depth)]. *)
Definition nested_step (left right : char) (st : text * Z) (c : char)
    : text * Z :=
  let (result, depth) := st in
  if (c =? left)%Z then (result, (depth + 1)%Z)
  else if (c =? right)%Z then
    if (depth >? 0)%Z then (result, (depth - 1)%Z) else (result, depth)
  else
    if (depth =? 0)%Z then (result ++ [c], depth) else (result, depth).

Definition nested_loop (left right : char) (t : text) : text * Z :=
  fold_left (nested_step left right) t ([], 0%Z).

(** The argument is a text, so the [isinstance] guard of the source, which
    raises [TypeError] on anything else, has nothing to refuse here. *)
Definition _filter_nested (t : text) (left right : char) : text :=
  match t with
  | [] => t
  | _ => clean_spaces (fst (nested_loop left right t))
  end.

Definition filter_brackets (t : text) : text :=
  _filter_nested t c_lbracket c_rbracket.

Definition filter_parentheses (t : text) : text :=
  _filter_nested t c_lparen c_rparen.

Definition filter_angle_brackets (t : text) : text :=
  _filter_nested t c_langle c_rangle.

(** ** [filter_asterisks] *)

(** [.] without re.DOTALL: any character but the newline. *)
Definition dot : char -> bool := not_char c_nl.

(** The emphasis pattern of the source, with its escaped asterisk written
    as the class [[*]]:  [[*]{1,}((?![*]).)*?[*]{1,}]. *)
Definition re_asterisks : regex :=
  Seq (Rep 1 None true (Chr (is_char c_star)))
   (Seq (Rep 0 None false (Seq (NotAhead (Chr (is_char c_star))) (Chr dot)))
        (Rep 1 None true (Chr (is_char c_star)))).

Definition filter_asterisks (t : text) : text :=
  clean_spaces (sub re_asterisks [] t).

(** ** [remove_special_characters] *)

(** The Unicode character database of the interpreter ([unicodedata] and
    the decimal-digit class [\d] of [re]) is not part of this module; it is
    taken as a parameter. *)
Record unicodedata : Type := {
  normalize_NFKC : text -> text;     (* unicodedata.normalize("NFKC", _) *)
  category : char -> string;         (* unicodedata.category *)
  isdecimal : char -> bool           (* the class \d of a str pattern *)
}.

Definition startswith (s p : string) : bool := String.prefix p s.

Definition is_valid_char (U : unicodedata) (c : char) : bool :=
  let cat := category U c in
  startswith cat "L" || startswith cat "N" || startswith cat "P" || isspace c.

Definition remove_special_characters (U : unicodedata) (t : text) : text :=
  let normalized_text := normalize_NFKC U t in
  filter (is_valid_char U) normalized_text.

(** ** [tts_filter]: the dispatcher *)

(** What a call returns: a value, or a raised instance of [Exception]
    (the class the handlers of [tts_filter] name), kept as its [str()]. *)
Inductive result (A : Type) : Type :=
| Ok (a : A)
| Raise (e : text).
Arguments Ok {A} a.
Arguments Raise {A} e.

Inductive level : Type := DEBUG | INFO | WARNING | CRITICAL.

Definition log := list (level * text).

(** The dispatcher runs in a monad of its own: a computation appends to
    the log and either returns a value or raises. *)
Definition M (A : Type) : Type := log -> result A * log.

Definition ret {A : Type} (a : A) : M A := fun lg => (Ok a, lg).

Definition bind {A B : Type} (m : M A) (f : A -> M B) : M B :=
  fun lg =>
    match m lg with
    | (Ok a, lg') => f a lg'
    | (Raise e, lg') => (Raise e, lg')
    end.

Notation "x <- m ;; k" := (bind m (fun x => k))
  (at level 61, m at next level, right associativity).
Notation "m ;; k" := (bind m (fun _ => k))
  (at level 61, right associativity).

(** [logger.warning(msg)] and its siblings. *)
Definition logger (lv : level) (msg : text) : M unit :=
  fun lg => (Ok tt, lg ++ [(lv, msg)]).

(** A call of a function that may raise. *)
Definition call (f : text -> result text) (t : text) : M text :=
  fun lg => (f t, lg).

(** [try: body  except Exception as e: handler(e)] *)
Definition try_except {A : Type} (body : M A) (handler : text -> M A) : M A :=
  fun lg =>
    match body lg with
    | (Ok a, lg') => (Ok a, lg')
    | (Raise e, lg') => handler e lg'
    end.

(** The callables [tts_filter] reaches by name. *)
Record stages : Type := {
  st_asterisks : text -> result text;
  st_brackets : text -> result text;
  st_parentheses : text -> result text;
  st_angle_brackets : text -> result text;
  st_special_characters : text -> result text
}.

(** One block [try: text = f(text)  except Exception as e: ...]; [what]
    is the head of its first warning. *)
Definition try_stage (what : string) (f : text -> result text) (t : text)
    : M text :=
  try_except (call f t)
    (fun e =>
       logger WARNING (of_string what ++ e) ;;
       logger WARNING (of_string "Text: " ++ t) ;;
       logger WARNING (of_string "Skipping...") ;;
       ret t).

Definition try_translate (tr : text -> result text) (t : text) : M text :=
  try_except
    (logger INFO (of_string "Translating...") ;;
     t' <- call tr t ;;
     logger INFO (of_string "Translated: " ++ t') ;;
     ret t')
    (fun e =>
       logger CRITICAL (of_string "Error translating: " ++ e) ;;
       logger CRITICAL (of_string "Text: " ++ t) ;;
       logger WARNING (of_string "Skipping...") ;;
       ret t).

Definition tts_filter_with (S : stages) (t : text)
    (remove_special_char ignore_brackets ignore_parentheses
     ignore_asterisks ignore_angle_brackets : bool)
    (translator : option (text -> result text)) : M text :=
  t <- (if ignore_asterisks
        then try_stage "Error ignoring asterisks: " (st_asterisks S) t
        else ret t) ;;
  t <- (if ignore_brackets
        then try_stage "Error ignoring brackets: " (st_brackets S) t
        else ret t) ;;
  t <- (if ignore_parentheses
        then try_stage "Error ignoring parentheses: " (st_parentheses S) t
        else ret t) ;;
  t <- (if ignore_angle_brackets
        then try_stage "Error ignoring angle brackets: "
                       (st_angle_brackets S) t
        else ret t) ;;
  t <- (if remove_special_char
        then try_stage "Error removing special characters: "
                       (st_special_characters S) t
        else ret t) ;;
  t <- match translator with
       | Some tr => try_translate tr t
       | None => ret t
       end ;;
  logger DEBUG (of_string "Filtered text: " ++ t) ;;
  ret t.

(** The functions of this module behind those names: on a text none of
    them raises. *)
Definition module_stages (U : unicodedata) : stages := {|
  st_asterisks := fun t => Ok (filter_asterisks t);
  st_brackets := fun t => Ok (filter_brackets t);
  st_parentheses := fun t => Ok (filter_parentheses t);
  st_angle_brackets := fun t => Ok (filter_angle_brackets t);
  st_special_characters := fun t => Ok (remove_special_characters U t)
|}.

Definition tts_filter (U : unicodedata) (t : text)
    (remove_special_char ignore_brackets ignore_parentheses
     ignore_asterisks ignore_angle_brackets : bool)
    (translator : option (text -> result text)) : M text :=
  tts_filter_with (module_stages U) t remove_special_char ignore_brackets
    ignore_parentheses ignore_asterisks ignore_angle_brackets translator.

(** ** [filter_numbered_lists] *)

Definition one_of (l : list char) : char -> bool :=
  fun c => existsb (Z.eqb c) l.

Definition spaces0 : regex := Rep 0 None true (Chr isspace).
Definition digits1 (U : unicodedata) : regex :=
  Rep 1 None true (Chr (isdecimal U)).

(** [(?m)^\s*\d+[...]\s*] with the class of the full stop, U+FF0E and
    U+3002. *)
Definition re_num_dot (U : unicodedata) : regex :=
  Seq Bol (Seq spaces0 (Seq (digits1 U)
    (Seq (Chr (one_of [46; 65294; 12290]%Z)) spaces0))).

(** [(?m)^\s*\d+[...]\s*] with the class of the right parenthesis and
    U+3001. *)
Definition re_num_paren (U : unicodedata) : regex :=
  Seq Bol (Seq spaces0 (Seq (digits1 U)
    (Seq (Chr (one_of [41; 12289]%Z)) spaces0))).

(** [(?m)^\s*[...]\d+[...]\s*]: U+FF08 or the left parenthesis before
    the digits, U+FF09 or the right parenthesis after them. *)
Definition re_num_wrapped (U : unicodedata) : regex :=
  Seq Bol (Seq spaces0 (Seq (Chr (one_of [65288; 40]%Z)) (Seq (digits1 U)
    (Seq (Chr (one_of [65289; 41]%Z)) spaces0)))).

Definition filter_numbered_lists (U : unicodedata) (t : text) : text :=
  let filtered_text := t in
  let filtered_text := sub (re_num_dot U) [] filtered_text in
  let filtered_text := sub (re_num_paren U) [] filtered_text in
  let filtered_text := sub (re_num_wrapped U) [] filtered_text in
  clean_spaces filtered_text.

(** ** [filter_special_formatting] *)

(** [str(n)] of a non-negative [int]. *)
Fixpoint uint_text (u : Decimal.uint) : text :=
  match u with
  | Decimal.Nil => []
  | Decimal.D0 u' => 48%Z :: uint_text u'
  | Decimal.D1 u' => 49%Z :: uint_text u'
  | Decimal.D2 u' => 50%Z :: uint_text u'
  | Decimal.D3 u' => 51%Z :: uint_text u'
  | Decimal.D4 u' => 52%Z :: uint_text u'
  | Decimal.D5 u' => 53%Z :: uint_text u'
  | Decimal.D6 u' => 54%Z :: uint_text u'
  | Decimal.D7 u' => 55%Z :: uint_text u'
  | Decimal.D8 u' => 56%Z :: uint_text u'
  | Decimal.D9 u' => 57%Z :: uint_text u'
  end.

Definition str_of_nat (n : nat) : text := uint_text (Nat.to_uint n).

(** [f"__LIVE2D_PROTECT_{protected_counter}__"] *)
Definition placeholder (n : nat) : text :=
  of_string "__LIVE2D_PROTECT_" ++ str_of_nat n ++ of_string "__".

(** The closure [protect_live2d] over [protected_patterns] and
    [protected_counter]. *)
Definition protect_state : Type := list (text * text) * nat.

Definition protect_live2d (st : protect_state) (group0 : text)
    : protect_state * text :=
  let (protected_patterns, protected_counter) := st in
  let ph := placeholder protected_counter in
  ((protected_patterns ++ [(ph, group0)], S protected_counter), ph).

(** [\[[^\]]+\]] *)
Definition re_live2d : regex :=
  Seq (Chr (is_char c_lbracket))
   (Seq (Rep 1 None true (Chr (not_char c_rbracket)))
        (Chr (is_char c_rbracket))).

(** The lone asterisk, [(?<![*])[*](?![*])]. *)
Definition re_lone_asterisk : regex :=
  Seq (NotBehind (is_char c_star))
   (Seq (Chr (is_char c_star)) (NotAhead (Chr (is_char c_star)))).

(** [#{1,6}\s+] *)
Definition re_header : regex :=
  Seq (Rep 1 (Some 6) true (Chr (is_char c_hash)))
      (Rep 1 None true (Chr isspace)).

(** [^[-+]\s+] with re.MULTILINE *)
Definition re_bullet : regex :=
  Seq Bol (Seq (Chr (one_of [c_minus; c_plus]))
               (Rep 1 None true (Chr isspace))).

Fixpoint prefix_b (p s : text) : bool :=
  match p, s with
  | [], _ => true
  | a :: p', b :: s' => (a =? b)%Z && prefix_b p' s'
  | _ :: _, [] => false
  end.

(** [s.replace(old, new)] for a non-empty [old]: every occurrence found
    from the left, the search resuming after each one. *)
Fixpoint replace_go (old new : text) (skip : nat) (s : text) : text :=
  match s with
  | [] => []
  | c :: s' =>
    match skip with
    | S n => replace_go old new n s'
    | O =>
      if prefix_b old s
      then new ++ replace_go old new (length old - 1) s'
      else c :: replace_go old new 0 s'
    end
  end.

Definition replace (old new s : text) : text :=
  match old with
  | [] => new ++ flat_map (fun c => c :: new) s
  | _ => replace_go old new 0 s
  end.

(** The first step: every [[...]] span gives way to its placeholder. *)
Definition protect (t : text) : protect_state * text :=
  sub_with re_live2d protect_live2d ([], 0) t.

(** The four removals on the protected text. *)
Definition remove_markdown (t : text) : text :=
  let t := sub re_asterisks [] t in
  let t := sub re_lone_asterisk [] t in
  let t := sub re_header [] t in
  sub re_bullet [] t.

(** [for placeholder, original in protected_patterns: ...] *)
Definition restore (protected_patterns : list (text * text)) (t : text)
    : text :=
  fold_left (fun t p => replace (fst p) (snd p) t) protected_patterns t.

Definition filter_special_formatting (t : text) : text :=
  let (st, t) := protect t in
  let (protected_patterns, _) := st in
  let t := remove_markdown t in
  let t := restore protected_patterns t in
  clean_spaces t.

(** ** Definitions the statements below are written with *)

(** The text a segment of the scan stands for. *)
Definition seg_text (sg : seg) : text :=
  match sg with Keep c => [c] | Hit m => m end.

(** The continuation at the end of a pattern. *)
Definition final : cont := fun _ s' => Some s'.

(** The matches the scan found, in order. *)
Fixpoint hits (l : list seg) : list text :=
  match l with
  | [] => []
  | Keep _ :: l' => hits l'
  | Hit m :: l' => m :: hits l'
  end.

(** [s] occurs in [t] as a contiguous piece. *)
Definition occurs_in (s t : text) : Prop := exists a b, t = a ++ s ++ b.

(** The pattern [r] matches at some position of [t]. *)
Definition matches_somewhere (r : regex) (t : text) : Prop :=
  exists pre s, t = rev pre ++ s /\ match_at r pre s <> None.

(** What a pattern can match: [lang r pre m post] says that [m], standing
    between the reversed text [pre] and the text [post], is matched by
    [r].  Look-arounds see their side of the context; the upper bound of
    a repetition is left out. *)
Fixpoint chain (L : text -> text -> text -> Prop)
    (pre : text) (ms : list text) (post : text) : Prop :=
  match ms with
  | [] => True
  | m :: ms' =>
    L pre m (concat ms' ++ post) /\ chain L (rev m ++ pre) ms' post
  end.

Fixpoint lang (r : regex) (pre m post : text) : Prop :=
  match r with
  | Chr p => exists c, m = [c] /\ p c = true
  | Seq r1 r2 =>
    exists m1 m2, m = m1 ++ m2
      /\ lang r1 pre m1 (m2 ++ post) /\ lang r2 (rev m1 ++ pre) m2 post
  | Rep lo _ _ r1 =>
    exists ms, m = concat ms /\ chain (lang r1) pre ms post /\ lo <= length ms
  | NotAhead r1 => m = [] /\ match_at r1 pre post = None
  | NotBehind p =>
    m = [] /\ match pre with c :: _ => p c = false | [] => True end
  | Bol => m = [] /\ match pre with c :: _ => c = c_nl | [] => True end
  end.


Fixpoint take_while (p : char -> bool) (s : text) : text :=
  match s with
  | c :: s' => if p c then c :: take_while p s' else []
  | [] => []
  end.

Fixpoint drop_while (p : char -> bool) (s : text) : text :=
  match s with
  | c :: s' => if p c then drop_while p s' else s
  | [] => []
  end.

(** The collapse of whitespace runs by hand; [in_run] says that the
    space of the current run is written already. *)
Fixpoint collapse_go (in_run : bool) (t : text) : text :=
  match t with
  | [] => []
  | c :: t' =>
    if isspace c
    then if in_run then collapse_go true t'
         else c_space :: collapse_go true t'
    else c :: collapse_go false t'
  end.

(** An emphasis span: a run of asterisks, an interior without asterisk and
    without newline, a run of asterisks. *)
Definition emphasis_span (m : text) : Prop :=
  exists k1 int k2,
    m = repeat c_star (S k1) ++ int ++ repeat c_star (S k2)
    /\ Forall (fun c => c <> c_star /\ c <> c_nl) int.

(** The emphasis pattern by hand.  After the opening run: the interior is
    extended one character at a time up to the next asterisk, where the
    closing run is taken whole; a newline or the end of the text stops
    the attempt. *)
Fixpoint close_span (s : text) : option text :=
  match s with
  | [] => None
  | c :: s' =>
    if (c =? c_star)%Z then Some (drop_while (is_char c_star) s)
    else if (c =? c_nl)%Z then None
    else close_span s'
  end.

(** The opening run, [cnt] asterisks of it taken already: as long a run as
    possible whose rest can be closed. *)
Fixpoint open_span (cnt : nat) (s : text) : option text :=
  match s with
  | [] => None
  | c :: s' =>
    if (c =? c_star)%Z
    then orelse (open_span (S cnt) s')
                (if cnt <? 1 then None else close_span s)
    else if cnt <? 1 then None else close_span s
  end.

(** The characters of [str(n)]. *)
Definition is_digit (c : char) : Prop := (48 <= c <= 57)%Z.

(** The protected text as a list of items: a character outside the
    spans, or the placeholder of the span with a given number. *)
Inductive item : Type :=
| Lit (c : char)
| Ph (i : nat).

Definition render_item (it : item) : text :=
  match it with Lit c => [c] | Ph i => placeholder i end.

Definition render (its : list item) : text := flat_map render_item its.

(** The items of a scan whose first match gets the number [n]. *)
Fixpoint items_of (n : nat) (l : list seg) : list item :=
  match l with
  | [] => []
  | Keep c :: l' => Lit c :: items_of n l'
  | Hit _ :: l' => Ph n :: items_of (S n) l'
  end.

(** Putting a text in the place of the placeholder number [j]. *)
Definition subst_item (j : nat) (m : text) (it : item) : list item :=
  match it with
  | Lit c => [Lit c]
  | Ph i => if i =? j then map Lit m else [Ph i]
  end.

Definition subst (j : nat) (m : text) (its : list item) : list item :=
  flat_map (subst_item j m) its.

Fixpoint lookup (i : nat) (ps : list (nat * text)) : option text :=
  match ps with
  | [] => None
  | (j, m) :: ps' => if i =? j then Some m else lookup i ps'
  end.

Definition subst_all_item (ps : list (nat * text)) (it : item) : list item :=
  match it with
  | Lit c => [Lit c]
  | Ph i => match lookup i ps with Some m => map Lit m | None => [Ph i] end
  end.

Definition subst_all (ps : list (nat * text)) (its : list item)
    : list item :=
  flat_map (subst_all_item ps) its.

(** The pairs [protect_live2d] records, by the number of the span. *)
Definition numbered (p : nat * text) : text * text :=
  (placeholder (fst p), snd p).

(** The spans [filter_special_formatting] protects. *)
Definition protected_spans (t : text) : list text :=
  hits (scan re_live2d t).

(** The characters the header and bullet removals can take away. *)
Definition markdown_char (c : char) : bool :=
  (c =? c_hash)%Z || isspace c || (c =? c_minus)%Z || (c =? c_plus)%Z.

(** The text every placeholder holds between its underscores. *)
Definition token_core : text := of_string "LIVE2D_PROTECT".

(** [p] occurs in [s] as a contiguous piece, by search from the left. *)
Fixpoint occurs_b (p s : text) : bool :=
  prefix_b p s
  || match s with
     | [] => false
     | _ :: s' => occurs_b p s'
     end.

(** The characters of [p] occur in [t] in this order, with or without
    other characters between them. *)
Fixpoint scattered_b (p t : text) : bool :=
  match t with
  | [] => match p with [] => true | _ :: _ => false end
  | c :: t' =>
    match p with
    | [] => true
    | a :: p' => if (a =? c)%Z then scattered_b p' t' else scattered_b p t'
    end
  end.

(** [l'] is [l] with some of its elements left out. *)
Inductive thinned {A : Type} : list A -> list A -> Prop :=
| thinned_nil : thinned [] []
| thinned_keep x l' l : thinned l' l -> thinned (x :: l') (x :: l)
| thinned_drop x l' l : thinned l' l -> thinned l' (x :: l).

(** The items with an opening bracket in the place of each placeholder:
    the text outside the placeholders, kept apart where one stands. *)
Definition outside_item (it : item) : text :=
  match it with Lit c => [c] | Ph _ => [c_lbracket] end.

Definition outside (its : list item) : text := flat_map outside_item its.

(** A text no placeholder can begin in: its underscores are single and
    none ends it. *)
Fixpoint solid (x : text) : Prop :=
  match x with
  | [] => True
  | a :: x' =>
    match x' with
    | [] => a <> c_underscore
    | b :: _ => (a = c_underscore -> b <> c_underscore) /\ solid x'
    end
  end.

(** A text in brackets. *)
Definition bracketed (m : text) : Prop :=
  exists body, m = c_lbracket :: body ++ [c_rbracket].

(** The characters placeholders are made of. *)
Definition ph_char (c : char) : Prop := exists i, In c (placeholder i).

(** [cuts Q t t']: [t'] is [t] with some pieces left out, each of which
    satisfies [Q]. *)
Inductive cuts (Q : text -> Prop) : text -> text -> Prop :=
| cuts_nil : cuts Q [] []
| cuts_keep c t t' : cuts Q t t' -> cuts Q (c :: t) (c :: t')
| cuts_cut m t t' : Q m -> cuts Q t t' -> cuts Q (m ++ t) t'.

(** A piece that neither begins nor ends with a character of a
    placeholder. *)
Definition clean_ends (m : text) : Prop :=
  exists x m1 m0 y,
    m = x :: m1 /\ m = m0 ++ [y] /\ ~ ph_char x /\ ~ ph_char y.

(** The span number [i] of the text stands inside emphasis: a match of
    the emphasis pattern on the protected text holds its placeholder. *)
Definition in_emphasis (t : text) (i : nat) : Prop :=
  exists m,
    In m (hits (scan re_asterisks (snd (protect t))))
    /\ occurs_in (placeholder i) m.

(** The pattern [r] matches at [s] or further to the right ([pre] is the
    reversed text before [s]). *)
Fixpoint matches_from (r : regex) (pre s : text) : bool :=
  match match_at r pre s with
  | Some _ => true
  | None =>
    match s with
    | [] => false
    | c :: s' => matches_from r (c :: pre) s'
    end
  end.

(** The loop of [_filter_nested] by recursion on the text: what it appends
    to [result] from depth [depth] on. *)
Fixpoint nested_out (left right : char) (depth : Z) (t : text) : text :=
  match t with
  | [] => []
  | c :: t' =>
    if (c =? left)%Z then nested_out left right (depth + 1) t'
    else if (c =? right)%Z then
      if (depth >? 0)%Z then nested_out left right (depth - 1) t'
      else nested_out left right depth t'
    else if (depth =? 0)%Z then c :: nested_out left right depth t'
    else nested_out left right depth t'
  end.

(** The dispatcher in the words of its description: the gated stages in
    their fixed order, each one either applied or, when it is disabled or
    fails, passed over with the text as it stood. *)
Definition when (b : bool) (f : text -> text) (t : text) : text :=
  if b then f t else t.

Definition recover (f : text -> result text) (t : text) : text :=
  match f t with Ok t' => t' | Raise _ => t end.

Definition stage_failure (what : string) (e t : text) : log :=
  [(WARNING, of_string what ++ e);
   (WARNING, of_string "Text: " ++ t);
   (WARNING, of_string "Skipping...")].

Definition translation_failure (e t : text) : log :=
  [(CRITICAL, of_string "Error translating: " ++ e);
   (CRITICAL, of_string "Text: " ++ t);
   (WARNING, of_string "Skipping...")].

Definition spec_stage (st : text * log)
    (x : bool * string * (text -> result text)) : text * log :=
  let '(enabled, what, f) := x in
  let (t, lg) := st in
  if enabled then
    match f t with
    | Ok t' => (t', lg)
    | Raise e => (t, lg ++ stage_failure what e t)
    end
  else st.

Definition stage_order (S : stages)
    (remove_special_char ignore_brackets ignore_parentheses
     ignore_asterisks ignore_angle_brackets : bool)
    : list (bool * string * (text -> result text)) :=
  [ (ignore_asterisks, "Error ignoring asterisks: "%string, st_asterisks S);
    (ignore_brackets, "Error ignoring brackets: "%string, st_brackets S);
    (ignore_parentheses, "Error ignoring parentheses: "%string,
     st_parentheses S);
    (ignore_angle_brackets, "Error ignoring angle brackets: "%string,
     st_angle_brackets S);
    (remove_special_char, "Error removing special characters: "%string,
     st_special_characters S) ].

Definition spec_translate (translator : option (text -> result text))
    (st : text * log) : text * log :=
  let (t, lg) := st in
  match translator with
  | None => st
  | Some tr =>
    let lg := lg ++ [(INFO, of_string "Translating...")] in
    match tr t with
    | Ok t' => (t', lg ++ [(INFO, of_string "Translated: " ++ t')])
    | Raise e => (t, lg ++ translation_failure e t)
    end
  end.

Definition dispatch_spec (S : stages) (t : text)
    (remove_special_char ignore_brackets ignore_parentheses
     ignore_asterisks ignore_angle_brackets : bool)
    (translator : option (text -> result text)) : text * log :=
  let (t', lg) :=
    spec_translate translator
      (fold_left spec_stage
         (stage_order S remove_special_char ignore_brackets
            ignore_parentheses ignore_asterisks ignore_angle_brackets)
         (t, [])) in
  (t', lg ++ [(DEBUG, of_string "Filtered text: " ++ t')]).

(** The text the fixed order produces. *)
Definition pipeline_in_order (U : unicodedata) (t : text)
    (remove_special_char ignore_brackets ignore_parentheses
     ignore_asterisks ignore_angle_brackets : bool) : text :=
  fold_left (fun t x => when (fst x) (snd x) t)
    [ (ignore_asterisks, filter_asterisks);
      (ignore_brackets, filter_brackets);
      (ignore_parentheses, filter_parentheses);
      (ignore_angle_brackets, filter_angle_brackets);
      (remove_special_char, remove_special_characters U) ]
    t.

Definition translated (translator : option (text -> result text))
    (t : text) : text :=
  match translator with
  | None => t
  | Some tr => recover tr t
  end.

(** An excerpt of the Unicode character database, for instantiating
    statements that assume facts of it: the general category of the code
    points below 128, of U+FF21 (FULLWIDTH LATIN CAPITAL LETTER A) and of
    U+1F600 (GRINNING FACE); NFKC, which leaves ASCII and U+1F600 alone and
    maps U+FF21 to the letter A; the ASCII decimal digits. *)
Definition in_range (lo hi c : Z) : bool := ((lo <=? c) && (c <=? hi))%Z.

Definition sample_category (c : char) : string :=
  if in_range 0 31 c then "Cc"
  else if (c =? 32)%Z then "Zs"
  else if in_range 48 57 c then "Nd"
  else if in_range 65 90 c then "Lu"
  else if in_range 97 122 c then "Ll"
  else if (c =? 36)%Z then "Sc"
  else if one_of [43; 60; 61; 62; 124; 126]%Z c then "Sm"
  else if one_of [94; 96]%Z c then "Sk"
  else if one_of [40; 91; 123]%Z c then "Ps"
  else if one_of [41; 93; 125]%Z c then "Pe"
  else if (c =? 45)%Z then "Pd"
  else if (c =? 95)%Z then "Pc"
  else if in_range 33 126 c then "Po"
  else if (c =? 127)%Z then "Cc"
  else if (c =? 65313)%Z then "Lu"
  else if (c =? 128512)%Z then "So"
  else "Cn".

Definition ucd_sample : unicodedata := {|
  normalize_NFKC := map (fun c => if (c =? 65313)%Z then 65%Z else c);
  category := sample_category;
  isdecimal := in_range 48 57
|}.

(** The shape the whitespace clean-up leaves, read from the left:
    [after_space] says that the character before is a space.  Every
    whitespace character is U+0020 and stands alone. *)
Fixpoint single_spaced (after_space : bool) (u : text) : Prop :=
  match u with
  | [] => True
  | c :: u' =>
    if isspace c
    then c = c_space /\ after_space = false /\ single_spaced true u'
    else single_spaced false u'
  end.

(** The same in words: the only whitespace is the space, no two spaces
    are adjacent, and neither end of the text is whitespace. *)
Definition tidy (u : text) : Prop :=
  (forall c, In c u -> isspace c = true -> c = c_space)
  /\ ~ occurs_in [c_space; c_space] u
  /\ (forall c u', u = c :: u' -> isspace c = false)
  /\ (forall c u', u = u' ++ [c] -> isspace c = false).

(** No asterisk next to another one. *)
Fixpoint lone_stars (u : text) : Prop :=
  match u with
  | a :: (b :: _) as u' => (a = c_star -> b <> c_star) /\ lone_stars u'
  | _ => True
  end.

(** A position at the start of a line: the reversed text before it is
    empty or begins with a newline. *)
Definition line_start (pre : text) : Prop :=
  match pre with [] => True | c :: _ => c = c_nl end.

(** The first character of a text is not of the class [p]. *)
Definition not_first (p : char -> bool) (s : text) : Prop :=
  match s with [] => True | c :: _ => p c = false end.

(* ------------------------------------------------------------------ *)
(** * performance_monitor.py *)

(** What the module takes from its runtime: the type [float] with the
    subtraction, product and sum the code writes, the factor [1000] and
    the constant [0.0], the successive readings of [time.perf_counter()]
    and of [datetime.now().isoformat()], and the format [:.2f].  Nothing
    is assumed of them. *)
Record runtime : Type := {
  float : Type;
  fsub : float -> float -> float;
  fmul : float -> float -> float;
  fadd : float -> float -> float;
  f_1000 : float;
  f_zero : float;
  perf_counter : nat -> float;
  now_isoformat : nat -> text;
  format_2f : float -> text
}.

(** [str(n)] of an [int]. *)
Definition str_of_int (n : Z) : text :=
  if (n <? 0)%Z then c_minus :: str_of_nat (Z.to_nat (- n))
  else str_of_nat (Z.to_nat n).

Fixpoint text_eqb (a b : text) : bool :=
  match a, b with
  | [], [] => true
  | x :: a', y :: b' => (x =? y)%Z && text_eqb a' b'
  | _, _ => false
  end.

(** The fields of a [PerformanceMonitor] the methods below read:
    [csv_file] is the path [log_dir / csv_file] of the constructor. *)
Record PerformanceMonitor : Type := {
  log_dir : text;
  csv_file : text
}.

(** The first row [_init_csv_file] writes. *)
Definition csv_header : list text :=
  [ of_string "timestamp";
    of_string "session_id";
    of_string "network_latency_ms";
    of_string "asr_latency_ms";
    of_string "llm_first_token_ms";
    of_string "llm_total_latency_ms";
    of_string "tts_latency_ms";
    of_string "time_to_first_response_ms";
    of_string "user_input_length";
    of_string "response_length" ].

Section PerformanceMonitoring.

Variable R : runtime.

(** The world outside the objects: how many readings of each clock were
    taken, the CSV files by path (a file is the list of the rows written
    to it; the directory of a file that is opened is taken to exist and to
    be writable) and the records handed to the logger. *)
Record world : Type := {
  clock : nat;
  wall_clock : nat;
  files : text -> option (list (list text));
  console : log
}.

(** [time.perf_counter()] *)
Definition time_perf_counter (w : world) : float R * world :=
  (perf_counter R (clock w),
   {| clock := S (clock w); wall_clock := wall_clock w;
      files := files w; console := console w |}).

(** [datetime.now().isoformat()] *)
Definition datetime_now_isoformat (w : world) : text * world :=
  (now_isoformat R (wall_clock w),
   {| clock := clock w; wall_clock := S (wall_clock w);
      files := files w; console := console w |}).

(** [logger.info(msg)] *)
Definition logger_info (msg : text) (w : world) : world :=
  {| clock := clock w; wall_clock := wall_clock w;
     files := files w; console := console w ++ [(INFO, msg)] |}.

Definition set_file (path : text) (rows : list (list text)) (w : world)
    : world :=
  {| clock := clock w; wall_clock := wall_clock w;
     files := fun p => if text_eqb p path then Some rows else files w p;
     console := console w |}.

(** [with open(path, "w", ...) as f: csv.writer(f).writerow(row)] *)
Definition write_row (path : text) (row : list text) (w : world) : world :=
  set_file path [row] w.

(** [with open(path, "a", ...) as f: csv.writer(f).writerow(row)]: a
    file that is not there is created. *)
Definition append_row (path : text) (row : list text) (w : world) : world :=
  match files w path with
  | Some rows => set_file path (rows ++ [row]) w
  | None => set_file path [row] w
  end.

Definition _init_csv_file (self : PerformanceMonitor) (w : world) : world :=
  match files w (csv_file self) with
  | Some _ => w
  | None => write_row (csv_file self) csv_header w
  end.

Record PerformanceSession : Type := {
  session_id : text;
  monitor : PerformanceMonitor;
  start_time : option (float R);
  request_reception_time : option (float R);
  asr_start_time : option (float R);
  asr_end_time : option (float R);
  llm_start_time : option (float R);
  llm_first_token_time : option (float R);
  llm_end_time : option (float R);
  tts_start_time : option (float R);
  tts_end_time : option (float R);
  first_response_time : option (float R);
  end_time : option (float R);
  user_input_length : Z;
  response_length : Z;
  tts_calls : Z;
  total_tts_time : float R;
  _first_response_marked : bool
}.

(** [PerformanceSession.__init__] *)
Definition PerformanceSession_init (session_id : text)
    (monitor : PerformanceMonitor) : PerformanceSession := {|
  session_id := session_id;
  monitor := monitor;
  start_time := None;
  request_reception_time := None;
  asr_start_time := None;
  asr_end_time := None;
  llm_start_time := None;
  llm_first_token_time := None;
  llm_end_time := None;
  tts_start_time := None;
  tts_end_time := None;
  first_response_time := None;
  end_time := None;
  user_input_length := 0;
  response_length := 0;
  tts_calls := 0;
  total_tts_time := f_zero R;
  _first_response_marked := false
|}.

Definition create_session (self : PerformanceMonitor) (session_id : text)
    : PerformanceSession :=
  PerformanceSession_init session_id self.

(** The assignments [self.<field> = v]. *)
Definition with_start_time (v : option (float R))
    (self : PerformanceSession) : PerformanceSession := {|
  session_id := session_id self;
  monitor := monitor self;
  start_time := v;
  request_reception_time := request_reception_time self;
  asr_start_time := asr_start_time self;
  asr_end_time := asr_end_time self;
  llm_start_time := llm_start_time self;
  llm_first_token_time := llm_first_token_time self;
  llm_end_time := llm_end_time self;
  tts_start_time := tts_start_time self;
  tts_end_time := tts_end_time self;
  first_response_time := first_response_time self;
  end_time := end_time self;
  user_input_length := user_input_length self;
  response_length := response_length self;
  tts_calls := tts_calls self;
  total_tts_time := total_tts_time self;
  _first_response_marked := _first_response_marked self
|}.

Definition with_request_reception_time (v : option (float R))
    (self : PerformanceSession) : PerformanceSession := {|
  session_id := session_id self;
  monitor := monitor self;
  start_time := start_time self;
  request_reception_time := v;
  asr_start_time := asr_start_time self;
  asr_end_time := asr_end_time self;
  llm_start_time := llm_start_time self;
  llm_first_token_time := llm_first_token_time self;
  llm_end_time := llm_end_time self;
  tts_start_time := tts_start_time self;
  tts_end_time := tts_end_time self;
  first_response_time := first_response_time self;
  end_time := end_time self;
  user_input_length := user_input_length self;
  response_length := response_length self;
  tts_calls := tts_calls self;
  total_tts_time := total_tts_time self;
  _first_response_marked := _first_response_marked self
|}.

Definition with_asr_start_time (v : option (float R))
    (self : PerformanceSession) : PerformanceSession := {|
  session_id := session_id self;
  monitor := monitor self;
  start_time := start_time self;
  request_reception_time := request_reception_time self;
  asr_start_time := v;
  asr_end_time := asr_end_time self;
  llm_start_time := llm_start_time self;
  llm_first_token_time := llm_first_token_time self;
  llm_end_time := llm_end_time self;
  tts_start_time := tts_start_time self;
  tts_end_time := tts_end_time self;
  first_response_time := first_response_time self;
  end_time := end_time self;
  user_input_length := user_input_length self;
  response_length := response_length self;
  tts_calls := tts_calls self;
  total_tts_time := total_tts_time self;
  _first_response_marked := _first_response_marked self
|}.

Definition with_asr_end_time (v : option (float R))
    (self : PerformanceSession) : PerformanceSession := {|
  session_id := session_id self;
  monitor := monitor self;
  start_time := start_time self;
  request_reception_time := request_reception_time self;
  asr_start_time := asr_start_time self;
  asr_end_time := v;
  llm_start_time := llm_start_time self;
  llm_first_token_time := llm_first_token_time self;
  llm_end_time := llm_end_time self;
  tts_start_time := tts_start_time self;
  tts_end_time := tts_end_time self;
  first_response_time := first_response_time self;
  end_time := end_time self;
  user_input_length := user_input_length self;
  response_length := response_length self;
  tts_calls := tts_calls self;
  total_tts_time := total_tts_time self;
  _first_response_marked := _first_response_marked self
|}.

Definition with_llm_start_time (v : option (float R))
    (self : PerformanceSession) : PerformanceSession := {|
  session_id := session_id self;
  monitor := monitor self;
  start_time := start_time self;
  request_reception_time := request_reception_time self;
  asr_start_time := asr_start_time self;
  asr_end_time := asr_end_time self;
  llm_start_time := v;
  llm_first_token_time := llm_first_token_time self;
  llm_end_time := llm_end_time self;
  tts_start_time := tts_start_time self;
  tts_end_time := tts_end_time self;
  first_response_time := first_response_time self;
  end_time := end_time self;
  user_input_length := user_input_length self;
  response_length := response_length self;
  tts_calls := tts_calls self;
  total_tts_time := total_tts_time self;
  _first_response_marked := _first_response_marked self
|}.

Definition with_llm_first_token_time (v : option (float R))
    (self : PerformanceSession) : PerformanceSession := {|
  session_id := session_id self;
  monitor := monitor self;
  start_time := start_time self;
  request_reception_time := request_reception_time self;
  asr_start_time := asr_start_time self;
  asr_end_time := asr_end_time self;
  llm_start_time := llm_start_time self;
  llm_first_token_time := v;
  llm_end_time := llm_end_time self;
  tts_start_time := tts_start_time self;
  tts_end_time := tts_end_time self;
  first_response_time := first_response_time self;
  end_time := end_time self;
  user_input_length := user_input_length self;
  response_length := response_length self;
  tts_calls := tts_calls self;
  total_tts_time := total_tts_time self;
  _first_response_marked := _first_response_marked self
|}.

Definition with_llm_end_time (v : option (float R))
    (self : PerformanceSession) : PerformanceSession := {|
  session_id := session_id self;
  monitor := monitor self;
  start_time := start_time self;
  request_reception_time := request_reception_time self;
  asr_start_time := asr_start_time self;
  asr_end_time := asr_end_time self;
  llm_start_time := llm_start_time self;
  llm_first_token_time := llm_first_token_time self;
  llm_end_time := v;
  tts_start_time := tts_start_time self;
  tts_end_time := tts_end_time self;
  first_response_time := first_response_time self;
  end_time := end_time self;
  user_input_length := user_input_length self;
  response_length := response_length self;
  tts_calls := tts_calls self;
  total_tts_time := total_tts_time self;
  _first_response_marked := _first_response_marked self
|}.

Definition with_tts_start_time (v : option (float R))
    (self : PerformanceSession) : PerformanceSession := {|
  session_id := session_id self;
  monitor := monitor self;
  start_time := start_time self;
  request_reception_time := request_reception_time self;
  asr_start_time := asr_start_time self;
  asr_end_time := asr_end_time self;
  llm_start_time := llm_start_time self;
  llm_first_token_time := llm_first_token_time self;
  llm_end_time := llm_end_time self;
  tts_start_time := v;
  tts_end_time := tts_end_time self;
  first_response_time := first_response_time self;
  end_time := end_time self;
  user_input_length := user_input_length self;
  response_length := response_length self;
  tts_calls := tts_calls self;
  total_tts_time := total_tts_time self;
  _first_response_marked := _first_response_marked self
|}.

Definition with_tts_end_time (v : option (float R))
    (self : PerformanceSession) : PerformanceSession := {|
  session_id := session_id self;
  monitor := monitor self;
  start_time := start_time self;
  request_reception_time := request_reception_time self;
  asr_start_time := asr_start_time self;
  asr_end_time := asr_end_time self;
  llm_start_time := llm_start_time self;
  llm_first_token_time := llm_first_token_time self;
  llm_end_time := llm_end_time self;
  tts_start_time := tts_start_time self;
  tts_end_time := v;
  first_response_time := first_response_time self;
  end_time := end_time self;
  user_input_length := user_input_length self;
  response_length := response_length self;
  tts_calls := tts_calls self;
  total_tts_time := total_tts_time self;
  _first_response_marked := _first_response_marked self
|}.

Definition with_first_response_time (v : option (float R))
    (self : PerformanceSession) : PerformanceSession := {|
  session_id := session_id self;
  monitor := monitor self;
  start_time := start_time self;
  request_reception_time := request_reception_time self;
  asr_start_time := asr_start_time self;
  asr_end_time := asr_end_time self;
  llm_start_time := llm_start_time self;
  llm_first_token_time := llm_first_token_time self;
  llm_end_time := llm_end_time self;
  tts_start_time := tts_start_time self;
  tts_end_time := tts_end_time self;
  first_response_time := v;
  end_time := end_time self;
  user_input_length := user_input_length self;
  response_length := response_length self;
  tts_calls := tts_calls self;
  total_tts_time := total_tts_time self;
  _first_response_marked := _first_response_marked self
|}.

Definition with_end_time (v : option (float R))
    (self : PerformanceSession) : PerformanceSession := {|
  session_id := session_id self;
  monitor := monitor self;
  start_time := start_time self;
  request_reception_time := request_reception_time self;
  asr_start_time := asr_start_time self;
  asr_end_time := asr_end_time self;
  llm_start_time := llm_start_time self;
  llm_first_token_time := llm_first_token_time self;
  llm_end_time := llm_end_time self;
  tts_start_time := tts_start_time self;
  tts_end_time := tts_end_time self;
  first_response_time := first_response_time self;
  end_time := v;
  user_input_length := user_input_length self;
  response_length := response_length self;
  tts_calls := tts_calls self;
  total_tts_time := total_tts_time self;
  _first_response_marked := _first_response_marked self
|}.

Definition with_user_input_length (v : Z)
    (self : PerformanceSession) : PerformanceSession := {|
  session_id := session_id self;
  monitor := monitor self;
  start_time := start_time self;
  request_reception_time := request_reception_time self;
  asr_start_time := asr_start_time self;
  asr_end_time := asr_end_time self;
  llm_start_time := llm_start_time self;
  llm_first_token_time := llm_first_token_time self;
  llm_end_time := llm_end_time self;
  tts_start_time := tts_start_time self;
  tts_end_time := tts_end_time self;
  first_response_time := first_response_time self;
  end_time := end_time self;
  user_input_length := v;
  response_length := response_length self;
  tts_calls := tts_calls self;
  total_tts_time := total_tts_time self;
  _first_response_marked := _first_response_marked self
|}.

Definition with_response_length (v : Z)
    (self : PerformanceSession) : PerformanceSession := {|
  session_id := session_id self;
  monitor := monitor self;
  start_time := start_time self;
  request_reception_time := request_reception_time self;
  asr_start_time := asr_start_time self;
  asr_end_time := asr_end_time self;
  llm_start_time := llm_start_time self;
  llm_first_token_time := llm_first_token_time self;
  llm_end_time := llm_end_time self;
  tts_start_time := tts_start_time self;
  tts_end_time := tts_end_time self;
  first_response_time := first_response_time self;
  end_time := end_time self;
  user_input_length := user_input_length self;
  response_length := v;
  tts_calls := tts_calls self;
  total_tts_time := total_tts_time self;
  _first_response_marked := _first_response_marked self
|}.

Definition with_tts_calls (v : Z)
    (self : PerformanceSession) : PerformanceSession := {|
  session_id := session_id self;
  monitor := monitor self;
  start_time := start_time self;
  request_reception_time := request_reception_time self;
  asr_start_time := asr_start_time self;
  asr_end_time := asr_end_time self;
  llm_start_time := llm_start_time self;
  llm_first_token_time := llm_first_token_time self;
  llm_end_time := llm_end_time self;
  tts_start_time := tts_start_time self;
  tts_end_time := tts_end_time self;
  first_response_time := first_response_time self;
  end_time := end_time self;
  user_input_length := user_input_length self;
  response_length := response_length self;
  tts_calls := v;
  total_tts_time := total_tts_time self;
  _first_response_marked := _first_response_marked self
|}.

Definition with_total_tts_time (v : float R)
    (self : PerformanceSession) : PerformanceSession := {|
  session_id := session_id self;
  monitor := monitor self;
  start_time := start_time self;
  request_reception_time := request_reception_time self;
  asr_start_time := asr_start_time self;
  asr_end_time := asr_end_time self;
  llm_start_time := llm_start_time self;
  llm_first_token_time := llm_first_token_time self;
  llm_end_time := llm_end_time self;
  tts_start_time := tts_start_time self;
  tts_end_time := tts_end_time self;
  first_response_time := first_response_time self;
  end_time := end_time self;
  user_input_length := user_input_length self;
  response_length := response_length self;
  tts_calls := tts_calls self;
  total_tts_time := v;
  _first_response_marked := _first_response_marked self
|}.

Definition with_first_response_marked (v : bool)
    (self : PerformanceSession) : PerformanceSession := {|
  session_id := session_id self;
  monitor := monitor self;
  start_time := start_time self;
  request_reception_time := request_reception_time self;
  asr_start_time := asr_start_time self;
  asr_end_time := asr_end_time self;
  llm_start_time := llm_start_time self;
  llm_first_token_time := llm_first_token_time self;
  llm_end_time := llm_end_time self;
  tts_start_time := tts_start_time self;
  tts_end_time := tts_end_time self;
  first_response_time := first_response_time self;
  end_time := end_time self;
  user_input_length := user_input_length self;
  response_length := response_length self;
  tts_calls := tts_calls self;
  total_tts_time := total_tts_time self;
  _first_response_marked := v
|}.

Definition mark_request_received (self : PerformanceSession) (w : world)
    : PerformanceSession * world :=
  let (self, w) :=
    match start_time self with
    | None =>
      let (now, w) := time_perf_counter w in
      (with_start_time (Some now) self, w)
    | Some _ => (self, w)
    end in
  let (now, w) := time_perf_counter w in
  (with_request_reception_time (Some now) self, w).

Definition mark_asr_start (self : PerformanceSession) (w : world)
    : PerformanceSession * world :=
  let (now, w) := time_perf_counter w in
  (with_asr_start_time (Some now) self, w).

Definition mark_asr_end (self : PerformanceSession) (w : world)
    : PerformanceSession * world :=
  let (now, w) := time_perf_counter w in
  (with_asr_end_time (Some now) self, w).

Definition mark_llm_start (self : PerformanceSession) (w : world)
    : PerformanceSession * world :=
  let (now, w) := time_perf_counter w in
  (with_llm_start_time (Some now) self, w).

Definition mark_llm_first_token (self : PerformanceSession) (w : world)
    : PerformanceSession * world :=
  match llm_first_token_time self with
  | None =>
    let (now, w) := time_perf_counter w in
    (with_llm_first_token_time (Some now) self, w)
  | Some _ => (self, w)
  end.

Definition mark_llm_end (self : PerformanceSession) (w : world)
    : PerformanceSession * world :=
  let (now, w) := time_perf_counter w in
  (with_llm_end_time (Some now) self, w).

Definition mark_first_response (self : PerformanceSession) (w : world)
    : PerformanceSession * world :=
  if negb (_first_response_marked self) then
    let (now, w) := time_perf_counter w in
    let self := with_first_response_time (Some now) self in
    (with_first_response_marked true self, w)
  else (self, w).

Definition mark_tts_start (self : PerformanceSession) (w : world)
    : PerformanceSession * world :=
  let (now, w) := time_perf_counter w in
  let self := with_tts_start_time (Some now) self in
  (with_tts_calls (tts_calls self + 1)%Z self, w).

Definition mark_tts_end (self : PerformanceSession) (w : world)
    : PerformanceSession * world :=
  match tts_start_time self with
  | Some started =>
    let (tts_end, w) := time_perf_counter w in
    let tts_duration := fmul R (fsub R tts_end started) (f_1000 R) in
    let self :=
      with_total_tts_time (fadd R (total_tts_time self) tts_duration) self in
    let self := with_tts_end_time (Some tts_end) self in
    (with_tts_start_time None self, w)
  | None => (self, w)
  end.

Definition set_user_input_length (self : PerformanceSession) (length : Z)
    : PerformanceSession :=
  with_user_input_length length self.

Definition set_response_length (self : PerformanceSession) (length : Z)
    : PerformanceSession :=
  with_response_length length self.

(** One entry of the metrics: [(b - a) * 1000] when both times are set,
    [0.0] otherwise. *)
Definition between (a b : option (float R)) : float R :=
  match a, b with
  | Some a, Some b => fmul R (fsub R b a) (f_1000 R)
  | _, _ => f_zero R
  end.

(** The dict [finalize] returns, in the order of its assignments. *)
Definition finalize (self : PerformanceSession) (w : world)
    : list (string * float R) * PerformanceSession * world :=
  let (self, w) :=
    match end_time self with
    | None =>
      let (now, w) := time_perf_counter w in
      (with_end_time (Some now) self, w)
    | Some _ => (self, w)
    end in
  let metrics :=
    [ ("network_latency_ms"%string,
       between (start_time self) (request_reception_time self));
      ("asr_latency_ms"%string,
       between (asr_start_time self) (asr_end_time self));
      ("llm_first_token_ms"%string,
       between (llm_start_time self) (llm_first_token_time self));
      ("llm_total_latency_ms"%string,
       between (llm_start_time self) (llm_end_time self));
      ("tts_latency_ms"%string, total_tts_time self);
      ("time_to_first_response_ms"%string,
       between (start_time self) (first_response_time self)) ] in
  (metrics, self, w).

(** [metrics[key]]; [None] stands for the [KeyError]. *)
Fixpoint getitem (metrics : list (string * float R)) (key : string)
    : option (float R) :=
  match metrics with
  | [] => None
  | (k, v) :: metrics' =>
    if String.eqb k key then Some v else getitem metrics' key
  end.

(** The message of [log_and_save]; its first four characters are the
    ones the source file holds. *)
Definition metrics_message (self : PerformanceSession)
    (network asr first_token llm_total tts first_response : float R) : text :=
  [240; 376; 8220; 352]%Z
  ++ of_string " Performance Metrics for session " ++ session_id self
  ++ of_string ":" ++ [c_nl]
  ++ of_string "  Network Latency: " ++ format_2f R network
  ++ of_string " ms" ++ [c_nl]
  ++ of_string "  ASR Latency: " ++ format_2f R asr
  ++ of_string " ms" ++ [c_nl]
  ++ of_string "  LLM First Token (TTFB): " ++ format_2f R first_token
  ++ of_string " ms" ++ [c_nl]
  ++ of_string "  LLM Total Latency: " ++ format_2f R llm_total
  ++ of_string " ms" ++ [c_nl]
  ++ of_string "  TTS Latency: " ++ format_2f R tts
  ++ of_string " ms (" ++ str_of_int (tts_calls self)
  ++ of_string " calls)" ++ [c_nl]
  ++ of_string "  Time to First Response: " ++ format_2f R first_response
  ++ of_string " ms".

(** The row [log_and_save] appends. *)
Definition metrics_row (stamp : text) (self : PerformanceSession)
    (network asr first_token llm_total tts first_response : float R)
    : list text :=
  [ stamp;
    session_id self;
    format_2f R network;
    format_2f R asr;
    format_2f R first_token;
    format_2f R llm_total;
    format_2f R tts;
    format_2f R first_response;
    str_of_int (user_input_length self);
    str_of_int (response_length self) ].

Definition log_and_save (self : PerformanceSession) (w : world)
    : option (PerformanceSession * world) :=
  let '(metrics, self, w) := finalize self w in
  match getitem metrics "network_latency_ms",
        getitem metrics "asr_latency_ms",
        getitem metrics "llm_first_token_ms",
        getitem metrics "llm_total_latency_ms",
        getitem metrics "tts_latency_ms",
        getitem metrics "time_to_first_response_ms" with
  | Some network, Some asr, Some first_token, Some llm_total, Some tts,
    Some first_response =>
    let w :=
      logger_info
        (metrics_message self network asr first_token llm_total tts
           first_response) w in
    let (stamp, w) := datetime_now_isoformat w in
    let w :=
      append_row (csv_file (monitor self))
        (metrics_row stamp self network asr first_token llm_total tts
           first_response) w in
    Some (self, w)
  | _, _, _, _, _, _ => None
  end.

(** The calls a user of a session can make, and a sequence of them run
    in order; a call that raises ends the run. *)
Inductive method_call : Type :=
| MarkRequestReceived
| MarkAsrStart
| MarkAsrEnd
| MarkLlmStart
| MarkLlmFirstToken
| MarkLlmEnd
| MarkFirstResponse
| MarkTtsStart
| MarkTtsEnd
| SetUserInputLength (length : Z)
| SetResponseLength (length : Z)
| Finalize
| LogAndSave.

Definition do_call (c : method_call) (self : PerformanceSession) (w : world)
    : option (PerformanceSession * world) :=
  match c with
  | MarkRequestReceived => Some (mark_request_received self w)
  | MarkAsrStart => Some (mark_asr_start self w)
  | MarkAsrEnd => Some (mark_asr_end self w)
  | MarkLlmStart => Some (mark_llm_start self w)
  | MarkLlmFirstToken => Some (mark_llm_first_token self w)
  | MarkLlmEnd => Some (mark_llm_end self w)
  | MarkFirstResponse => Some (mark_first_response self w)
  | MarkTtsStart => Some (mark_tts_start self w)
  | MarkTtsEnd => Some (mark_tts_end self w)
  | SetUserInputLength n => Some (set_user_input_length self n, w)
  | SetResponseLength n => Some (set_response_length self n, w)
  | Finalize => let '(_, self, w) := finalize self w in Some (self, w)
  | LogAndSave => log_and_save self w
  end.

Fixpoint do_calls (cs : list method_call)
    (self : PerformanceSession) (w : world)
    : option (PerformanceSession * world) :=
  match cs with
  | [] => Some (self, w)
  | c :: cs' =>
    match do_call c self w with
    | Some (self, w) => do_calls cs' self w
    | None => None
    end
  end.

Definition is_tts_start (c : method_call) : bool :=
  match c with MarkTtsStart => true | _ => false end.

Definition is_log_and_save (c : method_call) : bool :=
  match c with LogAndSave => true | _ => false end.

Definition is_request (c : method_call) : bool :=
  match c with MarkRequestReceived => true | _ => false end.

End PerformanceMonitoring.

(** A runtime and a world for instantiating statements: the times are
    whole numbers, the n-th reading of either clock is n, no file is
    there and nothing is logged yet. *)
Definition runtime_sample : runtime := {|
  float := Z;
  fsub := Z.sub;
  fmul := Z.mul;
  fadd := Z.add;
  f_1000 := 1000%Z;
  f_zero := 0%Z;
  perf_counter := Z.of_nat;
  now_isoformat := str_of_nat;
  format_2f := str_of_int
|}.

Definition world_sample : world := {|
  clock := 0;
  wall_clock := 0;
  files := fun _ => None;
  console := []
|}.

Definition monitor_sample : PerformanceMonitor := {|
  log_dir := of_string "logs";
  csv_file := of_string "logs/performance_metrics.csv"
|}.

(* ------------------------------------------------------------------ *)
(** * Properties *)

(** ** Lists, membership and the scan of [re.sub] *)

Lemma scan_go_keep_in (r : regex) (s : text) :
  forall skip pre c, In (Keep c) (scan_go r skip pre s) -> In c s.
Proof.
  induction s as [|a s IH]; intros skip pre c H; cbn [scan_go] in H.
  - destruct (match_at r pre []); simpl in H; [|contradiction].
    destruct H as [H|[]]; discriminate.
  - destruct skip as [|n].
    + destruct (match_at r pre (a :: s)) as [rest|].
      * cbv zeta in H. destruct H as [H|H]; [discriminate|].
        destruct (length (a :: s) - length rest) as [|n'].
        -- destruct H as [H|H]; [injection H as ->; now left|].
           right; eapply IH; eauto.
        -- right; eapply IH; eauto.
      * destruct H as [H|H]; [injection H as ->; now left|].
        right; eapply IH; eauto.
    + right; eapply IH; eauto.
Qed.

Lemma sub_in (r : regex) (repl t : text) (x : char) :
  In x (sub r repl t) -> In x t \/ In x repl.
Proof.
  unfold sub, scan. intros H. apply in_flat_map in H.
  destruct H as [sg [Hsg Hx]]. destruct sg as [c|m].
  - destruct Hx as [<-|[]]. left. eapply scan_go_keep_in; eauto.
  - now right.
Qed.

Lemma lstrip_in (t : text) (x : char) : In x (lstrip t) -> In x t.
Proof.
  induction t as [|c t IH]; simpl; auto.
  destruct (isspace c); auto.
Qed.

Lemma strip_in (t : text) (x : char) : In x (strip t) -> In x t.
Proof.
  unfold strip. intros H. apply in_rev in H. apply lstrip_in in H.
  apply in_rev in H. now apply lstrip_in.
Qed.

Lemma clean_spaces_in (t : text) (x : char) :
  In x (clean_spaces t) -> In x t \/ x = c_space.
Proof.
  unfold clean_spaces, collapse_spaces. intros H. apply strip_in in H.
  apply sub_in in H. destruct H as [H|[H|[]]]; auto.
Qed.

(** ** [_filter_nested] *)

Section Nested.
Variables left right : char.

Lemma nested_fold (t : text) : forall res d,
  fst (fold_left (nested_step left right) t (res, d))
  = res ++ nested_out left right d t.
Proof.
  induction t as [|c t IH]; intros res d; simpl.
  - now rewrite app_nil_r.
  - destruct (c =? left)%Z; [apply IH|].
    destruct (c =? right)%Z.
    + destruct (d >? 0)%Z; apply IH.
    + destruct (d =? 0)%Z; rewrite IH; [|reflexivity].
      now rewrite <- app_assoc.
Qed.

Lemma nested_depth_nonneg (t : text) : forall res d,
  (0 <= d)%Z ->
  (0 <= snd (fold_left (nested_step left right) t (res, d)))%Z.
Proof.
  induction t as [|c t IH]; intros res d Hd; simpl; auto.
  destruct (c =? left)%Z; [apply IH; lia|].
  destruct (c =? right)%Z.
  - destruct (d >? 0)%Z eqn:E; apply IH; auto.
    apply Z.gtb_lt in E. lia.
  - destruct (d =? 0)%Z; apply IH; auto.
Qed.

Lemma nested_out_in (t : text) : forall d x,
  In x (nested_out left right d t) -> x <> left /\ x <> right /\ In x t.
Proof.
  induction t as [|c t IH]; intros d x H; simpl in H; [contradiction|].
  destruct (c =? left)%Z eqn:El.
  { apply IH in H. simpl; intuition. }
  destruct (c =? right)%Z eqn:Er.
  { destruct (d >? 0)%Z; apply IH in H; simpl; intuition. }
  apply Z.eqb_neq in El, Er.
  destruct (d =? 0)%Z.
  - destruct H as [<-|H]; [simpl; intuition|].
    apply IH in H. simpl; intuition.
  - apply IH in H. simpl; intuition.
Qed.

Lemma nested_out_inside (t : text) : forall d,
  (0 < d)%Z -> ~ In right t -> nested_out left right d t = [].
Proof.
  induction t as [|c t IH]; intros d Hd Hr; simpl; auto.
  assert (c <> right /\ ~ In right t) as [Hc Ht].
  { split; intro; apply Hr; [now left|now right]. }
  destruct (c =? left)%Z; [apply IH; auto; lia|].
  apply Z.eqb_neq in Hc. rewrite Hc.
  replace (d =? 0)%Z with false by (symmetry; apply Z.eqb_neq; lia).
  now apply IH.
Qed.

Lemma nested_out_app (a : text) : forall d b,
  nested_out left right d (a ++ b)
  = nested_out left right d a
    ++ nested_out left right
         (snd (fold_left (nested_step left right) a ([], d))) b.
Proof.
  induction a as [|c a IH]; intros d b; simpl; auto.
  assert (Hsnd : forall res res' d',
    snd (fold_left (nested_step left right) a (res, d'))
    = snd (fold_left (nested_step left right) a (res', d'))).
  { clear. induction a as [|c a IH]; intros res res' d'; simpl; auto.
    destruct (c =? left)%Z; [apply IH|].
    destruct (c =? right)%Z; [destruct (d' >? 0)%Z; apply IH|].
    destruct (d' =? 0)%Z; apply IH. }
  destruct (c =? left)%Z; [apply IH|].
  destruct (c =? right)%Z; [destruct (d >? 0)%Z; apply IH|].
  destruct (d =? 0)%Z; [|apply IH].
  simpl. rewrite IH. do 3 f_equal. apply Hsnd.
Qed.

Lemma nested_loop_unmatched (a b : text) :
  ~ In right b ->
  fst (nested_loop left right (a ++ left :: b))
  = fst (nested_loop left right a).
Proof.
  intros Hb. unfold nested_loop. rewrite !nested_fold. simpl.
  rewrite nested_out_app. simpl. rewrite Z.eqb_refl.
  rewrite nested_out_inside with (t := b); [apply app_nil_r| |exact Hb].
  apply Z.add_nonneg_pos; [apply nested_depth_nonneg|]; lia.
Qed.

Lemma nested_loop_snoc (t : text) (c : char) :
  nested_loop left right (t ++ [c])
  = nested_step left right (nested_loop left right t) c.
Proof. unfold nested_loop. now rewrite fold_left_app. Qed.

Lemma filter_nested_no_delim (t : text) (x : char) :
  x <> c_space -> (x = left \/ x = right) ->
  ~ In x (_filter_nested t left right).
Proof.
  intros Hsp Hx H.
  assert (H' : In x (clean_spaces (fst (nested_loop left right t)))).
  { destruct t; [contradiction|exact H]. }
  apply clean_spaces_in in H'. destruct H' as [H'|H']; [|contradiction].
  unfold nested_loop in H'. rewrite nested_fold in H'.
  apply nested_out_in in H'. intuition.
Qed.
End Nested.

(** C2 (as the code has it): on ["a>b<c>d"] the angle-bracket stripper
    returns ["abd"]: the unmatched [>] is dropped without an error and the
    span [<c>] is removed; no whitespace is involved. *)
Theorem filter_angle_brackets_stray_closer :
  filter_angle_brackets (of_string "a>b<c>d") = of_string "abd"
  /\ nested_loop c_langle c_rangle (of_string "a>")
     = nested_loop c_langle c_rangle (of_string "a")
  /\ fst (nested_loop c_langle c_rangle (of_string "a>b<c>d"))
     = of_string "abd".
Proof. repeat split; reflexivity. Qed.

(** C2, the value the claim gives: the stripper does not return ["ab d"]. *)
Lemma filter_angle_brackets_not_ab_d :
  filter_angle_brackets (of_string "a>b<c>d") <> of_string "ab d".
Proof. vm_compute. discriminate. Qed.

(** C7: the depth counter of [_filter_nested] starts at 0 and never goes
    below it; an open delimiter always increments it, a close delimiter
    decrements it only when it is positive, any other character is
    appended to the result only at depth 0.  So no delimiter is ever
    appended (and none is in the output of the three instances), an open
    delimiter with no close delimiter after it removes everything up to
    the end of the text, and nested spans go as a whole. *)
Theorem filter_nested_depth_counter :
  (forall l r, nested_loop l r [] = ([], 0%Z))
  /\ (forall l r t, (0 <= snd (nested_loop l r t))%Z)
  /\ (forall l r t,
        nested_loop l r (t ++ [l])
        = (fst (nested_loop l r t), (snd (nested_loop l r t) + 1)%Z))
  /\ (forall l r t, r <> l ->
        nested_loop l r (t ++ [r])
        = (fst (nested_loop l r t),
           if (snd (nested_loop l r t) >? 0)%Z
           then (snd (nested_loop l r t) - 1)%Z
           else snd (nested_loop l r t)))
  /\ (forall l r t c, c <> l -> c <> r ->
        nested_loop l r (t ++ [c])
        = (if (snd (nested_loop l r t) =? 0)%Z
           then fst (nested_loop l r t) ++ [c]
           else fst (nested_loop l r t),
           snd (nested_loop l r t)))
  /\ (forall l r t,
        ~ In l (fst (nested_loop l r t)) /\ ~ In r (fst (nested_loop l r t)))
  /\ (forall t,
        ~ In c_lbracket (filter_brackets t)
        /\ ~ In c_rbracket (filter_brackets t)
        /\ ~ In c_lparen (filter_parentheses t)
        /\ ~ In c_rparen (filter_parentheses t)
        /\ ~ In c_langle (filter_angle_brackets t)
        /\ ~ In c_rangle (filter_angle_brackets t))
  /\ (forall l r a b, ~ In r b ->
        fst (nested_loop l r (a ++ l :: b)) = fst (nested_loop l r a))
  /\ filter_parentheses (of_string "x(y") = of_string "x"
  /\ filter_brackets (of_string "a[b[c]d]e") = of_string "ae".
Proof.
  split; [reflexivity|].
  split; [intros; apply nested_depth_nonneg; lia|].
  split.
  { intros l r t. rewrite nested_loop_snoc.
    destruct (nested_loop l r t) as [res d]. simpl.
    now rewrite Z.eqb_refl. }
  split.
  { intros l r t Hrl. rewrite nested_loop_snoc.
    destruct (nested_loop l r t) as [res d]. simpl.
    apply Z.eqb_neq in Hrl. rewrite Hrl, Z.eqb_refl.
    now destruct (d >? 0)%Z. }
  split.
  { intros l r t c Hl Hr. rewrite nested_loop_snoc.
    destruct (nested_loop l r t) as [res d]. simpl.
    apply Z.eqb_neq in Hl, Hr. rewrite Hl, Hr.
    now destruct (d =? 0)%Z. }
  split.
  { intros l r t. unfold nested_loop. rewrite nested_fold. simpl.
    split; intros H; apply nested_out_in in H; intuition. }
  split.
  { intros t. unfold filter_brackets, filter_parentheses,
      filter_angle_brackets.
    repeat split; apply filter_nested_no_delim;
      solve [ discriminate | now left | now right ]. }
  split; [intros; now apply nested_loop_unmatched|].
  split; reflexivity.
Qed.

Lemma filter_nested_depth_counter_witness :
  ~ In c_rparen (of_string "y")
  /\ fst (nested_loop c_lparen c_rparen (of_string "x" ++ c_lparen :: of_string "y"))
     = fst (nested_loop c_lparen c_rparen (of_string "x")).
Proof.
  assert (H : ~ In c_rparen (of_string "y")).
  { simpl. intros [H|[]]. discriminate. }
  split; [exact H|].
  exact (proj1 (proj2 (proj2 (proj2 (proj2 (proj2 (proj2 (proj2
           filter_nested_depth_counter)))))))
         c_lparen c_rparen (of_string "x") (of_string "y") H).
Defined.

(** ** The dispatcher *)

Lemma spec_stage_shift (lg0 : log) (st : text * log)
    (x : bool * string * (text -> result text)) :
  spec_stage (fst st, lg0 ++ snd st) x
  = (fst (spec_stage st x), lg0 ++ snd (spec_stage st x)).
Proof.
  destruct st as [t lg], x as [[b what] f]. simpl.
  destruct b; [|reflexivity].
  destruct (f t); simpl; [reflexivity|].
  now rewrite app_assoc.
Qed.

Lemma spec_stages_shift (lg0 : log)
    (l : list (bool * string * (text -> result text))) :
  forall st,
    fold_left spec_stage l (fst st, lg0 ++ snd st)
    = (fst (fold_left spec_stage l st),
       lg0 ++ snd (fold_left spec_stage l st)).
Proof.
  induction l as [|x l IH]; intros st; simpl.
  - reflexivity.
  - rewrite spec_stage_shift. apply (IH (spec_stage st x)).
Qed.

Lemma spec_translate_shift (lg0 : log) tr (st : text * log) :
  spec_translate tr (fst st, lg0 ++ snd st)
  = (fst (spec_translate tr st), lg0 ++ snd (spec_translate tr st)).
Proof.
  destruct st as [t lg], tr as [tr|]; simpl; [|reflexivity].
  destruct (tr t); simpl; now rewrite !app_assoc.
Qed.

Lemma try_stage_spec (b : bool) (what : string) (f : text -> result text)
    (st : text * log) :
  (if b then try_stage what f (fst st) else ret (fst st)) (snd st)
  = (Ok (fst (spec_stage st (b, what, f))),
     snd (spec_stage st (b, what, f))).
Proof.
  destruct st as [t lg]. destruct b; simpl; [|reflexivity].
  unfold try_stage, try_except, call, bind, logger, ret, stage_failure.
  destruct (f t); simpl; [reflexivity|].
  now rewrite <- !app_assoc.
Qed.

Lemma try_translate_spec tr (st : text * log) :
  match tr with Some f => try_translate f (fst st) | None => ret (fst st) end
    (snd st)
  = (Ok (fst (spec_translate tr st)), snd (spec_translate tr st)).
Proof.
  destruct st as [t lg]. destruct tr as [f|]; simpl; [|reflexivity].
  unfold try_translate, try_except, call, bind, logger, ret,
    translation_failure.
  destruct (f t); simpl; [reflexivity|].
  now rewrite <- !app_assoc.
Qed.

Lemma bind_ok {A B : Type} (m : M A) (f : A -> M B) (lg lg' : log) (a : A) :
  m lg = (Ok a, lg') -> bind m f lg = f a lg'.
Proof. intros H. unfold bind. now rewrite H. Qed.

Lemma tts_filter_with_fold (S : stages) (t : text)
    (rsc ib ip ia iab : bool) tr (lg0 : log) :
  tts_filter_with S t rsc ib ip ia iab tr lg0
  = let st := spec_translate tr
                (fold_left spec_stage (stage_order S rsc ib ip ia iab)
                   (t, lg0)) in
    (Ok (fst st),
     snd st ++ [(DEBUG, of_string "Filtered text: " ++ fst st)]).
Proof.
  unfold tts_filter_with, stage_order. cbn [fold_left].
  erewrite bind_ok; [|exact (try_stage_spec ia _ (st_asterisks S) (t, lg0))].
  set (s1 := spec_stage (t, lg0) _).
  erewrite bind_ok; [|exact (try_stage_spec ib _ (st_brackets S) s1)].
  set (s2 := spec_stage s1 _).
  erewrite bind_ok; [|exact (try_stage_spec ip _ (st_parentheses S) s2)].
  set (s3 := spec_stage s2 _).
  erewrite bind_ok; [|exact (try_stage_spec iab _ (st_angle_brackets S) s3)].
  set (s4 := spec_stage s3 _).
  erewrite bind_ok; [|exact (try_stage_spec rsc _ (st_special_characters S) s4)].
  set (s5 := spec_stage s4 _).
  erewrite bind_ok; [|exact (try_translate_spec tr s5)].
  reflexivity.
Qed.

Lemma tts_filter_with_spec (S : stages) (t : text)
    (rsc ib ip ia iab : bool) tr (lg0 : log) :
  tts_filter_with S t rsc ib ip ia iab tr lg0
  = (Ok (fst (dispatch_spec S t rsc ib ip ia iab tr)),
     lg0 ++ snd (dispatch_spec S t rsc ib ip ia iab tr)).
Proof.
  rewrite tts_filter_with_fold. unfold dispatch_spec.
  set (order := stage_order S rsc ib ip ia iab).
  replace (fold_left spec_stage order (t, lg0))
    with (fst (fold_left spec_stage order (t, [])),
          lg0 ++ snd (fold_left spec_stage order (t, []))).
  2:{ rewrite <- (spec_stages_shift lg0 order (t, [])).
      simpl fst. simpl snd. now rewrite app_nil_r. }
  set (s5 := fold_left spec_stage order (t, [])).
  rewrite spec_translate_shift.
  destruct (spec_translate tr s5) as [t' lg'] eqn:E. cbn [fst snd].
  now rewrite app_assoc.
Qed.

(** The text of the dispatcher's answer: each enabled stage is applied
    when it returns and passed over when it raises. *)
Lemma dispatch_spec_text (S : stages) (t : text)
    (rsc ib ip ia iab : bool) tr :
  fst (dispatch_spec S t rsc ib ip ia iab tr)
  = translated tr
      (when rsc (recover (st_special_characters S))
        (when iab (recover (st_angle_brackets S))
          (when ip (recover (st_parentheses S))
            (when ib (recover (st_brackets S))
              (when ia (recover (st_asterisks S)) t))))).
Proof.
  unfold dispatch_spec, stage_order. cbn [fold_left].
  assert (Hst : forall st b what f,
    fst (spec_stage st (b, what, f)) = when b (recover f) (fst st)).
  { intros [t0 l0] b what f. unfold spec_stage, when, recover.
    cbn [fst]. destruct b; [|reflexivity]. now destruct (f t0). }
  assert (Htr : forall st, fst (spec_translate tr st) = translated tr (fst st)).
  { intros [t0 l0]. unfold spec_translate, translated, recover.
    cbn [fst]. destruct tr as [f|]; [|reflexivity]. now destruct (f t0). }
  match goal with
  | |- fst (let (_, _) := ?x in _) = _ =>
      destruct x as [t' lg'] eqn:E
  end.
  cbn [fst]. change t' with (fst (t', lg')). rewrite <- E.
  now rewrite Htr, !Hst.
Qed.

(** C5: whatever the stages and the translator do, [tts_filter] returns:
    it never raises.  A stage that raises leaves the text as it stood
    before it and three warnings in the log, the first naming the stage
    with the error, the second giving that text; a translator that raises
    leaves the text it was given, logged at critical severity.  The whole
    run is the fold of these steps over the stages in their order. *)
Theorem tts_filter_isolates_failures :
  (forall S t rsc ib ip ia iab tr lg0,
     tts_filter_with S t rsc ib ip ia iab tr lg0
     = (Ok (fst (dispatch_spec S t rsc ib ip ia iab tr)),
        lg0 ++ snd (dispatch_spec S t rsc ib ip ia iab tr)))
  /\ (forall S t rsc ib ip ia iab tr,
        fst (dispatch_spec S t rsc ib ip ia iab tr)
        = translated tr
            (when rsc (recover (st_special_characters S))
              (when iab (recover (st_angle_brackets S))
                (when ip (recover (st_parentheses S))
                  (when ib (recover (st_brackets S))
                    (when ia (recover (st_asterisks S)) t))))))
  /\ (forall what f t lg e,
        f t = Raise e ->
        try_stage what f t lg
        = (Ok t, lg ++ [(WARNING, of_string what ++ e);
                        (WARNING, of_string "Text: " ++ t);
                        (WARNING, of_string "Skipping...")]))
  /\ (forall tr t lg e,
        tr t = Raise e ->
        try_translate tr t lg
        = (Ok t, lg ++ [(INFO, of_string "Translating...");
                        (CRITICAL, of_string "Error translating: " ++ e);
                        (CRITICAL, of_string "Text: " ++ t);
                        (WARNING, of_string "Skipping...")]))
  /\ (forall U t rsc ib ip ia iab tr lg0,
        exists t' lg',
          tts_filter U t rsc ib ip ia iab tr lg0 = (Ok t', lg0 ++ lg')).
Proof.
  split; [intros; apply tts_filter_with_spec|].
  split; [intros; apply dispatch_spec_text|].
  split.
  { intros what f t lg e H.
    unfold try_stage, try_except, call, bind, logger, ret. rewrite H.
    simpl. now rewrite <- !app_assoc. }
  split.
  { intros tr t lg e H.
    unfold try_translate, try_except, call, bind, logger, ret. simpl.
    rewrite H. simpl. now rewrite <- !app_assoc. }
  intros. unfold tts_filter. rewrite tts_filter_with_spec. eauto.
Qed.

Lemma tts_filter_isolates_failures_witness :
  let boom : text -> result text := fun _ => Raise (of_string "boom") in
  boom (of_string "hi") = Raise (of_string "boom")
  /\ try_stage "Error ignoring asterisks: " boom (of_string "hi") []
     = (Ok (of_string "hi"),
        [] ++ [(WARNING, of_string "Error ignoring asterisks: " ++ of_string "boom");
               (WARNING, of_string "Text: " ++ of_string "hi");
               (WARNING, of_string "Skipping...")]).
Proof.
  intros boom.
  assert (H : boom (of_string "hi") = Raise (of_string "boom"))
    by reflexivity.
  split; [exact H|].
  exact (proj1 (proj2 (proj2 tts_filter_isolates_failures))
           "Error ignoring asterisks: "%string boom (of_string "hi") []
           (of_string "boom") H).
Defined.

(** C6: [tts_filter] returns the text obtained by the enabled stages in
    the fixed order asterisks, square brackets, parentheses, angle
    brackets, Unicode categories, then the translator when one is
    supplied; a disabled stage passes the text on unchanged, and the
    translator is called exactly when it is supplied. *)
Theorem tts_filter_fixed_order :
  forall U t rsc ib ip ia iab tr lg0,
    fst (tts_filter U t rsc ib ip ia iab tr lg0)
    = Ok (translated tr (pipeline_in_order U t rsc ib ip ia iab))
    /\ pipeline_in_order U t rsc ib ip ia iab
       = when rsc (remove_special_characters U)
           (when iab filter_angle_brackets
             (when ip filter_parentheses
               (when ib filter_brackets
                 (when ia filter_asterisks t))))
    /\ (In (INFO, of_string "Translating...")
           (snd (tts_filter U t rsc ib ip ia iab tr []))
        <-> tr <> None).
Proof.
  intros. split; [|split].
  - unfold tts_filter. rewrite tts_filter_with_spec. cbn [fst].
    rewrite dispatch_spec_text. unfold pipeline_in_order. simpl.
    unfold when, recover. simpl.
    now destruct rsc, ib, ip, ia, iab.
  - reflexivity.
  - unfold tts_filter. rewrite tts_filter_with_fold. cbn [snd].
    set (st := fold_left spec_stage _ _).
    assert (Hst : forall x, In x (snd st) -> fst x = WARNING).
    { subst st. unfold stage_order. cbn [fold_left].
      assert (Hone : forall (s : text * log) b what f,
        (forall x, In x (snd s) -> fst x = WARNING) ->
        forall x, In x (snd (spec_stage s (b, what, f))) -> fst x = WARNING).
      { intros [t0 l0] b what f Hs x. unfold spec_stage.
        destruct b; [|apply Hs]. destruct (f t0); [apply Hs|].
        cbn [snd]. rewrite in_app_iff. intros [Hx|Hx]; [now apply Hs|].
        unfold stage_failure in Hx. simpl in Hx.
        destruct Hx as [<-|[<-|[<-|[]]]]; reflexivity. }
      repeat apply Hone. simpl. contradiction. }
    destruct st as [t0 l0]. cbn [snd] in Hst.
    destruct tr as [f|]; simpl.
    + split; [discriminate|]. intros _.
      destruct (f t0); cbn [snd fst]; rewrite !in_app_iff;
        left; left; right; now left.
    + split; [|congruence]. rewrite in_app_iff. intros [H|[H|[]]].
      * apply Hst in H. discriminate.
      * discriminate.
Qed.

(** ** [remove_special_characters] *)

Lemma filter_sub_filter (f g : char -> bool) (l : text) :
  (forall c, g c = true -> f c = true) ->
  filter g (filter f l) = filter g l.
Proof.
  intros H. induction l as [|c l IH]; simpl; auto.
  destruct (f c) eqn:Ef; simpl.
  - now rewrite IH.
  - destruct (g c) eqn:Eg; auto.
    apply H in Eg. congruence.
Qed.

Lemma is_valid_char_iff (U : unicodedata) (c : char) :
  is_valid_char U c = true
  <-> (startswith (category U c) "L" = true
       \/ startswith (category U c) "N" = true
       \/ startswith (category U c) "P" = true
       \/ isspace c = true).
Proof.
  unfold is_valid_char. rewrite !orb_true_iff. tauto.
Qed.

(** C9: [remove_special_characters] normalizes to NFKC first and then
    keeps, in order, exactly the characters whose general category starts
    with L, N or P or that are whitespace; every whitespace character of
    the normalized text stays, none is merged.  With the database facts
    about the characters of ["Hello \U0001F600 World #1!"] (it is in NFKC
    already; letters, the digit and the punctuation marks [#] and [!] are
    in L, N and P; U+1F600 is in So) the result is ["Hello  World #1!"],
    with both spaces around the removed character. *)
Theorem remove_special_characters_by_category :
  forall U : unicodedata,
    (forall t,
       remove_special_characters U t
       = filter (is_valid_char U) (normalize_NFKC U t))
    /\ (forall c,
          is_valid_char U c = true
          <-> (startswith (category U c) "L" = true
               \/ startswith (category U c) "N" = true
               \/ startswith (category U c) "P" = true
               \/ isspace c = true))
    /\ (forall t c,
          In c (remove_special_characters U t)
          <-> In c (normalize_NFKC U t) /\ is_valid_char U c = true)
    /\ (forall t,
          filter isspace (remove_special_characters U t)
          = filter isspace (normalize_NFKC U t))
    /\ (let hello := of_string "Hello " ++ [128512%Z] ++ of_string " World #1!" in
        normalize_NFKC U hello = hello ->
        (forall c, In c hello -> category U c = sample_category c) ->
        remove_special_characters U hello = of_string "Hello  World #1!").
Proof.
  intros U.
  split; [reflexivity|].
  split; [apply is_valid_char_iff|].
  split; [intros t c; unfold remove_special_characters; apply filter_In|].
  split.
  { intros t. unfold remove_special_characters. apply filter_sub_filter.
    intros c Hc. apply is_valid_char_iff. auto. }
  intros hello Hn Hc. unfold remove_special_characters. rewrite Hn.
  rewrite filter_ext_in with (g := is_valid_char ucd_sample).
  - reflexivity.
  - intros c Hin. unfold is_valid_char. rewrite (Hc c Hin). reflexivity.
Qed.

Lemma remove_special_characters_by_category_witness :
  let hello := of_string "Hello " ++ [128512%Z] ++ of_string " World #1!" in
  normalize_NFKC ucd_sample hello = hello
  /\ (forall c, In c hello -> category ucd_sample c = sample_category c)
  /\ remove_special_characters ucd_sample hello = of_string "Hello  World #1!".
Proof.
  intros hello.
  assert (H1 : normalize_NFKC ucd_sample hello = hello) by reflexivity.
  assert (H2 : forall c, In c hello -> category ucd_sample c = sample_category c)
    by reflexivity.
  split; [exact H1|]. split; [exact H2|].
  exact (proj2 (proj2 (proj2 (proj2
           (remove_special_characters_by_category ucd_sample)))) H1 H2).
Defined.

(** ** The matcher and the scan *)

Section RepLoop.
Variable step : text -> text -> cont -> option text.
Variable L : text -> text -> text -> Prop.
Hypothesis step_sound : forall pre s k x,
  step pre s k = Some x ->
  exists m s', s = m ++ s' /\ L pre m s' /\ k (rev m ++ pre) s' = Some x.
Variables (lo : nat) (hi : option nat) (greedy : bool) (k : cont).

Lemma rep_loop_sound (fuel : nat) : forall cnt pre s x,
  rep_loop step lo hi greedy k fuel cnt pre s = Some x ->
  exists ms s', s = concat ms ++ s' /\ chain L pre ms s'
    /\ lo <= cnt + length ms
    /\ k (rev (concat ms) ++ pre) s' = Some x.
Proof.
  induction fuel as [|fuel IH]; intros cnt pre s x H; [discriminate|].
  cbn [rep_loop] in H.
  set (K := fun pre' s' : text =>
              if length s' <? length s
              then rep_loop step lo hi greedy k fuel (S cnt) pre' s'
              else None) in H.
  assert (Hmore : step pre s K = Some x ->
    exists ms s', s = concat ms ++ s' /\ chain L pre ms s'
      /\ lo <= cnt + length ms
      /\ k (rev (concat ms) ++ pre) s' = Some x).
  { intros Hs. apply step_sound in Hs.
    destruct Hs as (m & s1 & -> & Hm & HK). unfold K in HK.
    destruct (length s1 <? length (m ++ s1)); [|discriminate].
    apply IH in HK. destruct HK as (ms & s' & -> & Hch & Hlo & Hk).
    exists (m :: ms), s'. simpl. rewrite <- app_assoc.
    repeat split; auto; [lia|].
    now rewrite rev_app_distr, <- app_assoc. }
  assert (Hstop : lo <= cnt -> k pre s = Some x ->
    exists ms s', s = concat ms ++ s' /\ chain L pre ms s'
      /\ lo <= cnt + length ms
      /\ k (rev (concat ms) ++ pre) s' = Some x).
  { intros Hlo Hk. exists [], s. simpl. repeat split; auto. lia. }
  destruct (cnt <? lo) eqn:Elo.
  - destruct (below cnt hi); [auto|discriminate].
  - apply Nat.ltb_ge in Elo.
    destruct greedy.
    + destruct (below cnt hi).
      * destruct (step pre s K) eqn:E; simpl in H; [injection H as ->|];
          auto.
      * simpl in H. auto.
    + destruct (k pre s) eqn:E; simpl in H; [injection H as ->; auto|].
      destruct (below cnt hi); [auto|discriminate].
Qed.
End RepLoop.

Lemma rmatch_sound (r : regex) : forall pre s k x,
  rmatch r pre s k = Some x ->
  exists m s', s = m ++ s' /\ lang r pre m s'
    /\ k (rev m ++ pre) s' = Some x.
Proof.
  induction r as [p|r1 IH1 r2 IH2|lo hi g r1 IH1|r1 IH1|p|];
    intros pre s k x H; cbn [rmatch] in H.
  - destruct s as [|c s]; [discriminate|].
    destruct (p c) eqn:Ep; [|discriminate].
    exists [c], s. simpl. repeat split; eauto.
  - apply IH1 in H. destruct H as (m1 & s1 & -> & H1 & H).
    apply IH2 in H. destruct H as (m2 & s2 & -> & H2 & H).
    exists (m1 ++ m2), s2. rewrite <- app_assoc. split; [reflexivity|].
    split; [exists m1, m2; auto|].
    now rewrite rev_app_distr, <- app_assoc.
  - apply rep_loop_sound with (L := lang r1) in H; [|exact IH1].
    destruct H as (ms & s' & -> & Hch & Hlo & Hk).
    exists (concat ms), s'. split; [reflexivity|].
    split; [exists ms; auto|exact Hk].
  - destruct (rmatch r1 pre s (fun _ s' => Some s')) eqn:E; [discriminate|].
    exists [], s. simpl. auto.
  - exists [], s. simpl.
    destruct pre as [|c pre]; [auto|].
    destruct (p c) eqn:Ep; [discriminate|auto].
  - exists [], s. simpl.
    destruct pre as [|c pre]; [auto|].
    destruct (c =? c_nl)%Z eqn:Ec; [|discriminate].
    apply Z.eqb_eq in Ec. auto.
Qed.

Lemma match_at_sound (r : regex) (pre s rest : text) :
  match_at r pre s = Some rest ->
  exists m, s = m ++ rest /\ lang r pre m rest.
Proof.
  unfold match_at. intros H. apply rmatch_sound in H.
  destruct H as (m & s' & -> & Hl & H). injection H as ->. eauto.
Qed.

Lemma firstn_length_app (m rest : text) :
  firstn (length (m ++ rest) - length rest) (m ++ rest) = m.
Proof.
  rewrite length_app. replace (length m + length rest - length rest)
    with (length m + 0) by lia.
  rewrite firstn_app_2. simpl. apply app_nil_r.
Qed.

(** The segments of a scan spell the scanned text. *)
Lemma scan_go_text (r : regex) (s : text) : forall skip pre,
  concat (map seg_text (scan_go r skip pre s)) = skipn skip s.
Proof.
  induction s as [|c s IH]; intros skip pre; cbn [scan_go].
  - rewrite skipn_nil. now destruct (match_at r pre []).
  - destruct skip as [|n]; [|apply IH].
    destruct (match_at r pre (c :: s)) as [rest|] eqn:E.
    + cbv zeta. cbn [map concat seg_text].
      destruct (length (c :: s) - length rest) as [|n'] eqn:En.
      * cbn [firstn map concat seg_text app]. rewrite IH. reflexivity.
      * rewrite IH. change (skipn n' s) with (skipn (S n') (c :: s)).
        apply firstn_skipn.
    + cbn [map concat seg_text app]. now rewrite IH.
Qed.

(** Every match the scan reports is a match of the pattern. *)
Lemma scan_go_hit (r : regex) (s : text) : forall skip pre m,
  In (Hit m) (scan_go r skip pre s) ->
  exists pre' post, lang r pre' m post.
Proof.
  induction s as [|c s IH]; intros skip pre m H; cbn [scan_go] in H.
  - destruct (match_at r pre []) as [rest|] eqn:E; [|contradiction].
    destruct H as [H|[]]. injection H as <-.
    apply match_at_sound in E. destruct E as (m & Hm & Hl).
    symmetry in Hm. apply app_eq_nil in Hm. destruct Hm as [-> ->]. eauto.
  - destruct skip as [|n]; [|eapply IH; eauto].
    destruct (match_at r pre (c :: s)) as [rest|] eqn:E.
    + pose proof (match_at_sound _ _ _ E) as (m0 & Hm & Hl).
      assert (Hf : firstn (length (c :: s) - length rest) (c :: s) = m0)
        by (rewrite Hm; apply firstn_length_app).
      cbv zeta in H. rewrite Hf in H. destruct H as [H|H].
      * injection H as <-. eauto.
      * destruct (length (c :: s) - length rest).
        -- destruct H as [H|H]; [discriminate|]. eapply IH; eauto.
        -- eapply IH; eauto.
    + destruct H as [H|H]; [discriminate|]. eapply IH; eauto.
Qed.

(** A scan without matches keeps the text. *)
Lemma sub_no_hit (r : regex) (repl t : text) :
  hits (scan r t) = [] -> sub r repl t = t.
Proof.
  unfold sub. intros H.
  rewrite <- (scan_go_text r t 0 []) at 2. fold (scan r t).
  induction (scan r t) as [|[c|m] l IH]; simpl in *; auto.
  - now rewrite IH.
  - discriminate.
Qed.

Lemma hits_in (l : list seg) (m : text) : In m (hits l) <-> In (Hit m) l.
Proof.
  induction l as [|[c|m'] l IH]; simpl.
  - tauto.
  - rewrite IH. split; [auto|]. intros [H|H]; [discriminate|auto].
  - rewrite IH. split; intros [H|H]; auto.
    + left. now f_equal.
    + left. now injection H.
Qed.



(** ** What the patterns of the module match *)

Lemma chain_chars (L : text -> text -> text -> Prop) (P : char -> Prop) :
  (forall pre m post, L pre m post -> exists c, m = [c] /\ P c) ->
  forall ms pre post, chain L pre ms post ->
    Forall P (concat ms) /\ length (concat ms) = length ms.
Proof.
  intros HL ms. induction ms as [|m ms IH]; intros pre post H; simpl in *.
  - split; [constructor|reflexivity].
  - destruct H as [Hm Hch]. apply HL in Hm. destruct Hm as (c & -> & Hc).
    apply IH in Hch. destruct Hch as [Hall Hlen]. simpl.
    split; [constructor; auto|now rewrite Hlen].
Qed.

Lemma lang_rep_chars (lo : nat) hi g (r1 : regex) (P : char -> Prop)
    (pre m post : text) :
  (forall pre m post, lang r1 pre m post -> exists c, m = [c] /\ P c) ->
  lang (Rep lo hi g r1) pre m post -> Forall P m /\ lo <= length m.
Proof.
  intros HL (ms & -> & Hch & Hlo).
  eapply chain_chars in Hch; [|exact HL].
  destruct Hch as [Hall Hlen]. split; [exact Hall|].
  rewrite Hlen. exact Hlo.
Qed.

Lemma lang_chr (p : char -> bool) (pre m post : text) :
  lang (Chr p) pre m post -> exists c, m = [c] /\ p c = true.
Proof. auto. Qed.

Lemma Forall_eq_repeat (a : char) (m : text) :
  Forall (fun c => is_char a c = true) m -> m = repeat a (length m).
Proof.
  induction 1 as [|c m Hc _ IH]; simpl; [reflexivity|].
  apply Z.eqb_eq in Hc. subst c. now f_equal.
Qed.

Lemma lang_spaces (pre m post : text) :
  lang re_spaces pre m post ->
  m <> [] /\ Forall (fun c => isspace c = true) m.
Proof.
  intros H. apply lang_rep_chars with (P := fun c => isspace c = true) in H;
    [|intros; now apply lang_chr with (pre := pre0) (post := post0)].
  destruct H as [Hall Hlen]. split; [|exact Hall].
  intros ->. simpl in Hlen. lia.
Qed.

Lemma lang_asterisks (pre m post : text) :
  lang re_asterisks pre m post -> emphasis_span m.
Proof.
  intros (m1 & m23 & -> & H1 & m2 & m3 & -> & H2 & H3).
  apply lang_rep_chars with (P := fun c => is_char c_star c = true) in H1;
    [|intros; now apply lang_chr with (pre := pre0) (post := post0)].
  apply lang_rep_chars with (P := fun c => is_char c_star c = true) in H3;
    [|intros; now apply lang_chr with (pre := pre0) (post := post0)].
  apply lang_rep_chars
    with (P := fun c => c <> c_star /\ c <> c_nl) in H2.
  2:{ intros pre0 m0 post0 (a & b & -> & [-> Ha] & c & -> & Hc).
      exists c. split; [reflexivity|].
      unfold match_at in Ha. simpl in Ha. unfold is_char in Ha.
      unfold dot, not_char in Hc. apply negb_true_iff in Hc.
      apply Z.eqb_neq in Hc. split; [|exact Hc].
      destruct (c =? c_star)%Z eqn:E; [discriminate|].
      now apply Z.eqb_neq in E. }
  destruct H1 as [H1 L1], H2 as [H2 _], H3 as [H3 L3].
  apply Forall_eq_repeat in H1, H3.
  destruct (length m1) as [|k1]; [lia|].
  destruct (length m3) as [|k2]; [lia|].
  exists k1, m2, k2. rewrite H1, H3 at 1. auto.
Qed.

Lemma emphasis_span_chars (m : text) :
  emphasis_span m -> m <> [] /\ In c_star m /\ ~ In c_nl m.
Proof.
  intros (k1 & int & k2 & -> & Hint). split; [discriminate|].
  split; [now left|].
  rewrite !in_app_iff. intros [H|[H|H]].
  - apply repeat_spec in H. discriminate.
  - rewrite Forall_forall in Hint. apply Hint in H. tauto.
  - apply repeat_spec in H. discriminate.
Qed.

(** ** The emphasis pattern, step by step *)

Lemma rep_greedy_final (p : char -> bool) (lo : nat) (s : text) :
  forall fuel cnt pre, length s < fuel ->
    rep_loop (rmatch (Chr p)) lo None true final fuel cnt pre s
    = if lo <=? cnt + length (take_while p s)
      then Some (drop_while p s) else None.
Proof.
  induction s as [|c s IH]; intros fuel cnt pre Hf;
    (destruct fuel as [|fuel]; [inversion Hf|]); cbn [rep_loop below].
  - simpl. rewrite Nat.add_0_r.
    destruct (cnt <? lo) eqn:E.
    + apply Nat.ltb_lt in E.
      replace (lo <=? cnt) with false by (symmetry; apply Nat.leb_gt; lia).
      reflexivity.
    + apply Nat.ltb_ge in E.
      replace (lo <=? cnt) with true by (symmetry; apply Nat.leb_le; lia).
      reflexivity.
  - cbn [rmatch take_while drop_while]. destruct (p c) eqn:Ep.
    + replace (length s <? length (c :: s)) with true
        by (symmetry; apply Nat.ltb_lt; simpl; lia).
      rewrite IH by (simpl in Hf; lia).
      cbn [length Nat.add]. rewrite <- plus_n_Sm.
      destruct (lo <=? S (cnt + length (take_while p s))) eqn:E.
      * now destruct (cnt <? lo).
      * apply Nat.leb_gt in E.
        replace (cnt <? lo) with true by (symmetry; apply Nat.ltb_lt; lia).
        reflexivity.
    + simpl. rewrite Nat.add_0_r.
      destruct (cnt <? lo) eqn:E.
      * apply Nat.ltb_lt in E.
        replace (lo <=? cnt) with false
          by (symmetry; apply Nat.leb_gt; lia).
        reflexivity.
      * apply Nat.ltb_ge in E.
        replace (lo <=? cnt) with true
          by (symmetry; apply Nat.leb_le; lia).
        reflexivity.
Qed.

Lemma rmatch_rep (lo : nat) hi g (r1 : regex) (pre s : text) (k : cont) :
  rmatch (Rep lo hi g r1) pre s k
  = rep_loop (rmatch r1) lo hi g k (S (length s)) 0 pre s.
Proof. reflexivity. Qed.

Lemma rmatch_seq (r1 r2 : regex) (pre s : text) (k : cont) :
  rmatch (Seq r1 r2) pre s k
  = rmatch r1 pre s (fun pre' s' => rmatch r2 pre' s' k).
Proof. reflexivity. Qed.

Lemma rmatch_chr_cons (p : char -> bool) (pre : text) c s (k : cont) :
  rmatch (Chr p) pre (c :: s) k = if p c then k (c :: pre) s else None.
Proof. reflexivity. Qed.

Lemma rmatch_chr_nil (p : char -> bool) (pre : text) (k : cont) :
  rmatch (Chr p) pre [] k = None.
Proof. reflexivity. Qed.

Lemma rmatch_notahead (r1 : regex) (pre s : text) (k : cont) :
  rmatch (NotAhead r1) pre s k
  = match rmatch r1 pre s final with Some _ => None | None => k pre s end.
Proof. reflexivity. Qed.

Lemma rep_loop_S (step : text -> text -> cont -> option text)
    (lo : nat) hi g (k : cont) (fuel cnt : nat) (pre s : text) :
  rep_loop step lo hi g k (S fuel) cnt pre s
  = if cnt <? lo then
      (if below cnt hi then
         step pre s (fun pre' s' =>
           if length s' <? length s
           then rep_loop step lo hi g k fuel (S cnt) pre' s' else None)
       else None)
    else if g then
      orelse
        (if below cnt hi then
           step pre s (fun pre' s' =>
             if length s' <? length s
             then rep_loop step lo hi g k fuel (S cnt) pre' s' else None)
         else None)
        (k pre s)
    else
      orelse (k pre s)
        (if below cnt hi then
           step pre s (fun pre' s' =>
             if length s' <? length s
             then rep_loop step lo hi g k fuel (S cnt) pre' s' else None)
         else None).
Proof. reflexivity. Qed.

Lemma length_tail_ltb (c : char) (s : text) :
  (length s <? length (c :: s)) = true.
Proof. apply Nat.ltb_lt. simpl. lia. Qed.

Lemma closing_run (pre s : text) :
  rmatch (Rep 1 None true (Chr (is_char c_star))) pre s final
  = match s with
    | c :: _ => if (c =? c_star)%Z
                then Some (drop_while (is_char c_star) s) else None
    | [] => None
    end.
Proof.
  rewrite rmatch_rep, rep_greedy_final by lia.
  destruct s as [|c s]; [reflexivity|]. simpl. unfold is_char.
  now destruct (c =? c_star)%Z.
Qed.

Lemma lazy_interior (s : text) : forall fuel cnt pre, length s < fuel ->
  rep_loop
    (rmatch (Seq (NotAhead (Chr (is_char c_star))) (Chr dot)))
    0 None false
    (fun pre' s' =>
       rmatch (Rep 1 None true (Chr (is_char c_star))) pre' s' final)
    fuel cnt pre s
  = close_span s.
Proof.
  induction s as [|c s IH]; intros fuel cnt pre Hf;
    (destruct fuel as [|fuel]; [inversion Hf|]);
    rewrite rep_loop_S, closing_run;
    replace (cnt <? 0) with false by (symmetry; apply Nat.ltb_ge; lia);
    cbn [below orelse]; rewrite rmatch_seq, rmatch_notahead.
  - reflexivity.
  - cbn [close_span]. rewrite !rmatch_chr_cons.
    unfold is_char, dot, not_char.
    destruct (c =? c_star)%Z eqn:Es; [reflexivity|]. cbn [orelse].
    destruct (c =? c_nl)%Z; [reflexivity|]. cbn [negb].
    rewrite length_tail_ltb. apply IH. simpl in Hf. lia.
Qed.

Lemma opening_run (s : text) : forall fuel cnt pre, length s < fuel ->
  rep_loop (rmatch (Chr (is_char c_star))) 1 None true
    (fun pre' s' =>
       rmatch
         (Seq (Rep 0 None false
                 (Seq (NotAhead (Chr (is_char c_star))) (Chr dot)))
              (Rep 1 None true (Chr (is_char c_star))))
         pre' s' final)
    fuel cnt pre s
  = open_span cnt s.
Proof.
  assert (HK : forall pre' s',
    rmatch
      (Seq (Rep 0 None false
              (Seq (NotAhead (Chr (is_char c_star))) (Chr dot)))
           (Rep 1 None true (Chr (is_char c_star))))
      pre' s' final
    = close_span s').
  { intros pre' s'. rewrite rmatch_seq, rmatch_rep.
    apply lazy_interior. lia. }
  induction s as [|c s IH]; intros fuel cnt pre Hf;
    (destruct fuel as [|fuel]; [inversion Hf|]);
    rewrite rep_loop_S, HK; cbn [below open_span].
  - rewrite rmatch_chr_nil. now destruct (cnt <? 1).
  - rewrite rmatch_chr_cons. change (is_char c_star c) with (c =? c_star)%Z.
    destruct (c =? c_star)%Z eqn:Es.
    + rewrite length_tail_ltb, IH by (simpl in Hf; lia).
      destruct (cnt <? 1); [|reflexivity].
      now destruct (open_span (S cnt) s).
    + now destruct (cnt <? 1).
Qed.

Lemma match_at_asterisks (pre s : text) :
  match_at re_asterisks pre s = open_span 0 s.
Proof.
  unfold match_at, re_asterisks. rewrite rmatch_seq, rmatch_rep.
  apply opening_run. lia.
Qed.

(** ** Scanning a text piece by piece *)

Lemma scan_go_shift (r : regex) (s : text) : forall skip pre,
  skip <= length s ->
  scan_go r skip pre s
  = scan_go r 0 (rev (firstn skip s) ++ pre) (skipn skip s).
Proof.
  induction s as [|c s IH]; intros skip pre Hs.
  - simpl in Hs. replace skip with 0 by lia. reflexivity.
  - destruct skip as [|n]; [reflexivity|].
    cbn [scan_go firstn skipn rev]. rewrite IH by (simpl in Hs; lia).
    now rewrite <- app_assoc.
Qed.

Lemma scan_go_app_keep (r : regex) (y : text) (x : text) : forall pre,
  (forall x1 c x2, x = x1 ++ c :: x2 ->
     match_at r (rev x1 ++ pre) (c :: x2 ++ y) = None) ->
  scan_go r 0 pre (x ++ y) = map Keep x ++ scan_go r 0 (rev x ++ pre) y.
Proof.
  induction x as [|c x IH]; intros pre H; [reflexivity|].
  cbn [app scan_go]. pose proof (H [] c x eq_refl) as H0.
  cbn [rev app] in H0. rewrite H0.
  cbn [map app rev]. f_equal. rewrite <- app_assoc. apply IH.
  intros x1 c' x2 ->. specialize (H (c :: x1) c' x2 eq_refl).
  cbn [rev] in H. now rewrite <- app_assoc in H.
Qed.

Lemma scan_go_app_hit (r : regex) (pre m y : text) :
  m <> [] -> match_at r pre (m ++ y) = Some y ->
  scan_go r 0 pre (m ++ y) = Hit m :: scan_go r 0 (rev m ++ pre) y.
Proof.
  intros Hne E. destruct m as [|c m]; [now contradiction Hne|].
  cbn [app scan_go]. change (c :: m ++ y) with ((c :: m) ++ y) in *.
  rewrite E. cbv zeta.
  assert (En : length ((c :: m) ++ y) - length y = S (length m))
    by (rewrite length_app; cbn [length]; lia).
  rewrite En. f_equal.
  - change (S (length m)) with (length (c :: m)).
    rewrite firstn_app, Nat.sub_diag, firstn_all. simpl. now rewrite app_nil_r.
  - rewrite scan_go_shift by (rewrite length_app; lia).
    rewrite firstn_app, Nat.sub_diag, firstn_all.
    rewrite skipn_app, Nat.sub_diag, skipn_all. cbn [firstn skipn app rev].
    now rewrite app_nil_r, <- app_assoc.
Qed.

Lemma flat_map_keep (repl x : text) :
  flat_map (keep_out repl) (map Keep x) = x.
Proof. induction x as [|c x IH]; simpl; [reflexivity|now rewrite IH]. Qed.

(** ** [filter_asterisks]: which spans go *)

Lemma scan_go_asterisks_pre (s : text) : forall skip pre pre',
  scan_go re_asterisks skip pre s = scan_go re_asterisks skip pre' s.
Proof.
  induction s as [|c s IH]; intros skip pre pre'; cbn [scan_go].
  - now rewrite !match_at_asterisks.
  - destruct skip as [|n]; [|apply IH].
    rewrite !match_at_asterisks.
    destruct (open_span 0 (c :: s)); cbv zeta.
    + destruct (length (c :: s) - length t);
        now rewrite (IH _ (c :: pre) (c :: pre')).
    + now rewrite (IH _ (c :: pre) (c :: pre')).
Qed.

Lemma sub_asterisks_scan (pre s : text) :
  flat_map (keep_out []) (scan_go re_asterisks 0 pre s)
  = sub re_asterisks [] s.
Proof. unfold sub, scan. now rewrite (scan_go_asterisks_pre s 0 pre []). Qed.

Lemma open_span_no_star (cnt : nat) (s : text) :
  (forall s', s <> c_star :: s') -> open_span 0 s = None.
Proof.
  intros H. destruct s as [|c s]; [reflexivity|]. simpl.
  destruct (c =? c_star)%Z eqn:E; [|reflexivity].
  apply Z.eqb_eq in E. subst c. now contradiction (H s).
Qed.

Lemma sub_asterisks_keep (a y : text) :
  ~ In c_star a ->
  sub re_asterisks [] (a ++ y) = a ++ sub re_asterisks [] y.
Proof.
  intros Ha. unfold sub at 1, scan. rewrite scan_go_app_keep.
  - now rewrite flat_map_app, flat_map_keep, sub_asterisks_scan.
  - intros x1 c x2 ->. rewrite match_at_asterisks.
    apply (open_span_no_star 0). intros s' E. injection E as -> _.
    apply Ha. rewrite in_app_iff. right. now left.
Qed.

Lemma sub_asterisks_hit (m y : text) :
  m <> [] -> open_span 0 (m ++ y) = Some y ->
  sub re_asterisks [] (m ++ y) = sub re_asterisks [] y.
Proof.
  intros Hne E. unfold sub at 1, scan. rewrite scan_go_app_hit; auto.
  - cbn [flat_map keep_out app]. apply sub_asterisks_scan.
  - now rewrite match_at_asterisks.
Qed.

Lemma drop_while_stars (n : nat) (b : text) :
  (forall b', b <> c_star :: b') ->
  drop_while (is_char c_star) (repeat c_star n ++ b) = b.
Proof.
  intros Hb. induction n as [|n IH]; simpl.
  - destruct b as [|c b]; [reflexivity|]. simpl. unfold is_char.
    destruct (c =? c_star)%Z eqn:E; [|reflexivity].
    apply Z.eqb_eq in E. subst c. now contradiction (Hb b).
  - exact IH.
Qed.

Lemma close_span_closes (int : text) (k2 : nat) (b : text) :
  Forall (fun c => c <> c_star /\ c <> c_nl) int ->
  (forall b', b <> c_star :: b') ->
  close_span (int ++ repeat c_star (S k2) ++ b) = Some b.
Proof.
  intros Hint Hb. induction Hint as [|c int [Hs Hn] _ IH].
  - cbn [app close_span repeat]. rewrite Z.eqb_refl.
    change (c_star :: repeat c_star k2 ++ b)
      with (repeat c_star (S k2) ++ b).
    now rewrite (drop_while_stars (S k2) Hb).
  - cbn [app close_span]. apply Z.eqb_neq in Hs, Hn. now rewrite Hs, Hn.
Qed.

Lemma close_span_none (b z : text) :
  ~ In c_star b -> (z = [] \/ exists z', z = c_nl :: z') ->
  close_span (b ++ z) = None.
Proof.
  intros Hb Hz. induction b as [|c b IH].
  - destruct Hz as [->|[z' ->]]; reflexivity.
  - cbn [app close_span].
    assert (Hc : c <> c_star) by (intros ->; apply Hb; now left).
    apply Z.eqb_neq in Hc. rewrite Hc.
    destruct (c =? c_nl)%Z; [reflexivity|].
    apply IH. intros H. apply Hb. now right.
Qed.

Lemma open_span_run (n : nat) (s1 : text) : forall cnt,
  (forall s', s1 <> c_star :: s') ->
  open_span cnt (repeat c_star n ++ s1)
  = match (if 1 <=? cnt + n then close_span s1 else None) with
    | Some x => Some x
    | None => if (1 <=? n) && (2 <=? cnt + n) then Some s1 else None
    end.
Proof.
  intros cnt Hs1. revert cnt. induction n as [|n IH]; intros cnt.
  - cbn [repeat app]. rewrite Nat.add_0_r. cbn [Nat.leb andb].
    destruct s1 as [|c s1].
    + simpl. now destruct cnt.
    + cbn [open_span].
      destruct (c =? c_star)%Z eqn:E.
      { apply Z.eqb_eq in E. subst c. now contradiction (Hs1 s1). }
      destruct cnt as [|cnt]; [reflexivity|].
      cbn [Nat.ltb Nat.leb]. now destruct (close_span (c :: s1)).
  - cbn [repeat app open_span]. rewrite Z.eqb_refl, IH.
    replace (1 <=? S cnt + n) with true
      by (symmetry; apply Nat.leb_le; lia).
    replace (1 <=? cnt + S n) with true
      by (symmetry; apply Nat.leb_le; lia).
    destruct (close_span s1) as [x|]; [reflexivity|].
    assert (Hc : close_span (c_star :: repeat c_star n ++ s1) = Some s1).
    { cbn [close_span]. rewrite Z.eqb_refl.
      change (c_star :: repeat c_star n ++ s1)
        with (repeat c_star (S n) ++ s1).
      now rewrite (drop_while_stars (S n) Hs1). }
    rewrite Hc.
    destruct n as [|n].
    + destruct cnt as [|cnt]; [reflexivity|].
      replace (S cnt + 1) with (S (S cnt)) by lia. reflexivity.
    + replace ((1 <=? S n) && (2 <=? S cnt + S n)) with true
        by (symmetry; apply andb_true_iff; split; apply Nat.leb_le; lia).
      replace ((1 <=? S (S n)) && (2 <=? cnt + S (S n))) with true
        by (symmetry; apply andb_true_iff; split; apply Nat.leb_le; lia).
      reflexivity.
Qed.

Lemma sub_asterisks_lone (b z : text) :
  ~ In c_star b -> (z = [] \/ exists z', z = c_nl :: z') ->
  sub re_asterisks [] (c_star :: b ++ z)
  = c_star :: b ++ sub re_asterisks [] z.
Proof.
  intros Hb Hz.
  assert (Hs1 : forall s', b ++ z <> c_star :: s').
  { intros s' E. destruct b as [|c b].
    - destruct Hz as [->|[z' ->]]; discriminate.
    - injection E as -> _. apply Hb. now left. }
  change (c_star :: b ++ z) with ([c_star] ++ b ++ z).
  unfold sub at 1, scan. rewrite scan_go_app_keep.
  - rewrite flat_map_app, flat_map_keep, sub_asterisks_scan.
    now rewrite sub_asterisks_keep.
  - intros x1 c x2 E. destruct x1 as [|c' x1].
    + injection E as <- <-. rewrite match_at_asterisks.
      change (c_star :: [] ++ b ++ z) with (repeat c_star 1 ++ b ++ z).
      rewrite (open_span_run 1 0 Hs1). cbn [Nat.add Nat.leb andb].
      now rewrite close_span_none.
    + injection E as _ E. now destruct x1.
Qed.


(** C8 (as the code has it): [filter_asterisks] removes emphasis spans and
    then cleans the spaces.  What the scan removes are spans of one or
    more asterisks, an interior with neither asterisk nor newline, and one
    or more asterisks, and everything else stays in place; such a span
    with a non-empty interior, met after text without asterisks, is
    removed whole; a single asterisk without a partner stays; on
    ["**bold** and *italic* text"] the result is ["and text"]. *)
Theorem filter_asterisks_removes_spans :
  (forall t, filter_asterisks t = clean_spaces (sub re_asterisks [] t))
  /\ (forall t,
        concat (map seg_text (scan re_asterisks t)) = t
        /\ sub re_asterisks [] t
           = flat_map (keep_out []) (scan re_asterisks t)
        /\ (forall m, In m (hits (scan re_asterisks t)) -> emphasis_span m))
  /\ (forall a k1 int k2 b,
        ~ In c_star a -> int <> [] ->
        Forall (fun c => c <> c_star /\ c <> c_nl) int ->
        (forall b', b <> c_star :: b') ->
        sub re_asterisks []
          (a ++ repeat c_star (S k1) ++ int ++ repeat c_star (S k2) ++ b)
        = a ++ sub re_asterisks [] b)
  /\ (forall a b, ~ In c_star a -> ~ In c_star b ->
        sub re_asterisks [] (a ++ c_star :: b) = a ++ c_star :: b)
  /\ filter_asterisks (of_string "**bold** and *italic* text")
     = of_string "and text".
Proof.
  split; [reflexivity|].
  split.
  { intros t. split; [apply (scan_go_text re_asterisks t 0 [])|].
    split; [reflexivity|].
    intros m Hm. apply hits_in in Hm. apply scan_go_hit in Hm.
    destruct Hm as (pre' & post & Hl). now apply lang_asterisks in Hl. }
  split.
  { intros a k1 int k2 b Ha Hne Hint Hb.
    rewrite sub_asterisks_keep by exact Ha. f_equal.
    rewrite !app_assoc. rewrite <- (app_assoc _ int).
    apply sub_asterisks_hit; [discriminate|].
    rewrite <- !app_assoc.
    assert (Hs1 : forall s', int ++ repeat c_star (S k2) ++ b <> c_star :: s').
    { intros s' E. destruct int as [|c int]; [now contradiction Hne|].
      injection E as -> _. inversion Hint as [|? ? [Hc _] _]. now apply Hc. }
    rewrite (open_span_run (S k1) 0 Hs1). cbn [Nat.add Nat.leb].
    now rewrite close_span_closes. }
  split.
  { intros a b Ha Hb. rewrite sub_asterisks_keep by exact Ha. f_equal.
    rewrite <- (app_nil_r b) at 1.
    rewrite sub_asterisks_lone by auto.
    change (sub re_asterisks [] []) with (@nil char).
    now rewrite app_nil_r. }
  reflexivity.
Qed.

Lemma filter_asterisks_removes_spans_witness :
  ~ In c_star (of_string "a ") /\ of_string "bc" <> []
  /\ Forall (fun c => c <> c_star /\ c <> c_nl) (of_string "bc")
  /\ (forall b', of_string " d" <> c_star :: b')
  /\ sub re_asterisks []
       (of_string "a " ++ repeat c_star 2 ++ of_string "bc"
          ++ repeat c_star 1 ++ of_string " d")
     = of_string "a " ++ sub re_asterisks [] (of_string " d").
Proof.
  assert (H1 : ~ In c_star (of_string "a ")).
  { simpl. intros [H|[H|[]]]; discriminate. }
  assert (H2 : of_string "bc" <> []) by discriminate.
  assert (H3 : Forall (fun c => c <> c_star /\ c <> c_nl) (of_string "bc")).
  { repeat constructor; discriminate. }
  assert (H4 : forall b', of_string " d" <> c_star :: b') by discriminate.
  repeat (split; [assumption|]).
  exact (proj1 (proj2 (proj2 filter_asterisks_removes_spans))
           (of_string "a ") 1 (of_string "bc") 0 (of_string " d")
           H1 H2 H3 H4).
Defined.

(** C8, as the claim states it: a span bounded by asterisks whose interior
    has no asterisk is not removed when the interior holds a newline. *)
Lemma filter_asterisks_span_with_newline_stays :
  let int := of_string "a" ++ [c_nl] ++ of_string "b" in
  ~ In c_star int
  /\ sub re_asterisks [] ([c_star] ++ int ++ [c_star])
     = [c_star] ++ int ++ [c_star]
  /\ filter_asterisks ([c_star] ++ int ++ [c_star]) = of_string "*a b*".
Proof.
  intros int. split.
  - simpl. intros [H|[H|[H|[]]]]; discriminate.
  - split; reflexivity.
Qed.




(** ** Placeholders and [str.replace] *)

Lemma prefix_b_spec (p s : text) :
  prefix_b p s = true <-> exists s', s = p ++ s'.
Proof.
  revert s. induction p as [|a p IH]; intros s; simpl.
  - split; eauto.
  - destruct s as [|b s].
    + split; [discriminate|]. intros [s' H]. discriminate.
    + rewrite andb_true_iff, Z.eqb_eq, IH. split.
      * intros [-> [s' ->]]. eauto.
      * intros [s' H]. injection H as -> ->. eauto.
Qed.

Lemma prefix_b_false (p s : text) :
  (forall s', s <> p ++ s') -> prefix_b p s = false.
Proof.
  intros H. destruct (prefix_b p s) eqn:E; [|reflexivity].
  apply prefix_b_spec in E. destruct E as [s' ->]. now contradiction (H s').
Qed.

Lemma replace_go_skip (old new : text) (s : text) : forall skip,
  skip <= length s ->
  replace_go old new skip s = replace_go old new 0 (skipn skip s).
Proof.
  induction s as [|c s IH]; intros skip Hs.
  - simpl in Hs. now replace skip with 0 by lia.
  - destruct skip as [|n]; [reflexivity|].
    cbn [replace_go skipn]. apply IH. simpl in Hs. lia.
Qed.

Lemma replace_go_hit (old new rest : text) :
  old <> [] ->
  replace_go old new 0 (old ++ rest) = new ++ replace_go old new 0 rest.
Proof.
  intros Hne. destruct old as [|c old]; [now contradiction Hne|].
  cbn [app replace_go].
  change (c :: old ++ rest) with ((c :: old) ++ rest).
  replace (prefix_b (c :: old) ((c :: old) ++ rest)) with true
    by (symmetry; apply prefix_b_spec; eauto).
  f_equal. replace (length (c :: old) - 1) with (length old)
    by (cbn [length]; lia).
  rewrite replace_go_skip by (rewrite length_app; lia).
  now rewrite skipn_app, Nat.sub_diag, skipn_all.
Qed.

Lemma replace_go_keep (old new : text) (c : char) (s : text) :
  prefix_b old (c :: s) = false ->
  replace_go old new 0 (c :: s) = c :: replace_go old new 0 s.
Proof. intros H. cbn [replace_go]. now rewrite H. Qed.

Lemma uint_text_digits (u : Decimal.uint) : Forall is_digit (uint_text u).
Proof.
  induction u; simpl; constructor; auto; unfold is_digit; lia.
Qed.

Lemma uint_text_inj (u u' : Decimal.uint) :
  uint_text u = uint_text u' -> u = u'.
Proof.
  revert u'. induction u; intros u' H; destruct u'; simpl in H;
    try discriminate; try reflexivity;
    injection H as H; f_equal; auto.
Qed.

Lemma str_of_nat_inj (n n' : nat) : str_of_nat n = str_of_nat n' -> n = n'.
Proof.
  unfold str_of_nat. intros H. apply uint_text_inj in H.
  now apply DecimalNat.Unsigned.to_uint_inj.
Qed.

Lemma ph_head_eq :
  of_string "__LIVE2D_PROTECT_"
  = [95; 95; 76; 73; 86; 69; 50; 68; 95; 80; 82; 79; 84; 69; 67; 84; 95]%Z.
Proof. reflexivity. Qed.

Lemma placeholder_eq (n : nat) :
  placeholder n
  = [95; 95; 76; 73; 86; 69; 50; 68; 95; 80; 82; 79; 84; 69; 67; 84; 95]%Z
      ++ str_of_nat n ++ [95; 95]%Z.
Proof. reflexivity. Qed.

Lemma placeholder_app (n : nat) (y : text) :
  placeholder n ++ y
  = (95 :: 95 :: 76 :: 73 :: 86 :: 69 :: 50 :: 68 :: 95 :: 80 :: 82 :: 79
       :: 84 :: 69 :: 67 :: 84 :: 95 :: str_of_nat n ++ 95 :: 95 :: y)%Z.
Proof.
  rewrite placeholder_eq. rewrite <- !app_assoc. reflexivity.
Qed.

Lemma placeholder_not_nil (n : nat) : placeholder n <> [].
Proof. rewrite placeholder_eq. discriminate. Qed.

Lemma replace_placeholder (n : nat) (m s : text) :
  replace (placeholder n) m s = replace_go (placeholder n) m 0 s.
Proof. unfold replace. rewrite placeholder_eq. reflexivity. Qed.

Lemma prefix_ph_head (j : nat) (c : char) (s : text) :
  c <> c_underscore -> prefix_b (placeholder j) (c :: s) = false.
Proof.
  intros Hc. apply prefix_b_false. intros s' E.
  rewrite placeholder_app in E. injection E as E _. now apply Hc.
Qed.

Lemma prefix_ph_second (j : nat) (c : char) (s : text) :
  c <> c_underscore ->
  prefix_b (placeholder j) (c_underscore :: c :: s) = false.
Proof.
  intros Hc. apply prefix_b_false. intros s' E.
  rewrite placeholder_app in E. injection E as E _. now apply Hc.
Qed.

Lemma prefix_ph_third (j : nat) (c : char) (s : text) :
  c <> 76%Z ->
  prefix_b (placeholder j) (c_underscore :: c_underscore :: c :: s) = false.
Proof.
  intros Hc. apply prefix_b_false. intros s' E.
  rewrite placeholder_app in E. injection E as E _. now apply Hc.
Qed.

Lemma prefix_ph_before_digits (j : nat) (ds y : text) :
  Forall is_digit ds ->
  prefix_b (placeholder j)
    (c_underscore :: ds ++ c_underscore :: c_underscore :: y) = false.
Proof.
  intros Hd. destruct Hd as [|d ds Hd _]; cbn [app].
  - apply prefix_ph_third. discriminate.
  - apply prefix_ph_second. unfold is_digit in Hd. unfold c_underscore. lia.
Qed.

Lemma digits_app_inj (ds ds' a b : text) :
  Forall is_digit ds -> Forall is_digit ds' ->
  ds ++ c_underscore :: a = ds' ++ c_underscore :: b -> ds = ds'.
Proof.
  intros Hd. revert ds'. induction Hd as [|d ds Hd _ IH]; intros ds' Hd' E.
  - destruct Hd' as [|d' ds' Hd' _]; [reflexivity|].
    injection E as E _. unfold is_digit, c_underscore in *. lia.
  - destruct Hd' as [|d' ds' Hd' Hds'].
    + injection E as E _. unfold is_digit, c_underscore in *. lia.
    + injection E as -> E. f_equal. now apply IH.
Qed.

Lemma str_of_nat_digits (n : nat) : Forall is_digit (str_of_nat n).
Proof. apply uint_text_digits. Qed.

Lemma placeholder_inj (i j : nat) : placeholder i = placeholder j -> i = j.
Proof.
  intros E. rewrite !placeholder_eq in E. apply app_inv_head in E.
  apply digits_app_inj in E; auto using str_of_nat_digits.
  now apply str_of_nat_inj.
Qed.

Lemma prefix_ph_other (i j : nat) (y : text) :
  i <> j -> prefix_b (placeholder j) (placeholder i ++ y) = false.
Proof.
  intros Hij. apply prefix_b_false. intros s' E.
  rewrite !placeholder_app in E. injection E as E.
  apply digits_app_inj in E; auto using str_of_nat_digits.
  apply str_of_nat_inj in E. now apply Hij.
Qed.

Lemma replace_copy_free (j : nat) (m u y : text) :
  ~ In c_underscore u ->
  replace_go (placeholder j) m 0 (u ++ y)
  = u ++ replace_go (placeholder j) m 0 y.
Proof.
  induction u as [|c u IH]; intros Hu; [reflexivity|].
  cbn [app]. rewrite replace_go_keep.
  - f_equal. apply IH. intros H. apply Hu. now right.
  - apply prefix_ph_head. intros ->. apply Hu. now left.
Qed.

Lemma render_app (a b : list item) : render (a ++ b) = render a ++ render b.
Proof. apply flat_map_app. Qed.

Lemma render_lits (m : text) : render (map Lit m) = m.
Proof. induction m as [|c m IH]; simpl; [reflexivity|]. now f_equal. Qed.

Lemma subst_all_lits (ps : list (nat * text)) (m : text) :
  subst_all ps (map Lit m) = map Lit m.
Proof. induction m as [|c m IH]; simpl; [reflexivity|]. now f_equal. Qed.

Lemma subst_all_app (ps : list (nat * text)) (a b : list item) :
  subst_all ps (a ++ b) = subst_all ps a ++ subst_all ps b.
Proof. apply flat_map_app. Qed.

Lemma subst_all_cons (j : nat) (m : text) (ps : list (nat * text))
    (its : list item) :
  subst_all ps (subst j m its) = subst_all ((j, m) :: ps) its.
Proof.
  induction its as [|[c|i] its IH].
  - reflexivity.
  - cbn [subst flat_map subst_item app]. fold (subst j m its).
    cbn [subst_all flat_map subst_all_item app].
    fold (subst_all ps (subst j m its)). fold (subst_all ((j, m) :: ps) its).
    now rewrite IH.
  - cbn [subst flat_map subst_item]. fold (subst j m its).
    rewrite subst_all_app, IH.
    cbn [subst_all flat_map subst_all_item lookup].
    fold (subst_all ((j, m) :: ps) its). f_equal.
    destruct (i =? j); [apply subst_all_lits|].
    cbn [subst_all flat_map subst_all_item]. apply app_nil_r.
Qed.

Lemma subst_all_nil (its : list item) : subst_all [] its = its.
Proof.
  induction its as [|[c|i] its IH]; simpl; [reflexivity| |]; now f_equal.
Qed.

(** ** The protect step *)

Lemma protect_segs (segs : list seg) : forall pats c,
  sub_segs protect_live2d (pats, c) segs
  = ((pats ++ map numbered
                 (combine (seq c (length (hits segs))) (hits segs)),
      c + length (hits segs)),
     render (items_of c segs)).
Proof.
  induction segs as [|[x|m] segs IH]; intros pats c.
  - simpl. now rewrite app_nil_r, Nat.add_0_r.
  - cbn [sub_segs hits items_of]. rewrite IH. reflexivity.
  - cbn [sub_segs hits items_of protect_live2d]. rewrite IH.
    cbn [length seq combine map numbered fst snd render flat_map
         render_item].
    fold (render (items_of (S c) segs)).
    rewrite <- app_assoc. cbn [app].
    now rewrite <- plus_n_Sm.
Qed.

Lemma protect_eq (t : text) :
  protect t
  = ((map numbered
        (combine (seq 0 (length (protected_spans t))) (protected_spans t)),
      length (protected_spans t)),
     render (items_of 0 (scan re_live2d t))).
Proof. unfold protect, sub_with, protected_spans. apply protect_segs. Qed.

Lemma items_of_ph_ge (segs : list seg) : forall c i,
  In (Ph i) (items_of c segs) -> c <= i.
Proof.
  induction segs as [|[x|m] segs IH]; intros c i H; simpl in H.
  - contradiction.
  - destruct H as [H|H]; [discriminate|]. now apply IH.
  - destruct H as [H|H]; [injection H as ->; lia|].
    apply IH in H. lia.
Qed.

Lemma subst_all_ext (ps ps' : list (nat * text)) (its : list item) :
  (forall i, In (Ph i) its -> lookup i ps = lookup i ps') ->
  subst_all ps its = subst_all ps' its.
Proof.
  induction its as [|[c|i] its IH]; intros H.
  - reflexivity.
  - cbn [subst_all flat_map subst_all_item app]. f_equal.
    apply IH. intros i Hi. apply H. now right.
  - cbn [subst_all flat_map subst_all_item].
    rewrite (H i) by now left. f_equal.
    apply IH. intros i' Hi. apply H. now right.
Qed.

Lemma subst_all_items_of (segs : list seg) : forall c,
  subst_all (combine (seq c (length (hits segs))) (hits segs))
            (items_of c segs)
  = map Lit (concat (map seg_text segs)).
Proof.
  induction segs as [|[x|m] segs IH]; intros c.
  - reflexivity.
  - cbn [hits items_of map concat seg_text app subst_all flat_map
         subst_all_item].
    f_equal. apply IH.
  - cbn [hits items_of map concat seg_text length seq combine].
    cbn [subst_all flat_map subst_all_item lookup]. rewrite Nat.eqb_refl.
    rewrite map_app. f_equal.
    fold (subst_all ((c, m) :: combine (seq (S c) (length (hits segs)))
                                      (hits segs))
                    (items_of (S c) segs)).
    rewrite <- (IH (S c)). apply subst_all_ext.
    intros i Hi. apply items_of_ph_ge in Hi. cbn [lookup].
    replace (i =? c) with false by (symmetry; apply Nat.eqb_neq; lia).
    reflexivity.
Qed.

Lemma hit_chars (segs : list seg) (m : text) (x : char) :
  In (Hit m) segs -> In x m -> In x (concat (map seg_text segs)).
Proof.
  intros Hm Hx. apply in_concat. exists m. split; [|exact Hx].
  apply in_map_iff. exists (Hit m). auto.
Qed.

Lemma scan_text (r : regex) (t : text) :
  concat (map seg_text (scan r t)) = t.
Proof. apply (scan_go_text r t 0 []). Qed.

Lemma scan_hit_chars (r : regex) (t m : text) (x : char) :
  In m (hits (scan r t)) -> In x m -> In x t.
Proof.
  intros Hm Hx. apply hits_in in Hm.
  pose proof (hit_chars _ _ x Hm Hx) as H. now rewrite scan_text in H.
Qed.

Lemma combine_fst_snd {A B : Type} (a : list A) : forall b : list B,
  length a = length b ->
  map fst (combine a b) = a /\ map snd (combine a b) = b.
Proof.
  induction a as [|x a IH]; intros [|y b] H; simpl in *;
    try discriminate; auto.
  injection H as H. destruct (IH b H) as [-> ->]. auto.
Qed.

Lemma NoDup_map_injective {A B : Type} (f : A -> B) (l : list A) :
  (forall x y, f x = f y -> x = y) -> NoDup l -> NoDup (map f l).
Proof.
  intros Hf H. induction H as [|x l Hx _ IH]; simpl; constructor; auto.
  intros Hin. apply in_map_iff in Hin. destruct Hin as (y & Hy & Hin).
  apply Hf in Hy. now subst y.
Qed.

Lemma not_in_b (x : char) (t : text) :
  existsb (Z.eqb x) t = false -> ~ In x t.
Proof.
  intros H Hin. assert (existsb (Z.eqb x) t = true); [|congruence].
  apply existsb_exists. exists x. split; [exact Hin|apply Z.eqb_refl].
Qed.

Lemma protect_patterns (t : text) :
  map fst (fst (fst (protect t)))
  = map placeholder (seq 0 (length (protected_spans t)))
  /\ map snd (fst (fst (protect t))) = protected_spans t.
Proof.
  rewrite protect_eq. cbn [fst snd].
  destruct (@combine_fst_snd nat text
              (seq 0 (length (protected_spans t))) (protected_spans t))
    as [H1 H2]; [apply length_seq|].
  rewrite !map_map. cbn [numbered fst snd].
  split; [|exact H2].
  rewrite <- H1 at 2. now rewrite map_map.
Qed.

(** C4, as the claim states it: a placeholder can be literal text of the
    input, and then the restore step rewrites that text too. *)
Lemma placeholder_collides_with_input :
  let t := of_string "__LIVE2D_PROTECT_0__[x]" in
  In (placeholder 0) (map fst (fst (fst (protect t))))
  /\ occurs_in (placeholder 0) t
  /\ restore (fst (fst (protect t))) (snd (protect t)) = of_string "[x][x]"
  /\ filter_special_formatting t = of_string "[x][x]".
Proof.
  intros t. split; [now left|]. split.
  - exists [], (of_string "[x]"). reflexivity.
  - split; reflexivity.
Qed.

(** ** The other patterns of [filter_special_formatting] *)

Lemma lang_lone_asterisk (pre m post : text) :
  lang re_lone_asterisk pre m post -> m = [c_star].
Proof.
  intros (m1 & m23 & -> & [-> _] & m2 & m3 & -> & (c & -> & Hc) & [-> _]).
  apply Z.eqb_eq in Hc. now subst c.
Qed.

Lemma lang_header (pre m post : text) :
  lang re_header pre m post ->
  m <> [] /\ Forall (fun c => markdown_char c = true) m /\ In c_hash m.
Proof.
  intros (m1 & m2 & -> & H1 & H2).
  apply lang_rep_chars with (P := fun c => is_char c_hash c = true) in H1;
    [|intros; now apply lang_chr with (pre := pre0) (post := post0)].
  apply lang_rep_chars with (P := fun c => isspace c = true) in H2;
    [|intros; now apply lang_chr with (pre := pre0) (post := post0)].
  destruct H1 as [H1 L1], H2 as [H2 _].
  destruct m1 as [|c m1]; [simpl in L1; lia|].
  split; [discriminate|]. split.
  - apply Forall_app. split.
    + eapply Forall_impl; [|exact H1]. intros a Ha. unfold markdown_char.
      unfold is_char in Ha. now rewrite Ha.
    + eapply Forall_impl; [|exact H2]. intros a Ha. unfold markdown_char.
      rewrite Ha. now rewrite orb_true_r.
  - inversion H1 as [|? ? Hc _]. apply Z.eqb_eq in Hc. subst c. now left.
Qed.

Lemma lang_bullet (pre m post : text) :
  lang re_bullet pre m post ->
  m <> [] /\ Forall (fun c => markdown_char c = true) m
  /\ (In c_minus m \/ In c_plus m).
Proof.
  intros (m1 & m23 & -> & [-> _] & m2 & m3 & -> & (c & -> & Hc) & H3).
  apply lang_rep_chars with (P := fun c => isspace c = true) in H3;
    [|intros; now apply lang_chr with (pre := pre0) (post := post0)].
  destruct H3 as [H3 _]. cbn [app].
  unfold one_of in Hc. cbn [existsb] in Hc. rewrite orb_false_r in Hc.
  split; [discriminate|]. split.
  - constructor.
    + unfold markdown_char. apply orb_true_iff in Hc.
      destruct Hc as [Hc|Hc]; rewrite Hc; now rewrite ?orb_true_r.
    + eapply Forall_impl; [|exact H3]. intros a Ha. unfold markdown_char.
      rewrite Ha. now rewrite orb_true_r.
  - apply orb_true_iff in Hc.
    destruct Hc as [Hc|Hc]; apply Z.eqb_eq in Hc; subst c;
      [left|right]; now left.
Qed.

Lemma lang_live2d (pre m post : text) :
  lang re_live2d pre m post ->
  exists body, m = c_lbracket :: body ++ [c_rbracket]
    /\ body <> [] /\ ~ In c_rbracket body.
Proof.
  intros (m1 & m23 & -> & (c1 & -> & H1) & m2 & m3 & -> & H2
          & (c3 & -> & H3)).
  apply lang_rep_chars
    with (P := fun c => not_char c_rbracket c = true) in H2;
    [|intros; now apply lang_chr with (pre := pre0) (post := post0)].
  destruct H2 as [H2 L2].
  apply Z.eqb_eq in H1, H3. subst c1 c3. exists m2.
  split; [reflexivity|]. split.
  - intros ->. simpl in L2. lia.
  - intros Hin. rewrite Forall_forall in H2. apply H2 in Hin.
    unfold not_char in Hin. now rewrite Z.eqb_refl in Hin.
Qed.

(** A pattern whose matches all hold a character the text does not have
    finds nothing. *)
Lemma sub_no_hit_chars (r : regex) (P : char -> Prop) (repl t : text) :
  (forall pre m post, lang r pre m post -> exists x, In x m /\ P x) ->
  (forall x, In x t -> ~ P x) ->
  sub r repl t = t.
Proof.
  intros Hl Ht. apply sub_no_hit.
  destruct (hits (scan r t)) as [|m l] eqn:E; [reflexivity|].
  assert (Hm : In m (hits (scan r t))) by (rewrite E; now left).
  pose proof Hm as Hm'. apply hits_in in Hm'. apply scan_go_hit in Hm'.
  destruct Hm' as (pre' & post & Hlang).
  apply Hl in Hlang. destruct Hlang as (x & Hx & HP).
  exfalso. apply (Ht x); [|exact HP]. eapply scan_hit_chars; eauto.
Qed.

Lemma placeholder_chars (i : nat) (x : char) :
  In x (placeholder i) ->
  x = c_underscore \/ is_digit x
  \/ In x [76; 73; 86; 69; 50; 68; 80; 82; 79; 84; 67]%Z.
Proof.
  rewrite placeholder_eq, !in_app_iff. intros [H|[H|H]].
  - simpl in H. simpl.
    repeat (destruct H as [H|H]; [subst x; auto 20|]). contradiction.
  - right. left. pose proof (str_of_nat_digits i) as Hd.
    rewrite Forall_forall in Hd. now apply Hd.
  - left. simpl in H. destruct H as [H|[H|[]]]; now subst x.
Qed.

Lemma placeholder_no_markdown (i : nat) :
  Forall (fun c => markdown_char c = false) (placeholder i).
Proof.
  apply Forall_forall. intros x Hx. apply placeholder_chars in Hx.
  destruct Hx as [->|[Hx|Hx]].
  - reflexivity.
  - unfold is_digit in Hx. unfold markdown_char, isspace, c_hash, c_minus,
      c_plus.
    repeat rewrite orb_false_iff. repeat split;
      try (apply Z.eqb_neq; lia);
      try (apply andb_false_iff; (left; apply Z.leb_gt; lia)
                                 || (right; apply Z.leb_gt; lia)).
  - simpl in Hx.
    repeat (destruct Hx as [Hx|Hx]; [subst x; reflexivity|]). contradiction.
Qed.

Lemma placeholder_no_star (i : nat) : ~ In c_star (placeholder i).
Proof.
  intros H. apply placeholder_chars in H. destruct H as [H|[H|H]].
  - discriminate.
  - unfold is_digit, c_star in H. lia.
  - simpl in H. repeat (destruct H as [H|H]; [discriminate|]). contradiction.
Qed.

(** ** The clean-up of spaces, by hand *)

Lemma take_drop_while (p : char -> bool) (s : text) :
  take_while p s ++ drop_while p s = s.
Proof.
  induction s as [|c s IH]; simpl; [reflexivity|].
  destruct (p c); simpl; [now rewrite IH|reflexivity].
Qed.

Lemma match_at_spaces (pre s : text) :
  match_at re_spaces pre s
  = match s with
    | c :: _ => if isspace c then Some (drop_while isspace s) else None
    | [] => None
    end.
Proof.
  unfold match_at, re_spaces. fold final.
  rewrite rmatch_rep, rep_greedy_final by lia.
  destruct s as [|c s]; [reflexivity|]. simpl. now destruct (isspace c).
Qed.

Lemma collapse_go_true (s : text) :
  collapse_go true s = collapse_go false (drop_while isspace s).
Proof.
  induction s as [|c s IH]; simpl; [reflexivity|].
  destruct (isspace c) eqn:E; [exact IH|]. simpl. now rewrite E.
Qed.

Lemma scan_spaces (n : nat) : forall s pre, length s <= n ->
  flat_map (keep_out [c_space]) (scan_go re_spaces 0 pre s)
  = collapse_go false s.
Proof.
  induction n as [|n IH]; intros s pre Hn.
  - destruct s; [|simpl in Hn; lia]. cbn [scan_go].
    now rewrite match_at_spaces.
  - destruct s as [|c s]; [cbn [scan_go]; now rewrite match_at_spaces|].
    destruct (isspace c) eqn:Ec.
    + assert (Hm : match_at re_spaces pre
                     (take_while isspace (c :: s)
                        ++ drop_while isspace (c :: s))
                   = Some (drop_while isspace (c :: s))).
      { rewrite take_drop_while, match_at_spaces. now rewrite Ec. }
      rewrite <- (take_drop_while isspace (c :: s)) at 1.
      rewrite scan_go_app_hit; [|simpl; rewrite Ec; discriminate|exact Hm].
      cbn [flat_map keep_out app]. rewrite IH.
      * cbn [collapse_go drop_while]. rewrite Ec.
        now rewrite collapse_go_true.
      * pose proof (take_drop_while isspace (c :: s)) as E.
        apply (f_equal (@length char)) in E. rewrite length_app in E.
        simpl in E. rewrite Ec in E. simpl in E, Hn. simpl. rewrite Ec. lia.
    + cbn [scan_go]. rewrite match_at_spaces, Ec.
      cbn [flat_map keep_out app collapse_go]. rewrite Ec. f_equal.
      apply IH. simpl in Hn. lia.
Qed.

Lemma collapse_spaces_eq (t : text) :
  collapse_spaces t = collapse_go false t.
Proof.
  unfold collapse_spaces, sub, scan.
  apply scan_spaces with (n := length t). lia.
Qed.

Lemma collapse_go_app_char (a : text) : forall f c s,
  isspace c = false ->
  collapse_go f (a ++ c :: s)
  = collapse_go f a ++ c :: collapse_go false s.
Proof.
  induction a as [|x a IH]; intros f c s Hc; simpl.
  - now rewrite Hc.
  - destruct (isspace x); [destruct f|]; simpl; now rewrite IH.
Qed.

Lemma collapse_go_free (s : text) :
  (forall c, In c s -> isspace c = false) -> collapse_go false s = s.
Proof.
  induction s as [|c s IH]; intros H; simpl; [reflexivity|].
  rewrite (H c) by now left. f_equal. apply IH. intros x Hx. apply H.
  now right.
Qed.

Lemma collapse_spaces_piece (a body b : text) (c0 c1 : char) :
  isspace c0 = false -> isspace c1 = false ->
  collapse_spaces (a ++ (c0 :: body ++ [c1]) ++ b)
  = collapse_spaces a ++ collapse_spaces (c0 :: body ++ [c1])
      ++ collapse_spaces b
  /\ collapse_spaces (c0 :: body ++ [c1])
     = c0 :: collapse_spaces body ++ [c1].
Proof.
  intros H0 H1. rewrite !collapse_spaces_eq.
  assert (E : collapse_go false (c0 :: body ++ [c1])
              = c0 :: collapse_go false body ++ [c1]).
  { cbn [collapse_go]. rewrite H0. f_equal.
    now rewrite collapse_go_app_char. }
  split; [|exact E]. rewrite E.
  cbn [app]. rewrite collapse_go_app_char by exact H0. f_equal.
  cbn [app]. f_equal. rewrite <- !app_assoc. cbn [app].
  now rewrite collapse_go_app_char.
Qed.

Lemma lstrip_app_keep (a : text) (c : char) (y : text) :
  isspace c = false -> exists a', lstrip (a ++ c :: y) = a' ++ c :: y.
Proof.
  intros Hc. induction a as [|x a [a' IH]]; simpl.
  - rewrite Hc. now exists [].
  - destruct (isspace x); [eauto|]. now exists (x :: a).
Qed.

Lemma strip_keeps (a mid b : text) (c0 c1 : char) :
  isspace c0 = false -> isspace c1 = false ->
  occurs_in (c0 :: mid ++ [c1]) (strip (a ++ (c0 :: mid ++ [c1]) ++ b)).
Proof.
  intros H0 H1. unfold strip. cbn [app].
  destruct (@lstrip_app_keep a c0 ((mid ++ [c1]) ++ b) H0) as [a' E].
  rewrite E.
  replace (rev (a' ++ c0 :: (mid ++ [c1]) ++ b))
    with (rev b ++ c1 :: rev (a' ++ c0 :: mid)).
  2:{ rewrite <- app_assoc.
      replace (a' ++ c0 :: mid ++ [c1] ++ b)
        with ((a' ++ c0 :: mid) ++ [c1] ++ b)
        by (now rewrite <- app_assoc).
      rewrite (rev_app_distr (a' ++ c0 :: mid)).
      rewrite (rev_app_distr [c1] b). now rewrite <- app_assoc. }
  destruct (@lstrip_app_keep (rev b) c1 (rev (a' ++ c0 :: mid)) H1)
    as [b' E'].
  rewrite E'. rewrite rev_app_distr. cbn [rev]. rewrite rev_involutive.
  exists a', (rev b'). cbn [app]. rewrite <- !app_assoc. reflexivity.
Qed.

(** ** [filter_special_formatting]: the protected spans *)

Lemma subst_all_occurs (ps : list (nat * text)) (its : list item)
    (j : nat) (m : text) :
  In (Ph j) its -> lookup j ps = Some m ->
  occurs_in m (render (subst_all ps its)).
Proof.
  intros Hin Hl. apply in_split in Hin. destruct Hin as (l1 & l2 & ->).
  rewrite subst_all_app, render_app.
  change (Ph j :: l2) with ([Ph j] ++ l2).
  rewrite subst_all_app, render_app.
  exists (render (subst_all ps l1)), (render (subst_all ps l2)).
  do 2 f_equal. cbn [subst_all flat_map subst_all_item]. rewrite Hl.
  now rewrite app_nil_r, render_lits.
Qed.

Lemma protected_span_shape (t s : text) :
  In s (protected_spans t) ->
  exists body, s = c_lbracket :: body ++ [c_rbracket]
    /\ body <> [] /\ ~ In c_rbracket body.
Proof.
  intros H. apply hits_in in H. apply scan_go_hit in H.
  destruct H as (pre' & post & Hl). now apply lang_live2d in Hl.
Qed.

Lemma collapse_spaces_free (s : text) :
  (forall c, In c s -> isspace c = false) -> collapse_spaces s = s.
Proof. intros H. rewrite collapse_spaces_eq. now apply collapse_go_free. Qed.

Lemma until_rbracket (b : text) (body : text) : forall fuel cnt pre,
  length (body ++ c_rbracket :: b) < fuel -> ~ In c_rbracket body ->
  rep_loop (rmatch (Chr (not_char c_rbracket))) 1 None true
    (fun pre' s' => rmatch (Chr (is_char c_rbracket)) pre' s' final)
    fuel cnt pre (body ++ c_rbracket :: b)
  = if 1 <=? cnt + length body then Some b else None.
Proof.
  induction body as [|c body IH]; intros fuel cnt pre Hf Hb;
    (destruct fuel as [|fuel]; [inversion Hf|]);
    rewrite rep_loop_S; cbn [below app]; rewrite !rmatch_chr_cons.
  - unfold not_char, is_char. rewrite Z.eqb_refl. cbn [negb orelse length].
    rewrite Nat.add_0_r. unfold final. destruct cnt; reflexivity.
  - assert (Hc : not_char c_rbracket c = true).
    { unfold not_char. apply negb_true_iff, Z.eqb_neq. intros ->.
      apply Hb. now left. }
    rewrite Hc, length_tail_ltb, IH.
    + cbn [length]. rewrite <- plus_n_Sm. cbn [Nat.add Nat.leb].
      now destruct (cnt <? 1).
    + simpl in Hf. simpl. lia.
    + intros H. apply Hb. now right.
Qed.

Lemma match_at_live2d (pre body b : text) :
  body <> [] -> ~ In c_rbracket body ->
  match_at re_live2d pre (c_lbracket :: body ++ c_rbracket :: b) = Some b.
Proof.
  intros Hne Hb. unfold match_at, re_live2d. fold final.
  rewrite rmatch_seq, rmatch_chr_cons. unfold is_char at 1.
  rewrite Z.eqb_refl, rmatch_seq, rmatch_rep, until_rbracket by (auto; lia).
  destruct body; [now contradiction Hne|reflexivity].
Qed.

Lemma hits_app (l1 l2 : list seg) : hits (l1 ++ l2) = hits l1 ++ hits l2.
Proof.
  induction l1 as [|[c|m] l1 IH]; simpl; [reflexivity|exact IH|].
  now rewrite IH.
Qed.

Lemma protected_span_found (a body b : text) :
  ~ In c_lbracket a -> body <> [] -> ~ In c_rbracket body ->
  In (c_lbracket :: body ++ [c_rbracket])
     (protected_spans (a ++ (c_lbracket :: body ++ [c_rbracket]) ++ b)).
Proof.
  intros Ha Hne Hb. unfold protected_spans, scan.
  rewrite scan_go_app_keep.
  - rewrite hits_app, in_app_iff. right.
    rewrite scan_go_app_hit; [now left|discriminate|].
    cbn [app]. rewrite <- app_assoc. cbn [app].
    now apply match_at_live2d.
  - intros x1 c x2 ->. unfold match_at, re_live2d.
    rewrite rmatch_seq, rmatch_chr_cons. unfold is_char at 1.
    replace (c =? c_lbracket)%Z with false; [reflexivity|].
    symmetry. apply Z.eqb_neq. intros ->. apply Ha.
    rewrite in_app_iff. right. now left.
Qed.

(** ** The stages on text without their patterns *)

Lemma scan_go_no_match (r : regex) (t : text) :
  ~ matches_somewhere r t ->
  forall s pre, t = rev pre ++ s -> scan_go r 0 pre s = map Keep s.
Proof.
  intros Hno s. induction s as [|c s IH]; intros pre E; cbn [scan_go].
  - destruct (match_at r pre []) eqn:Em; [|reflexivity].
    exfalso. apply Hno. exists pre, []. split; [exact E|congruence].
  - destruct (match_at r pre (c :: s)) eqn:Em.
    + exfalso. apply Hno. exists pre, (c :: s). split; [exact E|congruence].
    + cbn [map]. f_equal. apply IH. cbn [rev]. now rewrite <- app_assoc.
Qed.

Lemma sub_no_match (r : regex) (repl t : text) :
  ~ matches_somewhere r t -> sub r repl t = t.
Proof.
  intros Hno. unfold sub, scan.
  rewrite (scan_go_no_match Hno t []) by reflexivity.
  apply flat_map_keep.
Qed.

Lemma nested_out_clean (left right : char) (t : text) :
  ~ In left t -> ~ In right t -> nested_out left right 0 t = t.
Proof.
  induction t as [|c t IH]; intros Hl Hr; simpl; [reflexivity|].
  assert (c <> left /\ c <> right) as [Hcl Hcr].
  { split; intros ->; [apply Hl|apply Hr]; now left. }
  apply Z.eqb_neq in Hcl, Hcr. rewrite Hcl, Hcr. f_equal.
  apply IH; intros H; [apply Hl|apply Hr]; now right.
Qed.

Lemma filter_nested_clean (t : text) (left right : char) :
  ~ In left t -> ~ In right t -> _filter_nested t left right = clean_spaces t.
Proof.
  intros Hl Hr. unfold _filter_nested. destruct t as [|c t]; [reflexivity|].
  unfold nested_loop. rewrite nested_fold. cbn [app].
  now rewrite nested_out_clean.
Qed.

Lemma filter_all (f : char -> bool) (l : text) :
  (forall c, In c l -> f c = true) -> filter f l = l.
Proof.
  induction l as [|c l IH]; intros H; simpl; [reflexivity|].
  rewrite (H c) by now left. f_equal. apply IH. intros x Hx. apply H.
  now right.
Qed.

Lemma lang_digits1 (U : unicodedata) (pre m post : text) :
  lang (digits1 U) pre m post -> exists x, In x m /\ isdecimal U x = true.
Proof.
  intros H.
  apply lang_rep_chars with (P := fun c => isdecimal U c = true) in H;
    [|intros; now apply lang_chr with (pre := pre0) (post := post0)].
  destruct H as [Hall Hlen]. destruct m as [|x m]; [simpl in Hlen; lia|].
  exists x. split; [now left|]. now inversion Hall.
Qed.

Lemma lang_numbered (U : unicodedata) (pre m post : text) :
  lang (re_num_dot U) pre m post \/ lang (re_num_paren U) pre m post
  \/ lang (re_num_wrapped U) pre m post ->
  exists x, In x m /\ isdecimal U x = true.
Proof.
  intros [H|[H|H]].
  - destruct H as (m0 & m1 & -> & _ & ms & m2 & -> & _
                   & md & m3 & -> & Hd & _).
    apply lang_digits1 in Hd. destruct Hd as (x & Hx & Hd).
    exists x. split; [|exact Hd]. rewrite !in_app_iff. auto.
  - destruct H as (m0 & m1 & -> & _ & ms & m2 & -> & _
                   & md & m3 & -> & Hd & _).
    apply lang_digits1 in Hd. destruct Hd as (x & Hx & Hd).
    exists x. split; [|exact Hd]. rewrite !in_app_iff. auto.
  - destruct H as (m0 & m1 & -> & _ & ms & m2 & -> & _
                   & mo & m3 & -> & _ & md & m4 & -> & Hd & _).
    apply lang_digits1 in Hd. destruct Hd as (x & Hx & Hd).
    exists x. split; [|exact Hd]. rewrite !in_app_iff. auto 6.
Qed.

(** C3, as the claim states it.  The formatting clean-up changes a text
    without asterisk, hash, minus or plus sign by more than whitespace
    when the text continues a placeholder; the Unicode filter (on the
    database excerpt) turns the valid letter U+FF21 into the letter A. *)
Lemma clean_text_changed_beyond_spaces :
  (let t := of_string "[a][b]LIVE2D_PROTECT_0__" in
   ~ In c_star t /\ ~ In c_hash t /\ ~ In c_minus t /\ ~ In c_plus t
   /\ filter_special_formatting t = of_string "[a]__LIVE2D_PROTECT_1[a]"
   /\ clean_spaces (filter_special_formatting t) <> clean_spaces t)
  /\ (is_valid_char ucd_sample 65313%Z = true
      /\ remove_special_characters ucd_sample [65313%Z] = [65%Z]
      /\ clean_spaces (remove_special_characters ucd_sample [65313%Z])
         <> clean_spaces [65313%Z]).
Proof.
  split.
  - intros t. repeat split; try (apply not_in_b; reflexivity).
    vm_compute. discriminate.
  - repeat split. vm_compute. discriminate.
Qed.

(** ** No pattern of the module matches the empty text *)

Lemma module_patterns_nonempty (U : unicodedata) (r : regex)
    (pre m post : text) :
  In r [re_spaces; re_asterisks; re_live2d; re_lone_asterisk; re_header;
        re_bullet; re_num_dot U; re_num_paren U; re_num_wrapped U] ->
  lang r pre m post -> m <> [].
Proof.
  intros Hr Hl. simpl in Hr.
  destruct Hr as [<-|[<-|[<-|[<-|[<-|[<-|[<-|[<-|[<-|[]]]]]]]]]].
  - now apply lang_spaces in Hl.
  - apply lang_asterisks, emphasis_span_chars in Hl. tauto.
  - apply lang_live2d in Hl. destruct Hl as (body & -> & _). discriminate.
  - apply lang_lone_asterisk in Hl. subst m. discriminate.
  - apply lang_header in Hl. tauto.
  - apply lang_bullet in Hl. tauto.
  - destruct (@lang_numbered U pre m post) as (x & Hx & _); [auto|].
    intros ->. contradiction.
  - destruct (@lang_numbered U pre m post) as (x & Hx & _); [auto|].
    intros ->. contradiction.
  - destruct (@lang_numbered U pre m post) as (x & Hx & _); [auto|].
    intros ->. contradiction.
Qed.

(* ------------------------------------------------------------------ *)
(** * Placeholders and the token text *)

(** ** Occurrences *)

Lemma occurs_b_spec (p s : text) : occurs_b p s = true <-> occurs_in p s.
Proof.
  split.
  - induction s as [|c s IH]; cbn [occurs_b]; intros H;
      apply orb_true_iff in H; destruct H as [H|H]; try discriminate.
    + apply prefix_b_spec in H. destruct H as [s' ->]. now exists [], s'.
    + apply prefix_b_spec in H. destruct H as [s' ->]. now exists [], s'.
    + destruct (IH H) as (a & b & ->). now exists (c :: a), b.
  - intros (a & b & ->). induction a as [|c a IH].
    + assert (H : prefix_b p (p ++ b) = true) by (apply prefix_b_spec; eauto).
      cbn [app]. destruct (p ++ b); cbn [occurs_b]; now rewrite H.
    + cbn [app occurs_b]. rewrite IH. apply orb_true_r.
Qed.

Lemma occurs_b_false (p s : text) : occurs_b p s = false <-> ~ occurs_in p s.
Proof.
  rewrite <- occurs_b_spec. destruct (occurs_b p s); split; intros H;
    try discriminate; try reflexivity; try congruence.
Qed.

Lemma occurs_b_tail (p : text) (c : char) (s : text) :
  occurs_b p (c :: s) = false -> occurs_b p s = false.
Proof. cbn [occurs_b]. intros H. now apply orb_false_iff in H. Qed.

Lemma prefix_b_sep (p : text) (sep : char) (b : text) : forall x,
  ~ In sep p -> prefix_b p (x ++ sep :: b) = prefix_b p x.
Proof.
  induction p as [|c p IH]; intros x Hp; [reflexivity|].
  destruct x as [|d x]; cbn [app prefix_b].
  - replace (c =? sep)%Z with false; [reflexivity|].
    symmetry. apply Z.eqb_neq. intros ->. apply Hp. now left.
  - rewrite IH; [reflexivity|]. intros H. apply Hp. now right.
Qed.

(** An occurrence does not reach across a character the text sought
    does not hold. *)
Lemma occurs_b_sep (p : text) (sep : char) (b : text) : forall a,
  p <> [] -> ~ In sep p ->
  occurs_b p (a ++ sep :: b) = occurs_b p a || occurs_b p b.
Proof.
  intros a Hne Hp. induction a as [|d a IH].
  - pose proof (prefix_b_sep p sep b [] Hp) as H. cbn [app] in H.
    cbn [app occurs_b]. rewrite H.
    destruct p; [contradiction|reflexivity].
  - cbn [app occurs_b]. rewrite IH.
    change (d :: a ++ sep :: b) with ((d :: a) ++ sep :: b).
    rewrite prefix_b_sep by exact Hp. now rewrite orb_assoc.
Qed.

Lemma token_core_sep (a b : text) (sep : char) :
  ~ In sep token_core ->
  occurs_b token_core (a ++ sep :: b)
  = occurs_b token_core a || occurs_b token_core b.
Proof. intros H. apply occurs_b_sep; [discriminate|exact H]. Qed.

Lemma lbracket_not_core : ~ In c_lbracket token_core.
Proof. apply not_in_b. reflexivity. Qed.

Lemma rbracket_not_core : ~ In c_rbracket token_core.
Proof. apply not_in_b. reflexivity. Qed.

(** The token text does not reach across a bracketed text. *)
Lemma token_core_bracketed (a body b : text) :
  occurs_b token_core (a ++ (c_lbracket :: body ++ [c_rbracket]) ++ b)
  = occurs_b token_core a || occurs_b token_core body
    || occurs_b token_core b.
Proof.
  cbn [app]. rewrite <- app_assoc. cbn [app].
  rewrite token_core_sep by exact lbracket_not_core.
  rewrite token_core_sep by exact rbracket_not_core.
  now rewrite orb_assoc.
Qed.

Lemma token_core_in_brackets (body : text) :
  occurs_b token_core (c_lbracket :: body ++ [c_rbracket])
  = occurs_b token_core body.
Proof.
  pose proof (token_core_bracketed [] body []) as H.
  rewrite app_nil_r in H. cbn [app] in H. rewrite H.
  cbn. now rewrite orb_false_r.
Qed.

(** ** Where a placeholder can begin *)

Lemma outside_app (a b : list item) : outside (a ++ b) = outside a ++ outside b.
Proof. apply flat_map_app. Qed.

Lemma outside_lits (m : text) : outside (map Lit m) = m.
Proof. induction m as [|c m IH]; simpl; [reflexivity|]. now f_equal. Qed.

(** A solid text at the head of rendered items is made of characters of
    the items: no placeholder is part of it. *)
Lemma render_solid_prefix (x : text) : forall its rest,
  solid x -> render its = x ++ rest ->
  exists its', its = map Lit x ++ its' /\ render its' = rest.
Proof.
  induction x as [|a x IH]; intros its rest Hx E.
  - exists its. auto.
  - destruct its as [|[c|i] its].
    + discriminate.
    + cbn [render flat_map render_item app] in E. fold (render its) in E.
      injection E as -> E.
      assert (Hx' : solid x)
        by (cbn [solid] in Hx; destruct x; [exact I|apply Hx]).
      destruct (IH its rest Hx' E) as (its' & -> & E').
      exists its'. auto.
    + exfalso. cbn [render flat_map render_item] in E.
      fold (render its) in E. rewrite placeholder_app in E.
      injection E as <- E. cbn [solid] in Hx.
      destruct x as [|b x]; [now apply Hx|].
      injection E as <- _. destruct Hx as [Hx _]. now apply Hx.
Qed.

Lemma solid_core : solid (c_underscore :: token_core).
Proof.
  cbn. repeat split; try discriminate; intros H; discriminate.
Qed.

Lemma solid_core' : solid token_core.
Proof.
  cbn. repeat split; try discriminate; intros H; discriminate.
Qed.

Lemma core_in_outside (x : text) (its : list item) :
  occurs_b token_core (x ++ token_core ++ outside its) = true.
Proof. apply occurs_b_spec. now exists x, (outside its). Qed.

(** Where the text outside the placeholders does not hold the token
    text, no placeholder begins at a character... *)
Lemma prefix_ph_lit (j : nat) (c : char) (its : list item) :
  occurs_b token_core (outside (Lit c :: its)) = false ->
  prefix_b (placeholder j) (c :: render its) = false.
Proof.
  intros Hf. apply prefix_b_false. intros s' E.
  rewrite placeholder_app in E. injection E as _ E.
  change (render its = (c_underscore :: token_core)
            ++ (95%Z :: str_of_nat j ++ 95%Z :: 95%Z :: s')) in E.
  apply render_solid_prefix in E; [|exact solid_core].
  destruct E as (its' & -> & _).
  cbn [outside flat_map outside_item app] in Hf.
  fold (outside (map Lit (c_underscore :: token_core) ++ its')) in Hf.
  rewrite outside_app, outside_lits in Hf.
  pose proof (core_in_outside [c; c_underscore] its') as H.
  cbn [app] in H, Hf. congruence.
Qed.

(** ... nor at the last two underscores of another placeholder. *)
Lemma prefix_ph_tail_core (j : nat) (its : list item) :
  occurs_b token_core (outside its) = false ->
  prefix_b (placeholder j) (c_underscore :: c_underscore :: render its)
  = false.
Proof.
  intros Hf. apply prefix_b_false. intros s' E.
  rewrite placeholder_app in E. injection E as E.
  change (render its = token_core
            ++ (95%Z :: str_of_nat j ++ 95%Z :: 95%Z :: s')) in E.
  apply render_solid_prefix in E; [|exact solid_core'].
  destruct E as (its' & -> & _).
  rewrite outside_app, outside_lits in Hf.
  pose proof (core_in_outside [] its') as H. cbn [app] in H. congruence.
Qed.

Lemma prefix_ph_last_core (j : nat) (its : list item) :
  occurs_b token_core (outside its) = false ->
  prefix_b (placeholder j) (c_underscore :: render its) = false.
Proof.
  intros Hf. apply prefix_b_false. intros s' E.
  rewrite placeholder_app in E. injection E as E.
  change (render its = (c_underscore :: token_core)
            ++ (95%Z :: str_of_nat j ++ 95%Z :: 95%Z :: s')) in E.
  apply render_solid_prefix in E; [|exact solid_core].
  destruct E as (its' & -> & _).
  rewrite outside_app, outside_lits in Hf.
  pose proof (core_in_outside [c_underscore] its') as H.
  cbn [app] in H, Hf. congruence.
Qed.

Lemma replace_skip_placeholder_core (i j : nat) (m : text)
    (its : list item) :
  i <> j -> occurs_b token_core (outside its) = false ->
  replace_go (placeholder j) m 0 (placeholder i ++ render its)
  = placeholder i ++ replace_go (placeholder j) m 0 (render its).
Proof.
  intros Hij Hl.
  pose proof (prefix_ph_other (render its) Hij) as H0.
  rewrite !(placeholder_app i) in *.
  rewrite replace_go_keep by exact H0. clear H0. f_equal.
  rewrite replace_go_keep by (apply prefix_ph_second; discriminate).
  f_equal.
  do 6 (rewrite replace_go_keep by (apply prefix_ph_head; discriminate);
        f_equal).
  rewrite replace_go_keep by (apply prefix_ph_second; discriminate).
  f_equal.
  do 7 (rewrite replace_go_keep by (apply prefix_ph_head; discriminate);
        f_equal).
  rewrite replace_go_keep
    by (apply prefix_ph_before_digits, str_of_nat_digits).
  f_equal.
  rewrite replace_copy_free.
  2:{ intros H. pose proof (str_of_nat_digits i) as Hd.
      rewrite Forall_forall in Hd. apply Hd in H.
      unfold is_digit, c_underscore in H. lia. }
  f_equal.
  rewrite replace_go_keep by (now apply prefix_ph_tail_core). f_equal.
  rewrite replace_go_keep by (now apply prefix_ph_last_core). reflexivity.
Qed.

(** [str.replace] of a placeholder on rendered items: the items with
    that number give way to the text, nothing else changes. *)
Lemma replace_render_core (j : nat) (m : text) (its : list item) :
  occurs_b token_core (outside its) = false ->
  replace (placeholder j) m (render its) = render (subst j m its).
Proof.
  rewrite replace_placeholder.
  induction its as [|[c|i] its IH]; intros Hl.
  - reflexivity.
  - cbn [render flat_map render_item subst subst_item app].
    fold (render its). fold (subst j m its). fold (render (subst j m its)).
    rewrite replace_go_keep by (now apply prefix_ph_lit).
    f_equal. apply IH. now apply occurs_b_tail in Hl.
  - assert (Hl' : occurs_b token_core (outside its) = false)
      by (now apply occurs_b_tail in Hl).
    cbn [render flat_map render_item subst subst_item].
    fold (render its). fold (subst j m its).
    destruct (i =? j) eqn:E.
    + apply Nat.eqb_eq in E. subst i.
      rewrite replace_go_hit by apply placeholder_not_nil.
      fold (render (map Lit m ++ subst j m its)).
      rewrite render_app, render_lits. f_equal. now apply IH.
    + apply Nat.eqb_neq in E.
      rewrite replace_skip_placeholder_core by assumption.
      cbn [app flat_map render_item]. fold (render (subst j m its)).
      f_equal. now apply IH.
Qed.

(** Putting a bracketed text without the token text for a placeholder
    brings no token text outside the placeholders. *)
Lemma outside_subst (j : nat) (m : text) (its : list item) :
  bracketed m -> occurs_b token_core m = false ->
  forall a,
    occurs_b token_core (a ++ outside its) = false ->
    occurs_b token_core (a ++ outside (subst j m its)) = false.
Proof.
  intros [body ->] Hm. rewrite token_core_in_brackets in Hm.
  induction its as [|[c|i] its IH]; intros a H.
  - exact H.
  - cbn [subst flat_map subst_item outside outside_item app] in *.
    fold (subst j (c_lbracket :: body ++ [c_rbracket]) its).
    fold (outside its) in H.
    fold (outside (subst j (c_lbracket :: body ++ [c_rbracket]) its)).
    change (a ++ c :: ?x) with (a ++ [c] ++ x) in *.
    rewrite app_assoc in *. now apply IH.
  - cbn [subst flat_map subst_item outside outside_item app] in H |- *.
    fold (subst j (c_lbracket :: body ++ [c_rbracket]) its).
    fold (outside its) in H.
    rewrite token_core_sep in H by exact lbracket_not_core.
    apply orb_false_iff in H. destruct H as [Ha Hi].
    specialize (IH [] Hi). cbn [app] in IH.
    destruct (i =? j).
    + fold (outside (map Lit (c_lbracket :: body ++ [c_rbracket])
                       ++ subst j (c_lbracket :: body ++ [c_rbracket]) its)).
      rewrite outside_app, outside_lits, token_core_bracketed.
      now rewrite Ha, Hm, IH.
    + cbn [flat_map outside_item app].
      fold (outside (subst j (c_lbracket :: body ++ [c_rbracket]) its)).
      rewrite token_core_sep by exact lbracket_not_core.
      now rewrite Ha, IH.
Qed.

(** The loop of the restore step on rendered items. *)
Lemma restore_render_core (ps : list (nat * text)) : forall its,
  occurs_b token_core (outside its) = false ->
  (forall j m, In (j, m) ps ->
     bracketed m /\ occurs_b token_core m = false) ->
  restore (map numbered ps) (render its) = render (subst_all ps its).
Proof.
  induction ps as [|[j m] ps IH]; intros its Hl Hps.
  - now rewrite subst_all_nil.
  - cbn [map restore fold_left numbered fst snd].
    rewrite replace_render_core by exact Hl.
    fold (restore (map numbered ps) (render (subst j m its))).
    rewrite IH.
    + now rewrite subst_all_cons.
    + destruct (Hps j m) as [Hb Hm]; [now left|].
      apply (@outside_subst j m its Hb Hm []). exact Hl.
    + intros j' m' H. apply (Hps j'). now right.
Qed.

(** ** The protect step and the token text *)

Lemma scan_live2d_bracketed (t m : text) :
  In (Hit m) (scan re_live2d t) -> bracketed m.
Proof.
  intros H. apply scan_go_hit in H. destruct H as (pre' & post & Hl).
  apply lang_live2d in Hl. destruct Hl as (body & -> & _). now exists body.
Qed.

(** With brackets for the spans, a text without the token text stays
    without it, and so is each span. *)
Lemma protect_outside (segs : list seg) :
  (forall m, In (Hit m) segs -> bracketed m) ->
  forall a c,
    occurs_b token_core (a ++ concat (map seg_text segs)) = false ->
    occurs_b token_core (a ++ outside (items_of c segs)) = false
    /\ (forall m, In (Hit m) segs -> occurs_b token_core m = false).
Proof.
  induction segs as [|[x|m] segs IH]; intros Hb a c H.
  - split; [exact H|]. intros m [].
  - cbn [map concat seg_text items_of outside flat_map outside_item app]
      in H |- *.
    fold (outside (items_of c segs)).
    change (a ++ x :: ?y) with (a ++ [x] ++ y) in *.
    rewrite app_assoc in *.
    destruct (IH (fun m Hm => Hb m (or_intror Hm)) (a ++ [x]) c H)
      as [H1 H2].
    split; [exact H1|]. intros m [Hm|Hm]; [discriminate|]. now apply H2.
  - destruct (Hb m (or_introl eq_refl)) as [body ->].
    cbn [map concat seg_text items_of outside flat_map outside_item]
      in H |- *.
    fold (outside (items_of (S c) segs)).
    change ([c_lbracket] ++ ?y) with (c_lbracket :: y).
    rewrite token_core_bracketed in H.
    apply orb_false_iff in H. destruct H as [H Hr].
    apply orb_false_iff in H. destruct H as [Ha Hbody].
    destruct (IH (fun m Hm => Hb m (or_intror Hm)) [] (S c) Hr)
      as [H1 H2].
    cbn [app] in H1. split.
    + rewrite token_core_sep by exact lbracket_not_core.
      now rewrite Ha, H1.
    + intros m [Hm|Hm]; [|now apply H2].
      injection Hm as <-. now rewrite token_core_in_brackets.
Qed.

Lemma protect_core_free (t : text) :
  ~ occurs_in token_core t ->
  occurs_b token_core (outside (items_of 0 (scan re_live2d t))) = false
  /\ (forall j m,
        In (j, m) (combine (seq 0 (length (protected_spans t)))
                           (protected_spans t)) ->
        bracketed m /\ occurs_b token_core m = false).
Proof.
  intros Ht. apply occurs_b_false in Ht.
  destruct (@protect_outside (scan re_live2d t)
              (scan_live2d_bracketed t) [] 0) as [H1 H2].
  { cbn [app]. now rewrite scan_text. }
  split; [exact H1|]. intros j m H. apply in_combine_r in H.
  apply hits_in in H. split; [now apply scan_live2d_bracketed in H|].
  now apply H2.
Qed.

(** Where the text does not hold the token text, restoring the protected
    text gives the text back. *)
Lemma restore_protect_core (t : text) :
  ~ occurs_in token_core t ->
  restore (fst (fst (protect t))) (snd (protect t)) = t.
Proof.
  intros Ht. destruct (protect_core_free Ht) as [H1 H2].
  rewrite protect_eq. cbn [fst snd].
  rewrite restore_render_core by assumption.
  unfold protected_spans. rewrite subst_all_items_of, render_lits.
  apply scan_text.
Qed.

Lemma placeholder_has_core (i : nat) : occurs_in token_core (placeholder i).
Proof.
  exists [c_underscore; c_underscore],
    (c_underscore :: str_of_nat i ++ [c_underscore; c_underscore]).
  reflexivity.
Qed.

Lemma occurs_in_trans (p m t : text) :
  occurs_in p m -> occurs_in m t -> occurs_in p t.
Proof.
  intros (a & b & ->) (a' & b' & ->). exists (a' ++ a), (b ++ b').
  now rewrite <- !app_assoc.
Qed.

(** C4 (as the code has it): the placeholders of one call are the tokens
    numbered 0, 1, 2, ... in the order of the spans, all different.  They
    are not checked against the text.  When the text does not hold the
    token text LIVE2D_PROTECT, no placeholder occurs in it and restoring
    right after protecting gives the text back; and in any text of
    characters and placeholders that holds the token text in its
    placeholders only, the restore step puts its span for each
    placeholder and changes nothing else (the spans being bracketed
    texts without the token text). *)
Theorem placeholders_distinct_restore_exact :
  (forall t,
     NoDup (map fst (fst (fst (protect t))))
     /\ map fst (fst (fst (protect t)))
        = map placeholder (seq 0 (length (protected_spans t)))
     /\ map snd (fst (fst (protect t))) = protected_spans t)
  /\ (forall t ph,
        ~ occurs_in token_core t ->
        In ph (map fst (fst (fst (protect t)))) -> ~ occurs_in ph t)
  /\ (forall t,
        ~ occurs_in token_core t ->
        restore (fst (fst (protect t))) (snd (protect t)) = t)
  /\ (forall ps its,
        ~ occurs_in token_core (outside its) ->
        (forall j m, In (j, m) ps ->
           bracketed m /\ ~ occurs_in token_core m) ->
        restore (map numbered ps) (render its) = render (subst_all ps its)).
Proof.
  split.
  { intros t. destruct (protect_patterns t) as [H1 H2].
    split; [|split; assumption]. rewrite H1.
    apply NoDup_map_injective; [apply placeholder_inj|apply seq_NoDup]. }
  split.
  { intros t ph Ht Hph Hocc.
    destruct (protect_patterns t) as [H1 _]. rewrite H1 in Hph.
    apply in_map_iff in Hph. destruct Hph as (i & <- & _).
    apply Ht. apply occurs_in_trans with (m := placeholder i);
      [apply placeholder_has_core|exact Hocc]. }
  split; [exact restore_protect_core|].
  intros ps its Hits Hps. apply restore_render_core.
  - now apply occurs_b_false.
  - intros j m H. destruct (Hps j m H) as [Hb Hm].
    split; [exact Hb|now apply occurs_b_false].
Qed.

Lemma placeholders_distinct_restore_exact_witness :
  let t := of_string "[happy_face] *hi* __ [sad]" in
  ~ occurs_in token_core t
  /\ restore (fst (fst (protect t))) (snd (protect t)) = t.
Proof.
  intros t.
  assert (H : ~ occurs_in token_core t)
    by (apply occurs_b_false; reflexivity).
  split; [exact H|].
  exact (proj1 (proj2 (proj2 placeholders_distinct_restore_exact)) t H).
Defined.

(** ** The stages on text without their targets *)

Lemma matches_from_none (r : regex) (s : text) : forall pre,
  matches_from r pre s = false ->
  forall a b, s = a ++ b -> match_at r (rev a ++ pre) b = None.
Proof.
  induction s as [|c s IH]; intros pre H a b E; cbn [matches_from] in H.
  - symmetry in E. apply app_eq_nil in E. destruct E as [-> ->].
    cbn [rev app]. now destruct (match_at r pre []).
  - destruct (match_at r pre (c :: s)) eqn:Em; [discriminate|].
    destruct a as [|x a].
    + cbn [app] in E. subst b. exact Em.
    + cbn [app] in E. injection E as <- E. cbn [rev].
      rewrite <- app_assoc. cbn [app]. now apply IH.
Qed.

(** The search for a match, run on the text, decides whether the
    pattern matches somewhere. *)
Lemma no_match_b (r : regex) (t : text) :
  matches_from r [] t = false -> ~ matches_somewhere r t.
Proof.
  intros H (pre & s & E & Hm). apply Hm.
  pose proof (@matches_from_none r t [] H (rev pre) s E) as Hn.
  now rewrite rev_involutive, app_nil_r in Hn.
Qed.

Lemma filter_special_formatting_unmatched (t : text) :
  ~ occurs_in token_core t ->
  ~ matches_somewhere re_asterisks (snd (protect t)) ->
  ~ matches_somewhere re_lone_asterisk (snd (protect t)) ->
  ~ matches_somewhere re_header (snd (protect t)) ->
  ~ matches_somewhere re_bullet (snd (protect t)) ->
  filter_special_formatting t = clean_spaces t.
Proof.
  intros Ht H1 H2 H3 H4.
  pose proof (restore_protect_core Ht) as Hr.
  unfold filter_special_formatting.
  destruct (protect t) as [[ps n] t0]. cbn [fst snd] in *.
  unfold remove_markdown.
  rewrite (sub_no_match [] H1), (sub_no_match [] H2),
    (sub_no_match [] H3), (sub_no_match [] H4).
  now rewrite Hr.
Qed.

(** C3 (as the code has it): on a text without its target, a stage does
    at most the clean-up of spaces.  This holds for the asterisk stage
    (no asterisk), the nested stripper and its instances (neither
    delimiter), the list-marker stage (none of its three patterns
    matches anywhere; in particular no decimal digit), the Unicode filter
    when the text is in NFKC already (every character valid: the text is
    returned as it is), and the formatting clean-up when none of its four
    patterns matches anywhere in the text it scans, which is the text
    with a placeholder for each protected span, and the text does not
    hold the token text LIVE2D_PROTECT of the placeholders. *)
Theorem stages_on_clean_text :
  (forall t, ~ In c_star t -> filter_asterisks t = clean_spaces t)
  /\ (forall t l r,
        ~ In l t -> ~ In r t -> _filter_nested t l r = clean_spaces t)
  /\ (forall t,
        (~ In c_lbracket t -> ~ In c_rbracket t ->
         filter_brackets t = clean_spaces t)
        /\ (~ In c_lparen t -> ~ In c_rparen t ->
            filter_parentheses t = clean_spaces t)
        /\ (~ In c_langle t -> ~ In c_rangle t ->
            filter_angle_brackets t = clean_spaces t))
  /\ (forall U t,
        normalize_NFKC U t = t ->
        (forall c, In c t -> is_valid_char U c = true) ->
        remove_special_characters U t = t)
  /\ (forall U t,
        ~ matches_somewhere (re_num_dot U) t ->
        ~ matches_somewhere (re_num_paren U) t ->
        ~ matches_somewhere (re_num_wrapped U) t ->
        filter_numbered_lists U t = clean_spaces t)
  /\ (forall U t,
        (forall c, In c t -> isdecimal U c = false) ->
        filter_numbered_lists U t = clean_spaces t)
  /\ (forall t,
        ~ occurs_in token_core t ->
        ~ matches_somewhere re_asterisks (snd (protect t)) ->
        ~ matches_somewhere re_lone_asterisk (snd (protect t)) ->
        ~ matches_somewhere re_header (snd (protect t)) ->
        ~ matches_somewhere re_bullet (snd (protect t)) ->
        filter_special_formatting t = clean_spaces t).
Proof.
  split.
  { intros t Ht. unfold filter_asterisks. f_equal.
    rewrite <- (app_nil_r t) at 1. rewrite sub_asterisks_keep by exact Ht.
    change (sub re_asterisks [] []) with (@nil char). apply app_nil_r. }
  split; [exact filter_nested_clean|].
  split.
  { intros t. unfold filter_brackets, filter_parentheses,
      filter_angle_brackets.
    repeat split; apply filter_nested_clean. }
  split.
  { intros U t Hn Hv. unfold remove_special_characters. rewrite Hn.
    now apply filter_all. }
  split.
  { intros U t H1 H2 H3. unfold filter_numbered_lists.
    now rewrite (sub_no_match [] H1), (sub_no_match [] H2),
      (sub_no_match [] H3). }
  split.
  { intros U t Hd. unfold filter_numbered_lists.
    assert (Hx : forall x, In x t -> ~ isdecimal U x = true).
    { intros x Hx. rewrite (Hd x Hx). discriminate. }
    rewrite (@sub_no_hit_chars (re_num_dot U)
               (fun x => isdecimal U x = true)); auto.
    2:{ intros pre m post Hl. apply (@lang_numbered U pre m post). auto. }
    rewrite (@sub_no_hit_chars (re_num_paren U)
               (fun x => isdecimal U x = true)); auto.
    2:{ intros pre m post Hl. apply (@lang_numbered U pre m post). auto. }
    rewrite (@sub_no_hit_chars (re_num_wrapped U)
               (fun x => isdecimal U x = true)); auto.
    intros pre m post Hl. apply (@lang_numbered U pre m post). auto. }
  exact filter_special_formatting_unmatched.
Qed.

Lemma stages_on_clean_text_witness :
  let t := of_string "well-known C++ #1 a_b 2+2 [joy]" in
  let u := of_string "Hello, World 42!" in
  (~ occurs_in token_core t
   /\ ~ matches_somewhere re_asterisks (snd (protect t))
   /\ ~ matches_somewhere re_lone_asterisk (snd (protect t))
   /\ ~ matches_somewhere re_header (snd (protect t))
   /\ ~ matches_somewhere re_bullet (snd (protect t))
   /\ filter_special_formatting t = clean_spaces t)
  /\ (normalize_NFKC ucd_sample u = u
      /\ (forall c, In c u -> is_valid_char ucd_sample c = true)
      /\ remove_special_characters ucd_sample u = u).
Proof.
  intros t u. split.
  - assert (H0 : ~ occurs_in token_core t)
      by (apply occurs_b_false; reflexivity).
    assert (H1 : ~ matches_somewhere re_asterisks (snd (protect t)))
      by (apply no_match_b; reflexivity).
    assert (H2 : ~ matches_somewhere re_lone_asterisk (snd (protect t)))
      by (apply no_match_b; reflexivity).
    assert (H3 : ~ matches_somewhere re_header (snd (protect t)))
      by (apply no_match_b; reflexivity).
    assert (H4 : ~ matches_somewhere re_bullet (snd (protect t)))
      by (apply no_match_b; reflexivity).
    repeat (split; [assumption|]).
    exact (proj2 (proj2 (proj2 (proj2 (proj2 (proj2
             stages_on_clean_text))))) t H0 H1 H2 H3 H4).
  - assert (H1 : normalize_NFKC ucd_sample u = u) by reflexivity.
    assert (H2 : forall c, In c u -> is_valid_char ucd_sample c = true).
    { intros c Hc. apply (proj1 (forallb_forall _ u)); [reflexivity|exact Hc]. }
    repeat (split; [assumption|]).
    exact (proj1 (proj2 (proj2 (proj2 stages_on_clean_text)))
             ucd_sample u H1 H2).
Defined.

(** ** Texts with characters left out *)

Lemma thinned_refl {A : Type} (l : list A) : thinned l l.
Proof. induction l; constructor; auto. Qed.

Lemma thinned_nil_l {A : Type} (l : list A) : thinned [] l.
Proof. induction l; constructor; auto. Qed.

Lemma thinned_app {A : Type} (a' a b' b : list A) :
  thinned a' a -> thinned b' b -> thinned (a' ++ b') (a ++ b).
Proof.
  intros Ha Hb. induction Ha; cbn [app]; [exact Hb| |];
    constructor; assumption.
Qed.

Lemma thinned_trans {A : Type} (l1 l2 l3 : list A) :
  thinned l1 l2 -> thinned l2 l3 -> thinned l1 l3.
Proof.
  intros H12 H23. revert l1 H12.
  induction H23 as [|x l2 l3 H IH|x l2 l3 H IH]; intros l1 H12.
  - exact H12.
  - inversion H12; subst; constructor; auto.
  - constructor. auto.
Qed.

Lemma thinned_occurs (p t : text) : occurs_in p t -> thinned p t.
Proof.
  intros (a & b & ->).
  change p with ([] ++ p) at 1. apply thinned_app; [apply thinned_nil_l|].
  rewrite <- (app_nil_r p) at 1.
  apply thinned_app; [apply thinned_refl|apply thinned_nil_l].
Qed.

Lemma scattered_b_nil (t : text) : scattered_b [] t = true.
Proof. now destruct t. Qed.

Lemma scattered_b_tail (t : text) : forall a p,
  scattered_b (a :: p) t = true -> scattered_b p t = true.
Proof.
  induction t as [|c t IH]; intros a p; cbn [scattered_b]; [discriminate|].
  intros H. destruct p as [|b p]; [reflexivity|].
  assert (Hp : scattered_b (b :: p) t = true).
  { destruct (a =? c)%Z; [exact H|]. now apply IH in H. }
  destruct (b =? c)%Z; [|exact Hp]. now apply IH in Hp.
Qed.

(** Leaving characters out of a text brings no scattered occurrence. *)
Lemma scattered_thinned (t' t : text) :
  thinned t' t ->
  forall p, scattered_b p t' = true -> scattered_b p t = true.
Proof.
  induction 1 as [|x t' t H IH|x t' t H IH]; intros p Hp.
  - exact Hp.
  - cbn [scattered_b] in *. destruct p as [|a p]; [reflexivity|].
    destruct (a =? x)%Z; now apply IH.
  - cbn [scattered_b]. destruct p as [|a p]; [reflexivity|].
    apply IH in Hp. destruct (a =? x)%Z; [|exact Hp].
    now apply scattered_b_tail in Hp.
Qed.

Lemma scattered_b_refl (p : text) : scattered_b p p = true.
Proof.
  induction p as [|a p IH]; [reflexivity|]. cbn [scattered_b].
  now rewrite Z.eqb_refl.
Qed.

(** A text that does not hold the token text scattered does not hold it
    as a piece, and neither does a text thinned out of it. *)
Lemma not_scattered_thinned (x t : text) :
  scattered_b token_core t = false -> thinned x t ->
  occurs_b token_core x = false.
Proof.
  intros Ht Hx. destruct (occurs_b token_core x) eqn:E; [|reflexivity].
  apply occurs_b_spec in E. apply thinned_occurs in E.
  pose proof (scattered_thinned (thinned_trans E Hx) token_core
                (scattered_b_refl token_core)) as H.
  congruence.
Qed.

Lemma outside_thinned (its' its : list item) :
  thinned its' its -> thinned (outside its') (outside its).
Proof.
  induction 1 as [|x l' l H IH|x l' l H IH].
  - constructor.
  - cbn [outside flat_map]. apply thinned_app; [apply thinned_refl|exact IH].
  - cbn [outside flat_map].
    change (outside l') with ([] ++ outside l').
    apply thinned_app; [apply thinned_nil_l|exact IH].
Qed.

(** The text outside the placeholders and the spans are thinned out of
    the text that was protected. *)
Lemma protect_thinned (segs : list seg) :
  (forall m, In (Hit m) segs -> bracketed m) ->
  forall c,
    thinned (outside (items_of c segs)) (concat (map seg_text segs))
    /\ (forall m, In (Hit m) segs ->
          thinned m (concat (map seg_text segs))).
Proof.
  induction segs as [|[x|m] segs IH]; intros Hb c.
  - split; [constructor|]. intros m [].
  - destruct (IH (fun m Hm => Hb m (or_intror Hm)) c) as [H1 H2].
    cbn [items_of outside flat_map outside_item map concat seg_text app].
    split; [now constructor|].
    intros m [Hm|Hm]; [discriminate|]. constructor. now apply H2.
  - destruct (IH (fun m Hm => Hb m (or_intror Hm)) (S c)) as [H1 H2].
    destruct (Hb m (or_introl eq_refl)) as [body ->].
    cbn [items_of outside flat_map outside_item map concat seg_text].
    split.
    + apply thinned_app; [|exact H1].
      cbn [app]. constructor. apply thinned_nil_l.
    + intros m [Hm|Hm].
      * injection Hm as <-. rewrite <- (app_nil_r (_ :: _)) at 1.
        apply thinned_app; [apply thinned_refl|apply thinned_nil_l].
      * change (thinned ([] ++ m) ((c_lbracket :: body ++ [c_rbracket])
                                     ++ concat (map seg_text segs))).
        apply thinned_app; [apply thinned_nil_l|now apply H2].
Qed.

(** ** What the removals leave of the protected text *)

Lemma cuts_impl (Q Q' : text -> Prop) (t t' : text) :
  (forall m, Q m -> Q' m) -> cuts Q t t' -> cuts Q' t t'.
Proof. intros HQ H. induction H; constructor; auto. Qed.

(** [re.sub] with the empty replacement leaves out the matches the scan
    reports. *)
Lemma scan_go_cuts (r : regex) (P : text -> Prop) :
  (forall pre m post, lang r pre m post -> m <> [] /\ P m) ->
  forall s skip pre,
    cuts (fun m => In (Hit m) (scan_go r skip pre s) /\ P m)
      (skipn skip s) (flat_map (keep_out []) (scan_go r skip pre s)).
Proof.
  intros HP s. induction s as [|c s IH]; intros skip pre; cbn [scan_go].
  - rewrite skipn_nil.
    destruct (match_at r pre []) as [rest|] eqn:E; [|constructor].
    apply match_at_sound in E. destruct E as (m & Hm & Hl).
    apply HP in Hl. destruct Hl as [Hne _].
    symmetry in Hm. apply app_eq_nil in Hm. destruct Hm as [-> _].
    now contradiction Hne.
  - destruct skip as [|n]; [|apply IH].
    destruct (match_at r pre (c :: s)) as [rest|] eqn:E.
    + cbv zeta. apply match_at_sound in E. destruct E as (m & Hm & Hl).
      apply HP in Hl. destruct Hl as [Hne HD].
      destruct m as [|c' m]; [now contradiction Hne|].
      simpl in Hm. injection Hm as <- ->.
      assert (En : length (c :: m ++ rest) - length rest = S (length m))
        by (cbn [length]; rewrite length_app; lia).
      rewrite En.
      assert (Ef : firstn (S (length m)) (c :: m ++ rest) = c :: m).
      { rewrite <- En. exact (firstn_length_app (c :: m) rest). }
      rewrite Ef. cbn [flat_map keep_out app].
      change (skipn 0 (c :: m ++ rest)) with ((c :: m) ++ rest).
      apply cuts_cut; [split; [now left|exact HD]|].
      specialize (IH (length m) (c :: pre)).
      rewrite skipn_app, skipn_all, Nat.sub_diag in IH. cbn [skipn app] in IH.
      eapply cuts_impl; [|exact IH].
      intros x [Hx Px]. split; [now right|exact Px].
    + cbn [flat_map keep_out skipn app]. apply cuts_keep.
      eapply cuts_impl; [|exact (IH 0 (c :: pre))].
      intros x [Hx Px]. split; [now right|exact Px].
Qed.

Lemma render_nil_inv (its : list item) : render its = [] -> its = [].
Proof.
  destruct its as [|[c|i] its]; [reflexivity|discriminate|].
  cbn [render flat_map render_item]. rewrite placeholder_app. discriminate.
Qed.

(** A piece at the head of rendered items that ends with a character of
    no placeholder ends where an item ends. *)
Lemma render_split (y : char) (t : text) :
  ~ ph_char y ->
  forall its m0, render its = (m0 ++ [y]) ++ t ->
    exists its1 its2,
      its = its1 ++ its2 /\ render its1 = m0 ++ [y] /\ render its2 = t.
Proof.
  intros Hy. induction its as [|[c|i] its IH]; intros m0 E.
  - destruct m0; discriminate.
  - cbn [render flat_map render_item app] in E. fold (render its) in E.
    destruct m0 as [|c' m0].
    + injection E as -> E. exists [Lit y], its. auto.
    + injection E as -> E. destruct (IH m0 E) as (its1 & its2 & -> & E1 & E2).
      exists (Lit c' :: its1), its2. cbn [app render flat_map render_item].
      fold (render its1). rewrite E1. auto.
  - cbn [render flat_map render_item] in E. fold (render its) in E.
    apply app_eq_app in E. destruct E as (l & [[E1 E2]|[E1 E2]]).
    + exfalso. apply Hy. exists i. rewrite E1, !in_app_iff.
      left. right. now left.
    + destruct l as [|z l].
      * exfalso. apply Hy. exists i. rewrite app_nil_r in E1.
        rewrite <- E1, in_app_iff. right. now left.
      * destruct (@exists_last _ (z :: l)) as (l0 & y' & El);
          [discriminate|].
        rewrite El in E1, E2. rewrite app_assoc in E1.
        apply app_inj_tail in E1. destruct E1 as [-> <-].
        destruct (IH l0 E2) as (its1 & its2 & -> & R1 & R2).
        exists (Ph i :: its1), its2.
        cbn [app render flat_map render_item]. fold (render its1).
        rewrite R1, app_assoc. auto.
Qed.

Lemma placeholder_ph_chars (i : nat) (w : text) :
  (exists x, placeholder i = x ++ w) -> Forall ph_char w.
Proof.
  intros [x E]. apply Forall_forall. intros c Hc. exists i.
  rewrite E, in_app_iff. now right.
Qed.

(** Leaving out pieces with clean ends leaves out whole items: what
    stays is the rendering of items thinned out of the given ones, and a
    placeholder that is gone stood in one of the pieces. *)
Lemma cuts_render (Q : text -> Prop) :
  (forall m, Q m -> clean_ends m) ->
  forall x t', cuts Q x t' ->
  forall w its, Forall ph_char w -> x = w ++ render its ->
    exists its',
      t' = w ++ render its' /\ thinned its' its
      /\ (forall i, In (Ph i) its ->
            In (Ph i) its' \/ exists m, Q m /\ occurs_in (placeholder i) m).
Proof.
  intros HQ x t' H.
  induction H as [|c t t' H IH|m t t' Hm H IH]; intros w its Hw E.
  - symmetry in E. apply app_eq_nil in E. destruct E as [-> E].
    apply render_nil_inv in E. subst its. exists []. split; [reflexivity|].
    split; [constructor|]. intros i [].
  - destruct w as [|c' w].
    + destruct its as [|[c0|i0] its]; [discriminate| |].
      * cbn [app render flat_map render_item] in E. fold (render its) in E.
        injection E as -> E.
        destruct (IH [] its (Forall_nil _) E) as (its' & -> & Ht & Hp).
        exists (Lit c0 :: its'). split; [reflexivity|].
        split; [now constructor|].
        intros i [Hi|Hi]; [discriminate|].
        destruct (Hp i Hi) as [Hin|Hin]; [left; now right|now right].
      * cbn [app render flat_map render_item] in E. fold (render its) in E.
        destruct (placeholder i0) as [|p0 w0] eqn:Eph;
          [now apply placeholder_not_nil in Eph|].
        cbn [app] in E. injection E as -> E.
        assert (Hw0 : Forall ph_char w0).
        { apply placeholder_ph_chars with (i := i0). exists [p0].
          now rewrite Eph. }
        destruct (IH w0 its Hw0 E) as (its' & -> & Ht & Hp).
        exists (Ph i0 :: its'). cbn [render flat_map render_item app].
        fold (render its'). rewrite Eph. split; [reflexivity|].
        split; [now constructor|].
        intros i [Hi|Hi]; [left; now left|].
        destruct (Hp i Hi) as [Hin|Hin]; [left; now right|now right].
    + cbn [app] in E. injection E as -> E. inversion Hw as [|? ? _ Hw'].
      destruct (IH w its Hw' E) as (its' & -> & Ht & Hp).
      exists its'. auto.
  - destruct (HQ m Hm) as (x & m1 & m0 & y & E1 & E0 & Hx & Hy).
    assert (Ew : w = []).
    { destruct w as [|c' w]; [reflexivity|]. exfalso.
      inversion Hw as [|? ? Hc' _]. apply Hx.
      rewrite E1 in E. cbn [app] in E. injection E as -> _. exact Hc'. }
    subst w. cbn [app] in E. rewrite E0 in E. symmetry in E.
    destruct (@render_split y t Hy its m0 E) as (its1 & its2 & -> & R1 & R2).
    destruct (IH [] its2 (Forall_nil _) (eq_sym R2)) as (its' & -> & Ht & Hp).
    exists its'. split; [reflexivity|]. split.
    + change its' with ([] ++ its').
      apply thinned_app; [apply thinned_nil_l|exact Ht].
    + intros i Hi. apply in_app_iff in Hi. destruct Hi as [Hi|Hi].
      * right. exists m. split; [exact Hm|]. rewrite E0, <- R1.
        apply in_split in Hi. destruct Hi as (l1 & l2 & ->).
        rewrite render_app. cbn [render flat_map render_item].
        fold (render l2). now exists (render l1), (render l2).
      * destruct (Hp i Hi) as [Hin|Hin]; auto.
Qed.

(** The ends of a piece made of a class of characters no placeholder
    holds. *)
Lemma clean_ends_class (D : char -> bool) (m : text) :
  (forall i, Forall (fun c => D c = false) (placeholder i)) ->
  m <> [] -> Forall (fun c => D c = true) m -> clean_ends m.
Proof.
  intros HD Hne Hm.
  assert (Hc : forall c, In c m -> ~ ph_char c).
  { intros c Hc [i Hi]. rewrite Forall_forall in Hm.
    specialize (HD i). rewrite Forall_forall in HD.
    specialize (HD c Hi). rewrite (Hm c Hc) in HD. discriminate. }
  destruct m as [|x m1]; [contradiction|].
  destruct (@exists_last _ (x :: m1)) as (m0 & y & E); [discriminate|].
  exists x, m1, m0, y. split; [reflexivity|]. split; [exact E|]. split.
  - apply Hc. now left.
  - apply Hc. rewrite E, in_app_iff. right. now left.
Qed.

Lemma star_not_ph_char : ~ ph_char c_star.
Proof. intros [i H]. now apply placeholder_no_star in H. Qed.

Lemma clean_ends_emphasis (m : text) : emphasis_span m -> clean_ends m.
Proof.
  intros (k1 & int & k2 & -> & _).
  exists c_star, (repeat c_star k1 ++ int ++ repeat c_star (S k2)),
    (repeat c_star (S k1) ++ int ++ repeat c_star k2), c_star.
  split; [reflexivity|]. split.
  - rewrite <- !app_assoc. do 2 f_equal.
    change (repeat c_star k2 ++ [c_star])
      with (repeat c_star k2 ++ repeat c_star 1).
    rewrite <- repeat_app. now rewrite Nat.add_1_r.
  - split; exact star_not_ph_char.
Qed.

(** One removal on rendered items. *)
Lemma sub_render (r : regex) (P : text -> Prop) (its : list item) :
  (forall pre m post, lang r pre m post ->
     m <> [] /\ clean_ends m /\ P m) ->
  exists its',
    sub r [] (render its) = render its' /\ thinned its' its
    /\ (forall i, In (Ph i) its ->
          In (Ph i) its'
          \/ exists m, In m (hits (scan r (render its))) /\ P m
               /\ occurs_in (placeholder i) m).
Proof.
  intros HP.
  pose proof (@scan_go_cuts r (fun m => clean_ends m /\ P m)) as Hc.
  specialize (Hc (fun pre m post Hl =>
    match HP pre m post Hl with conj a b => conj a b end)
    (render its) 0 []).
  cbn [skipn] in Hc. fold (scan r (render its)) in Hc.
  fold (sub r [] (render its)) in Hc.
  eapply cuts_render with (w := []) (its := its) in Hc;
    [|intros m Hm; apply Hm|constructor|reflexivity].
  destruct Hc as (its' & E & Ht & Hp).
  exists its'. split; [exact E|]. split; [exact Ht|].
  intros i Hi. destruct (Hp i Hi) as [H|(m & (Hin & _ & HPm) & Hocc)];
    [now left|right].
  exists m. split; [now apply hits_in|]. auto.
Qed.

Lemma placeholder_first (i : nat) : exists w, placeholder i = c_underscore :: w.
Proof. rewrite placeholder_eq. eexists. reflexivity. Qed.

Lemma no_placeholder_in (m : text) (i : nat) :
  ~ In c_underscore m -> ~ occurs_in (placeholder i) m.
Proof.
  intros Hm (a & b & E). apply Hm. rewrite E.
  destruct (placeholder_first i) as [w ->].
  rewrite in_app_iff. right. now left.
Qed.

(** The removals after the emphasis removal take no placeholder. *)
Lemma sub_render_class (r : regex) (its : list item) :
  (forall pre m post, lang r pre m post ->
     m <> [] /\ clean_ends m /\ ~ In c_underscore m) ->
  exists its',
    sub r [] (render its) = render its' /\ thinned its' its
    /\ (forall i, In (Ph i) its -> In (Ph i) its').
Proof.
  intros HP.
  destruct (@sub_render r (fun m => ~ In c_underscore m) its HP)
    as (its' & E & Ht & Hp).
  exists its'. split; [exact E|]. split; [exact Ht|].
  intros i Hi. destruct (Hp i Hi) as [H|(m & _ & Hm & Hocc)]; [exact H|].
  now apply no_placeholder_in in Hocc.
Qed.

Lemma clean_ends_star : clean_ends [c_star].
Proof.
  exists c_star, [], [], c_star.
  repeat split; try reflexivity; exact star_not_ph_char.
Qed.

Lemma markdown_no_underscore (m : text) :
  Forall (fun c => markdown_char c = true) m -> ~ In c_underscore m.
Proof.
  intros Hm Hin. rewrite Forall_forall in Hm. apply Hm in Hin. discriminate.
Qed.

(** The four removals on rendered items: what stays is the rendering of
    items thinned out of the given ones, and a placeholder that is gone
    stood in a match of the emphasis pattern. *)
Lemma remove_markdown_render (its : list item) :
  exists its4,
    remove_markdown (render its) = render its4 /\ thinned its4 its
    /\ (forall i, In (Ph i) its ->
          In (Ph i) its4
          \/ exists m, In m (hits (scan re_asterisks (render its)))
               /\ occurs_in (placeholder i) m).
Proof.
  unfold remove_markdown.
  destruct (@sub_render re_asterisks (fun _ => True) its)
    as (its1 & E1 & T1 & P1).
  { intros pre m post Hl. apply lang_asterisks in Hl.
    split; [now apply emphasis_span_chars in Hl|].
    split; [now apply clean_ends_emphasis|exact I]. }
  rewrite E1.
  destruct (@sub_render_class re_lone_asterisk its1)
    as (its2 & E2 & T2 & P2).
  { intros pre m post Hl. apply lang_lone_asterisk in Hl. subst m.
    split; [discriminate|]. split; [exact clean_ends_star|].
    intros [H|[]]. discriminate. }
  rewrite E2.
  destruct (@sub_render_class re_header its2) as (its3 & E3 & T3 & P3).
  { intros pre m post Hl. apply lang_header in Hl.
    destruct Hl as (Hne & Hm & _). split; [exact Hne|]. split.
    - apply clean_ends_class with (D := markdown_char);
        auto using placeholder_no_markdown.
    - now apply markdown_no_underscore. }
  rewrite E3.
  destruct (@sub_render_class re_bullet its3) as (its4 & E4 & T4 & P4).
  { intros pre m post Hl. apply lang_bullet in Hl.
    destruct Hl as (Hne & Hm & _). split; [exact Hne|]. split.
    - apply clean_ends_class with (D := markdown_char);
        auto using placeholder_no_markdown.
    - now apply markdown_no_underscore. }
  exists its4. split; [exact E4|]. split.
  - eauto using thinned_trans.
  - intros i Hi. destruct (P1 i Hi) as [H|(m & Hm & _ & Hocc)].
    + left. auto.
    + right. exists m. auto.
Qed.

(** The span number [k] of a scan: its placeholder and its entry. *)
Lemma span_at (segs : list seg) : forall c k s,
  nth_error (hits segs) k = Some s ->
  In (Ph (c + k)) (items_of c segs)
  /\ lookup (c + k) (combine (seq c (length (hits segs))) (hits segs))
     = Some s.
Proof.
  induction segs as [|[x|m] segs IH]; intros c k s H.
  - destruct k; discriminate.
  - cbn [hits items_of] in *. destruct (IH c k s H) as [H1 H2].
    split; [now right|exact H2].
  - cbn [hits items_of length seq combine lookup] in *.
    destruct k as [|k].
    + cbn [nth_error] in H. injection H as ->. rewrite Nat.add_0_r.
      split; [now left|]. now rewrite Nat.eqb_refl.
    + cbn [nth_error] in H. destruct (IH (S c) k s H) as [H1 H2].
      replace (c + S k) with (S c + k) by lia.
      split; [now right|].
      replace (S c + k =? c) with false
        by (symmetry; apply Nat.eqb_neq; lia).
      exact H2.
Qed.

(** A protected span is in the output when the text does not hold the
    token text scattered and no match of the emphasis pattern holds the
    placeholder of the span. *)
Lemma protected_span_kept (t : text) (i : nat) (s : text) :
  scattered_b token_core t = false ->
  nth_error (protected_spans t) i = Some s ->
  (forall m, In m (hits (scan re_asterisks (snd (protect t)))) ->
     ~ occurs_in (placeholder i) m) ->
  occurs_in (collapse_spaces s) (filter_special_formatting t).
Proof.
  intros Ht Hs Hm. unfold filter_special_formatting.
  rewrite protect_eq in *. cbn [fst snd] in Hm.
  set (its0 := items_of 0 (scan re_live2d t)) in *.
  set (ps := combine (seq 0 (length (protected_spans t)))
                     (protected_spans t)).
  destruct (@protect_thinned (scan re_live2d t)
              (scan_live2d_bracketed t) 0) as [Hout Hspans].
  fold its0 in Hout. rewrite scan_text in Hout, Hspans.
  destruct (remove_markdown_render its0) as (its4 & E4 & T4 & P4).
  rewrite E4. rewrite restore_render_core.
  2:{ apply not_scattered_thinned with (t := t); [exact Ht|].
      apply thinned_trans with (l2 := outside its0); [|exact Hout].
      now apply outside_thinned. }
  2:{ intros j m H. apply in_combine_r in H. apply hits_in in H.
      split; [now apply scan_live2d_bracketed in H|].
      apply not_scattered_thinned with (t := t); auto. }
  destruct (@span_at (scan re_live2d t) 0 i s Hs) as [Hj Hlk].
  cbn [Nat.add] in Hj, Hlk. fold its0 in Hj.
  fold (protected_spans t) in Hlk. fold ps in Hlk.
  destruct (P4 i Hj) as [Hin|(m & Hin & Hocc)];
    [|now contradiction (Hm m Hin)].
  destruct (subst_all_occurs ps its4 i Hin Hlk) as (a & b & E).
  rewrite E.
  assert (Hb : bracketed s).
  { apply nth_error_In in Hs. apply hits_in in Hs.
    now apply scan_live2d_bracketed in Hs. }
  destruct Hb as [body ->]. unfold clean_spaces.
  destruct (@collapse_spaces_piece a body b c_lbracket c_rbracket)
    as [E1 E2]; [reflexivity|reflexivity|].
  rewrite E1, E2. now apply strip_keeps.
Qed.

(** C1 (as the code has it): the spans that [filter_special_formatting]
    protects are the matches, from the left, of an opening bracket, one or
    more characters other than the closing bracket, and a closing bracket;
    the first such span after bracket-free text is among them.  When the
    text does not hold the characters of the token text LIVE2D_PROTECT in
    this order, every protected span that does not stand inside emphasis
    occurs in the output with the whitespace runs inside it collapsed to
    one space, whatever markdown it holds, and so byte for byte when it
    holds no whitespace.  Of a span inside emphasis nothing is said. *)
Theorem protected_spans_survive :
  (forall t s,
     In s (protected_spans t) ->
     exists body, s = c_lbracket :: body ++ [c_rbracket]
       /\ body <> [] /\ ~ In c_rbracket body)
  /\ (forall a body b,
        ~ In c_lbracket a -> body <> [] -> ~ In c_rbracket body ->
        In (c_lbracket :: body ++ [c_rbracket])
           (protected_spans
              (a ++ (c_lbracket :: body ++ [c_rbracket]) ++ b)))
  /\ (forall t i s,
        scattered_b token_core t = false ->
        nth_error (protected_spans t) i = Some s ->
        ~ in_emphasis t i ->
        occurs_in (collapse_spaces s) (filter_special_formatting t))
  /\ (forall t i s,
        scattered_b token_core t = false ->
        nth_error (protected_spans t) i = Some s ->
        ~ in_emphasis t i ->
        (forall c, In c s -> isspace c = false) ->
        occurs_in s (filter_special_formatting t)).
Proof.
  assert (H : forall t i s,
            scattered_b token_core t = false ->
            nth_error (protected_spans t) i = Some s ->
            ~ in_emphasis t i ->
            occurs_in (collapse_spaces s) (filter_special_formatting t)).
  { intros t i s Ht Hs Hm. apply protected_span_kept with (i := i); auto.
    intros m Hin Hocc. apply Hm. now exists m. }
  split; [exact protected_span_shape|].
  split; [exact protected_span_found|].
  split; [exact H|].
  intros t i s Ht Hs Hm Hfree.
  rewrite <- (collapse_spaces_free s Hfree).
  now apply H with (i := i).
Qed.

Lemma protected_spans_survive_witness :
  let t := of_string "[smile] *happy* ## Header" ++ [c_nl]
             ++ of_string "- item [happy_face]" in
  scattered_b token_core t = false
  /\ nth_error (protected_spans t) 0 = Some (of_string "[smile]")
  /\ nth_error (protected_spans t) 1 = Some (of_string "[happy_face]")
  /\ ~ in_emphasis t 0 /\ ~ in_emphasis t 1
  /\ occurs_in (of_string "[smile]") (filter_special_formatting t)
  /\ occurs_in (of_string "[happy_face]") (filter_special_formatting t).
Proof.
  intros t.
  assert (H0 : scattered_b token_core t = false) by reflexivity.
  assert (H1 : nth_error (protected_spans t) 0 = Some (of_string "[smile]"))
    by reflexivity.
  assert (H2 : nth_error (protected_spans t) 1
               = Some (of_string "[happy_face]")) by reflexivity.
  assert (H3 : forall i, ~ in_emphasis t i).
  { intros i (m & Hin & Hocc).
    assert (Hm : m = of_string "*happy*").
    { vm_compute in Hin. destruct Hin as [Hin|[]]. now subst m. }
    subst m. revert Hocc. apply no_placeholder_in.
    apply not_in_b. reflexivity. }
  assert (F1 : forall c, In c (of_string "[smile]") -> isspace c = false).
  { intros c Hc. apply (proj1 (forallb_forall (fun c => negb (isspace c))
      (of_string "[smile]"))) in Hc; [|reflexivity].
    now apply negb_true_iff in Hc. }
  assert (F2 : forall c, In c (of_string "[happy_face]") ->
                 isspace c = false).
  { intros c Hc. apply (proj1 (forallb_forall (fun c => negb (isspace c))
      (of_string "[happy_face]"))) in Hc; [|reflexivity].
    now apply negb_true_iff in Hc. }
  split; [exact H0|]. split; [exact H1|]. split; [exact H2|].
  split; [exact (H3 0)|]. split; [exact (H3 1)|]. split.
  - exact (proj2 (proj2 (proj2 protected_spans_survive))
             t 0 (of_string "[smile]") H0 H1 (H3 0) F1).
  - exact (proj2 (proj2 (proj2 protected_spans_survive))
             t 1 (of_string "[happy_face]") H0 H2 (H3 1) F2).
Defined.

(** C1, as the claim states it: whitespace inside a span is collapsed by
    the clean-up that runs after the restore step; a span between two
    asterisks goes with the emphasis around it; and a token text that the
    removals put together out of the text takes a span with it, although
    the text itself does not hold the token text. *)
Lemma protected_span_lost_or_changed :
  (In (of_string "[a  b]") (protected_spans (of_string "[a  b]"))
   /\ filter_special_formatting (of_string "[a  b]") = of_string "[a b]")
  /\ (In (of_string "[smile]") (protected_spans (of_string "*[smile]*"))
      /\ filter_special_formatting (of_string "*[smile]*") = [])
  /\ (let t := of_string "[a][b]LIVE2D_PRO*TECT_0__" in
      In (of_string "[b]") (protected_spans t)
      /\ ~ occurs_in token_core t
      /\ filter_special_formatting t = of_string "[a]__LIVE2D_PROTECT_1[a]"
      /\ ~ occurs_in (of_string "[b]") (filter_special_formatting t)).
Proof.
  split; [split; [now left|reflexivity]|].
  split; [split; [now left|reflexivity]|].
  intros t. split; [vm_compute; right; left; reflexivity|].
  split; [apply occurs_b_false; vm_compute; reflexivity|].
  split; [vm_compute; reflexivity|].
  apply occurs_b_false. vm_compute. reflexivity.
Qed.

(* ------------------------------------------------------------------ *)
(** * Further properties of the text filters *)

(** ** The shape of cleaned text *)

Lemma collapse_go_spaced (t : text) : forall b,
  single_spaced b (collapse_go b t).
Proof.
  induction t as [|c t IH]; intros b; simpl; [exact I|].
  destruct (isspace c) eqn:Ec.
  - destruct b; [apply IH|].
    simpl. change (isspace c_space) with true. cbv iota.
    repeat split. apply IH.
  - simpl. rewrite Ec. apply IH.
Qed.

Lemma single_spaced_fixed (u : text) : forall b,
  single_spaced b u -> collapse_go b u = u.
Proof.
  induction u as [|c u IH]; intros b; simpl; [reflexivity|].
  destruct (isspace c) eqn:Ec.
  - intros (-> & -> & H). f_equal. now apply IH.
  - intros H. f_equal. now apply IH.
Qed.

Lemma single_spaced_lstrip (u : text) : forall b,
  single_spaced b u -> single_spaced false (lstrip u).
Proof.
  induction u as [|c u IH]; intros b; simpl; [trivial|].
  destruct (isspace c) eqn:Ec.
  - intros (_ & _ & H). now apply IH with (b := true).
  - intros H. simpl. now rewrite Ec.
Qed.

Lemma single_spaced_prefix (p w : text) : forall b,
  single_spaced b (p ++ w) -> single_spaced b p.
Proof.
  induction p as [|c p IH]; intros b; simpl; [trivial|].
  destruct (isspace c).
  - intros (H1 & H2 & H). repeat split; trivial. now apply IH.
  - apply IH.
Qed.

Lemma lstrip_suffix (y : text) : exists w, y = w ++ lstrip y.
Proof.
  induction y as [|c y [w IH]]; [now exists []|]. simpl.
  destruct (isspace c).
  - exists (c :: w). simpl. now f_equal.
  - now exists [].
Qed.

Lemma rstrip_prefix (x : text) : exists w, x = rev (lstrip (rev x)) ++ w.
Proof.
  destruct (lstrip_suffix (rev x)) as [w Hw].
  exists (rev w). rewrite <- rev_app_distr, <- Hw. now rewrite rev_involutive.
Qed.

Lemma lstrip_first (y : text) : not_first isspace (lstrip y).
Proof.
  induction y as [|c y IH]; simpl; [exact I|].
  destruct (isspace c) eqn:Ec; [exact IH|]. simpl. exact Ec.
Qed.

Lemma lstrip_id (y : text) : not_first isspace y -> lstrip y = y.
Proof. destruct y as [|c y]; simpl; [trivial|]. now intros ->. Qed.

Lemma not_first_prefix (p : char -> bool) (x w : text) :
  not_first p (x ++ w) -> not_first p x.
Proof. destruct x; simpl; trivial. Qed.

(** What [clean_spaces] returns, in the three facts the proofs below
    use. *)
Lemma clean_spaces_shape (t : text) :
  single_spaced false (clean_spaces t)
  /\ not_first isspace (clean_spaces t)
  /\ not_first isspace (rev (clean_spaces t)).
Proof.
  unfold clean_spaces, strip. rewrite collapse_spaces_eq.
  set (v := lstrip (collapse_go false t)).
  assert (Hv : single_spaced false v)
    by (apply single_spaced_lstrip with (b := false), collapse_go_spaced).
  assert (Hf : not_first isspace v) by apply lstrip_first.
  destruct (rstrip_prefix v) as [w Hw].
  repeat split.
  - apply single_spaced_prefix with (w := w). now rewrite <- Hw.
  - apply not_first_prefix with (w := w). now rewrite <- Hw.
  - rewrite rev_involutive. apply lstrip_first.
Qed.

Lemma clean_spaces_fixed (u : text) :
  single_spaced false u -> not_first isspace u ->
  not_first isspace (rev u) -> clean_spaces u = u.
Proof.
  intros Hs Hf Hl. unfold clean_spaces, strip.
  rewrite collapse_spaces_eq, (single_spaced_fixed _ _ Hs).
  rewrite (lstrip_id _ Hf), (lstrip_id _ Hl). apply rev_involutive.
Qed.

Lemma clean_spaces_idempotent (t : text) :
  clean_spaces (clean_spaces t) = clean_spaces t.
Proof.
  destruct (clean_spaces_shape t) as (H1 & H2 & H3).
  now apply clean_spaces_fixed.
Qed.

Lemma single_spaced_in (u : text) : forall b c,
  single_spaced b u -> In c u -> isspace c = true -> c = c_space.
Proof.
  induction u as [|a u IH]; intros b c; simpl; [tauto|].
  destruct (isspace a) eqn:Ea.
  - intros (Ha & _ & H) [<-|Hin] Hc; [exact Ha|]. now apply IH with (b := true).
  - intros H [<-|Hin] Hc; [congruence|]. now apply IH with (b := false).
Qed.

Lemma single_spaced_no_pair (a : text) : forall b u,
  single_spaced b (a ++ c_space :: c_space :: u) -> False.
Proof.
  induction a as [|x a IH]; intros b u; simpl.
  - change (isspace c_space) with true. cbv iota.
    intros (_ & _ & _ & H & _). discriminate.
  - destruct (isspace x); [intros (_ & _ & H)|intros H]; eapply IH; eauto.
Qed.

Lemma shape_tidy (u : text) :
  single_spaced false u -> not_first isspace u ->
  not_first isspace (rev u) -> tidy u.
Proof.
  intros Hs Hf Hl. repeat split.
  - intros c Hin Hc. now apply single_spaced_in with (u := u) (b := false).
  - intros (a & b & E). rewrite E in Hs. simpl in Hs.
    now apply single_spaced_no_pair in Hs.
  - intros c u' ->. exact Hf.
  - intros c u' ->. rewrite rev_app_distr in Hl. exact Hl.
Qed.

Lemma clean_spaces_tidy (t : text) : tidy (clean_spaces t).
Proof.
  destruct (clean_spaces_shape t) as (H1 & H2 & H3). now apply shape_tidy.
Qed.

(** X1.  Every filter that ends with the whitespace clean-up
    ([filter_asterisks], [_filter_nested], [filter_numbered_lists],
    [filter_special_formatting]) returns tidy text, whatever the input:
    the only whitespace character of the output is the space, no two
    spaces are adjacent, and the output neither begins nor ends with
    whitespace. *)
Theorem stage_outputs_tidy (U : unicodedata) (t : text) (left right : char) :
  tidy (filter_asterisks t)
  /\ tidy (_filter_nested t left right)
  /\ tidy (filter_numbered_lists U t)
  /\ tidy (filter_special_formatting t).
Proof.
  repeat split; try apply clean_spaces_tidy.
  - destruct t as [|c t]; [|now apply clean_spaces_tidy]. simpl. tauto.
  - destruct t; simpl; [|apply clean_spaces_tidy]. intros (a & b & E).
    now destruct a.
  - destruct t as [|c t]; [discriminate|]. intros c0 u' E.
    destruct (clean_spaces_tidy
      (fst (nested_loop left right (c :: t)))) as (_ & _ & H & _).
    now apply (H c0 u').
  - destruct t as [|c t]; [intros c0 u' E; now destruct u'|]. intros c0 u' E.
    destruct (clean_spaces_tidy
      (fst (nested_loop left right (c :: t)))) as (_ & _ & _ & H).
    now apply (H c0 u').
  - unfold filter_special_formatting. destruct (protect t) as [[ps n] t1].
    apply clean_spaces_tidy.
  - unfold filter_special_formatting. destruct (protect t) as [[ps n] t1].
    apply clean_spaces_tidy.
  - unfold filter_special_formatting. destruct (protect t) as [[ps n] t1].
    apply clean_spaces_tidy.
  - unfold filter_special_formatting. destruct (protect t) as [[ps n] t1].
    apply clean_spaces_tidy.
Qed.

(** ** The nested stripper applied twice, and spans that vanish *)

Lemma filter_nested_chars (t : text) (left right x : char) :
  In x (_filter_nested t left right) ->
  (In x t /\ x <> left /\ x <> right) \/ (x = c_space /\ t <> []).
Proof.
  destruct t as [|c t]; [intros []|]. unfold _filter_nested.
  intros H. apply clean_spaces_in in H. destruct H as [H|H].
  - unfold nested_loop in H. rewrite nested_fold in H. cbn [app] in H.
    apply nested_out_in in H. tauto.
  - right. split; [exact H|discriminate].
Qed.

(** X2.  A second pass of the nested stripper changes nothing: for
    delimiters other than the space, [_filter_nested] applied to its own
    output returns that output.  (With the space as a delimiter the
    clean-up could write a delimiter into the output.) *)
Theorem filter_nested_idempotent (t : text) (left right : char) :
  left <> c_space -> right <> c_space ->
  _filter_nested (_filter_nested t left right) left right
  = _filter_nested t left right.
Proof.
  intros Hl Hr. rewrite filter_nested_clean.
  - destruct t as [|c t]; [reflexivity|]. apply clean_spaces_idempotent.
  - intros H. apply filter_nested_chars in H. destruct H as [H|[H _]].
    + tauto.
    + now apply Hl.
  - intros H. apply filter_nested_chars in H. destruct H as [H|[H _]].
    + tauto.
    + now apply Hr.
Qed.

Lemma filter_nested_idempotent_witness :
  c_lbracket <> c_space /\ c_rbracket <> c_space
  /\ filter_brackets (filter_brackets (of_string "a [b [c]] d ] e"))
     = filter_brackets (of_string "a [b [c]] d ] e").
Proof.
  assert (Hl : c_lbracket <> c_space) by discriminate.
  assert (Hr : c_rbracket <> c_space) by discriminate.
  split; [exact Hl|]. split; [exact Hr|].
  exact (@filter_nested_idempotent (of_string "a [b [c]] d ] e")
           c_lbracket c_rbracket Hl Hr).
Defined.

Lemma nested_skip (left right : char) (x : text) : forall res d,
  (0 < d)%Z -> ~ In left x -> ~ In right x ->
  fold_left (nested_step left right) x (res, d) = (res, d).
Proof.
  induction x as [|c x IH]; intros res d Hd Hl Hr; [reflexivity|].
  simpl in Hl, Hr. cbn [fold_left]. unfold nested_step at 2.
  destruct (Z.eqb_spec c left) as [->|_]; [tauto|].
  destruct (Z.eqb_spec c right) as [->|_]; [tauto|].
  destruct (Z.eqb_spec d 0) as [->|_]; [lia|].
  apply IH; tauto.
Qed.

(** X3.  A delimited span without delimiters inside it contributes
    nothing, wherever it stands (also inside another span, and also when
    the span is empty): the loop of [_filter_nested] ends in the same
    result and depth as on the text without the span, so the function
    returns the same text. *)
Theorem nested_span_vanishes (left right : char) (a x b : text) :
  left <> right -> ~ In left x -> ~ In right x ->
  nested_loop left right (a ++ left :: x ++ right :: b)
  = nested_loop left right (a ++ b)
  /\ _filter_nested (a ++ left :: x ++ right :: b) left right
     = _filter_nested (a ++ b) left right.
Proof.
  intros Hlr Hl Hr.
  assert (E : nested_loop left right (a ++ left :: x ++ right :: b)
              = nested_loop left right (a ++ b)).
  { unfold nested_loop. rewrite !fold_left_app.
    assert (Hd : (0 <= snd (fold_left (nested_step left right) a
                              ([], 0%Z)))%Z)
      by (apply nested_depth_nonneg; lia).
    destruct (fold_left (nested_step left right) a ([], 0%Z)) as [res d]
      eqn:Ea.
    simpl in Hd. cbn [fold_left]. unfold nested_step at 2.
    rewrite Z.eqb_refl. rewrite fold_left_app.
    rewrite nested_skip by (trivial; lia).
    cbn [fold_left]. unfold nested_step at 2.
    destruct (Z.eqb_spec right left) as [E|_]; [congruence|].
    rewrite Z.eqb_refl.
    destruct (Z.gtb_spec (d + 1) 0) as [_|H]; [|lia].
    now rewrite Z.add_simpl_r. }
  split; [exact E|].
  unfold _filter_nested. rewrite E.
  destruct (a ++ b) eqn:Eab.
  - destruct a; reflexivity.
  - destruct a; reflexivity.
Qed.

Lemma nested_span_vanishes_witness :
  c_lparen <> c_rparen
  /\ ~ In c_lparen (of_string "x y") /\ ~ In c_rparen (of_string "x y")
  /\ filter_parentheses (of_string "a (b" ++ c_lparen :: of_string "x y"
                           ++ c_rparen :: of_string ") c")
     = filter_parentheses (of_string "a (b" ++ of_string ") c").
Proof.
  assert (H1 : c_lparen <> c_rparen) by discriminate.
  assert (H2 : ~ In c_lparen (of_string "x y"))
    by (apply not_in_b; reflexivity).
  assert (H3 : ~ In c_rparen (of_string "x y"))
    by (apply not_in_b; reflexivity).
  split; [exact H1|]. split; [exact H2|]. split; [exact H3|].
  exact (proj2 (@nested_span_vanishes c_lparen c_rparen (of_string "a (b")
                  (of_string "x y") (of_string ") c") H1 H2 H3)).
Defined.

(** ** Delimiters after [tts_filter] *)

Lemma when_nested_keeps (b : bool) (left right : char) (u : text) (x : char) :
  x <> c_space ->
  In x (when b (recover (fun t => Ok (_filter_nested t left right))) u) ->
  In x u /\ (b = true -> x <> left /\ x <> right).
Proof.
  intros Hx. destruct b; unfold when, recover.
  - intros H. apply filter_nested_chars in H. destruct H as [H|[H _]]; tauto.
  - intros H. split; [exact H|discriminate].
Qed.

(** X4.  With the special-character filter off and no translator,
    [tts_filter] returns a text, and that text contains no square bracket
    when [ignore_brackets] is set, no parenthesis when
    [ignore_parentheses] is set and no angle bracket when
    [ignore_angle_brackets] is set, whatever the other flags are: the
    stages that run after a stripper only delete characters or write
    spaces. *)
Theorem tts_filter_delimiters_gone (U : unicodedata) (t : text)
    (ib ip ia iab : bool) (lg : log) :
  exists t',
    fst (tts_filter U t false ib ip ia iab None lg) = Ok t'
    /\ (ib = true -> ~ In c_lbracket t' /\ ~ In c_rbracket t')
    /\ (ip = true -> ~ In c_lparen t' /\ ~ In c_rparen t')
    /\ (iab = true -> ~ In c_langle t' /\ ~ In c_rangle t').
Proof.
  unfold tts_filter. rewrite tts_filter_with_spec. cbn [fst].
  rewrite dispatch_spec_text. eexists. split; [reflexivity|].
  cbn [translated when module_stages st_asterisks st_brackets
       st_parentheses st_angle_brackets st_special_characters].
  set (t1 := when ia _ t).
  assert (K : forall x, x <> c_space ->
    In x (when iab (recover (fun t => Ok (filter_angle_brackets t)))
           (when ip (recover (fun t => Ok (filter_parentheses t)))
             (when ib (recover (fun t => Ok (filter_brackets t))) t1))) ->
    (iab = true -> x <> c_langle /\ x <> c_rangle)
    /\ (ip = true -> x <> c_lparen /\ x <> c_rparen)
    /\ (ib = true -> x <> c_lbracket /\ x <> c_rbracket)).
  { intros x Hx H.
    apply when_nested_keeps in H; [|exact Hx]. destruct H as [H Ha].
    apply when_nested_keeps in H; [|exact Hx]. destruct H as [H Hp].
    apply when_nested_keeps in H; [|exact Hx]. destruct H as [H Hb].
    tauto. }
  repeat split; intros Hin; apply K in Hin; try discriminate;
    destruct Hin as (H1 & H2 & H3); tauto.
Qed.

(** ** The asterisks that are left *)

Lemma lone_stars_cons (a : char) (u : text) :
  lone_stars (a :: u)
  <-> (a = c_star -> not_first (is_char c_star) u) /\ lone_stars u.
Proof.
  destruct u as [|b u]; cbn [lone_stars not_first]; [tauto|].
  unfold is_char. destruct (Z.eqb_spec b c_star) as [Hb|Hb].
  - split; intros [H1 H2]; split; trivial; intros Ha.
    + now destruct (H1 Ha).
    + discriminate (H1 Ha).
  - tauto.
Qed.

Lemma lone_stars_suffix (w y : text) : lone_stars (w ++ y) -> lone_stars y.
Proof.
  induction w as [|a w IH]; [trivial|]. rewrite <- app_comm_cons.
  intros H. apply lone_stars_cons in H. tauto.
Qed.

Lemma lone_stars_prefix (p w : text) : lone_stars (p ++ w) -> lone_stars p.
Proof.
  induction p as [|a p IH]; [intros _; exact I|]. rewrite <- app_comm_cons.
  intros H. apply lone_stars_cons in H. apply lone_stars_cons.
  destruct H as [H1 H2]. split; [|tauto].
  intros Ha. apply not_first_prefix with (w := w). auto.
Qed.

Lemma open_span_two (s : text) : forall cnt,
  open_span cnt (c_star :: c_star :: s) <> None.
Proof.
  intros cnt. cbn [open_span]. rewrite Z.eqb_refl.
  change (S cnt <? 1) with false. cbv iota.
  cbn [close_span]. rewrite Z.eqb_refl.
  destruct (open_span (S (S cnt)) s); discriminate.
Qed.

Lemma open_span_other (c : char) (s : text) :
  c <> c_star -> open_span 0 (c :: s) = None.
Proof.
  intros Hc. cbn [open_span]. now destruct (Z.eqb_spec c c_star).
Qed.

Lemma scan_asterisks_first (pre s : text) :
  not_first (is_char c_star) s ->
  not_first (is_char c_star)
    (flat_map (keep_out []) (scan_go re_asterisks 0 pre s)).
Proof.
  destruct s as [|c s]; cbn [scan_go not_first]; rewrite match_at_asterisks.
  - intros _. exact I.
  - unfold is_char. intros Hc. rewrite open_span_other.
    + cbn [flat_map keep_out app not_first]. exact Hc.
    + intros ->. discriminate.
Qed.

(** What [re.sub] with the emphasis pattern leaves has no two asterisks
    side by side. *)
Lemma scan_asterisks_lone (s : text) : forall skip pre,
  lone_stars (flat_map (keep_out []) (scan_go re_asterisks skip pre s)).
Proof.
  induction s as [|c s IH]; intros skip pre; cbn [scan_go].
  - rewrite match_at_asterisks. exact I.
  - destruct skip as [|n]; [|apply IH].
    destruct (match_at re_asterisks pre (c :: s)) as [rest|] eqn:E.
    + destruct (match_at_sound _ _ _ E) as (m & Em & Hm).
      apply lang_asterisks, emphasis_span_chars in Hm.
      destruct Hm as (Hne & _). rewrite Em, length_app.
      replace (length m + length rest - length rest) with (length m) by lia.
      destruct m as [|x m]; [contradiction|].
      cbn [length flat_map keep_out app]. apply IH.
    + cbn [flat_map keep_out app]. apply lone_stars_cons.
      split; [|apply IH]. intros ->. apply scan_asterisks_first.
      rewrite match_at_asterisks in E.
      destruct s as [|b s]; [exact I|]. cbn [not_first]. unfold is_char.
      destruct (Z.eqb_spec b c_star) as [->|]; [|reflexivity].
      now apply open_span_two in E.
Qed.

Lemma match_at_lone_hit (pre s : text) :
  not_first (is_char c_star) pre -> not_first (is_char c_star) s ->
  match_at re_lone_asterisk pre (c_star :: s) = Some s.
Proof.
  intros Hp Hs. unfold match_at, re_lone_asterisk.
  destruct pre as [|p pre]; destruct s as [|b s]; simpl in *;
    try rewrite Hp; try rewrite Hs; reflexivity.
Qed.

Lemma match_at_lone_other (pre s : text) :
  not_first (is_char c_star) s -> match_at re_lone_asterisk pre s = None.
Proof.
  intros Hs. unfold match_at, re_lone_asterisk.
  destruct pre as [|p pre]; destruct s as [|b s]; simpl in *;
    try rewrite Hs; try destruct (is_char c_star p); reflexivity.
Qed.

(** On such a text the lone-asterisk pattern takes every asterisk. *)
Lemma scan_lone_none (s : text) : forall pre,
  lone_stars s ->
  not_first (is_char c_star) pre \/ not_first (is_char c_star) s ->
  ~ In c_star (flat_map (keep_out []) (scan_go re_lone_asterisk 0 pre s)).
Proof.
  induction s as [|c s IH]; intros pre Hs Hor; cbn [scan_go].
  - rewrite match_at_lone_other by exact I. intros [].
  - apply lone_stars_cons in Hs. destruct Hs as [Hc Hs].
    destruct (Z.eqb_spec c c_star) as [->|Hne].
    + destruct Hor as [Hp|Hx]; [|discriminate Hx].
      rewrite match_at_lone_hit by auto.
      replace (length (c_star :: s) - length s) with 1
        by (cbn [length]; lia).
      cbn [flat_map keep_out app]. apply IH; auto.
    + assert (Hf : not_first (is_char c_star) (c :: s)).
      { cbn [not_first]. unfold is_char. now apply Z.eqb_neq. }
      rewrite match_at_lone_other by exact Hf.
      cbn [flat_map keep_out app]. intros [E|Hin]; [congruence|].
      revert Hin. apply IH; auto.
Qed.

Lemma asterisk_steps_none (t : text) :
  ~ In c_star (sub re_lone_asterisk [] (sub re_asterisks [] t)).
Proof.
  unfold sub at 1, scan. apply scan_lone_none.
  - apply scan_asterisks_lone.
  - left. exact I.
Qed.

Lemma render_no_hits (l : list seg) : forall n,
  hits l = [] -> render (items_of n l) = concat (map seg_text l).
Proof.
  induction l as [|[c|m] l IH]; intros n H; [reflexivity| |discriminate].
  cbn [items_of map concat seg_text]. unfold render in *.
  cbn [flat_map render_item app]. f_equal. now apply IH.
Qed.

Lemma remove_markdown_no_asterisk (t : text) :
  ~ In c_star (remove_markdown t).
Proof.
  unfold remove_markdown. intros H.
  apply sub_in in H. destruct H as [H|[]].
  apply sub_in in H. destruct H as [H|[]].
  now apply asterisk_steps_none in H.
Qed.

(** X5.  The four removals of [filter_special_formatting] leave no
    asterisk at all in the text they are run on: the emphasis pattern
    leaves no two asterisks side by side, and the lone-asterisk pattern
    then takes every one that is left.  So an asterisk of the output can
    only come from a restored span: on a text without a protected span the
    function is the removals followed by the clean-up, and its output has
    no asterisk. *)
Theorem special_formatting_no_asterisk (t : text) :
  ~ In c_star (remove_markdown t)
  /\ (protected_spans t = [] ->
      filter_special_formatting t = clean_spaces (remove_markdown t)
      /\ ~ In c_star (filter_special_formatting t)).
Proof.
  split; [apply remove_markdown_no_asterisk|]. intros H.
  assert (E : filter_special_formatting t = clean_spaces (remove_markdown t)).
  { unfold filter_special_formatting. rewrite protect_eq, H.
    cbn [length seq combine map restore fold_left].
    unfold protected_spans in H.
    now rewrite (render_no_hits _ 0 H), scan_text. }
  split; [exact E|]. rewrite E. intros Hin.
  apply clean_spaces_in in Hin. destruct Hin as [Hin|Hin]; [|discriminate].
  now apply remove_markdown_no_asterisk in Hin.
Qed.

Lemma special_formatting_no_asterisk_witness :
  protected_spans (of_string "# *a* [] **b* c * d") = []
  /\ ~ In c_star (filter_special_formatting (of_string "# *a* [] **b* c * d")).
Proof.
  assert (H : protected_spans (of_string "# *a* [] **b* c * d") = [])
    by reflexivity.
  split; [exact H|].
  exact (proj2 (proj2 (special_formatting_no_asterisk
                         (of_string "# *a* [] **b* c * d")) H)).
Defined.

Lemma collapse_go_first (t : text) :
  not_first (is_char c_star) t ->
  not_first (is_char c_star) (collapse_go false t).
Proof.
  destruct t as [|c t]; cbn [collapse_go not_first]; [trivial|].
  destruct (isspace c); [reflexivity|trivial].
Qed.

Lemma collapse_go_lone (t : text) : forall b,
  lone_stars t -> lone_stars (collapse_go b t).
Proof.
  induction t as [|c t IH]; intros b H; [exact I|].
  apply lone_stars_cons in H. destruct H as [Hc H]. cbn [collapse_go].
  destruct (isspace c) eqn:Ec.
  - destruct b; [now apply IH|]. apply lone_stars_cons.
    split; [discriminate|now apply IH].
  - apply lone_stars_cons. split; [|now apply IH].
    intros Ha. apply collapse_go_first. auto.
Qed.

(** X6.  [filter_asterisks] never returns two asterisks side by side: a
    run of two or more asterisks is always removed, and the clean-up
    brings no two kept asterisks together. *)
Theorem filter_asterisks_no_double (t : text) :
  lone_stars (filter_asterisks t)
  /\ forall a b, filter_asterisks t <> a ++ c_star :: c_star :: b.
Proof.
  assert (H : lone_stars (filter_asterisks t)).
  { unfold filter_asterisks, clean_spaces, strip.
    rewrite collapse_spaces_eq.
    set (v := lstrip (collapse_go false (sub re_asterisks [] t))).
    assert (Hv : lone_stars v).
    { destruct (lstrip_suffix (collapse_go false (sub re_asterisks [] t)))
        as [w Hw].
      apply lone_stars_suffix with (w := w). fold v in Hw. rewrite <- Hw.
      apply collapse_go_lone. apply scan_asterisks_lone. }
    destruct (rstrip_prefix v) as [w Hw].
    apply lone_stars_prefix with (w := w). now rewrite <- Hw. }
  split; [exact H|]. intros a b E. rewrite E in H.
  apply lone_stars_suffix in H. apply lone_stars_cons in H.
  destruct H as [H _]. discriminate (H eq_refl).
Qed.

(** ** List markers and bullets *)

(** A match the scan reports was found at the position the segments
    before it lead to. *)
Lemma scan_go_hit_pos (r : regex) (s : text) : forall skip pre l1 m l2,
  scan_go r skip pre s = l1 ++ Hit m :: l2 ->
  exists post,
    lang r (rev (firstn skip s ++ concat (map seg_text l1)) ++ pre) m post.
Proof.
  induction s as [|c s IH]; intros skip pre l1 m l2 H; cbn [scan_go] in H.
  - destruct (match_at r pre []) as [rest|] eqn:E.
    + destruct l1 as [|sg l1]; cbn [app] in H.
      * injection H as <-.
        apply match_at_sound in E. destruct E as (m & Hm & Hl).
        symmetry in Hm. apply app_eq_nil in Hm. destruct Hm as [-> ->].
        exists []. rewrite firstn_nil. exact Hl.
      * injection H as _ H. now destruct l1.
    + now destruct l1.
  - assert (Hstep : forall n l,
      scan_go r n (c :: pre) s = l ++ Hit m :: l2 ->
      exists post,
        lang r (rev (c :: firstn n s ++ concat (map seg_text l)) ++ pre)
          m post).
    { intros n l Hl. apply IH in Hl. destruct Hl as [post Hl].
      exists post. cbn [rev]. now rewrite <- app_assoc. }
    destruct skip as [|n]; [|exact (Hstep n l1 H)].
    cbn [firstn app].
    destruct (match_at r pre (c :: s)) as [rest|] eqn:E.
    + pose proof (match_at_sound _ _ _ E) as (m0 & Hm & Hl).
      assert (Hf : firstn (length (c :: s) - length rest) (c :: s) = m0)
        by (rewrite Hm; apply firstn_length_app).
      cbv zeta in H. rewrite Hf in H.
      remember (length (c :: s) - length rest) as n eqn:En.
      destruct l1 as [|sg l1].
      * injection H as <- _. exists rest. exact Hl.
      * injection H as <- H. cbn [map concat seg_text].
        destruct n as [|n].
        -- cbn [firstn] in Hf. subst m0. cbn [app].
           destruct l1 as [|sg l1]; [discriminate|].
           injection H as <- H. cbn [map concat seg_text app].
           exact (Hstep 0 l1 H).
        -- cbn [firstn] in Hf. subst m0.
           destruct (Hstep n l1 H) as [post Hp]. exists post.
           cbn [app]. exact Hp.
    + destruct l1 as [|sg l1]; cbn [app] in H; [discriminate|].
      injection H as <- H. cbn [map concat seg_text app].
      exact (Hstep 0 l1 H).
Qed.

(** X7.  Each of the three list-marker substitutions of
    [filter_numbered_lists] and the bullet substitution of
    [filter_special_formatting] takes, in the text it is applied to, only
    matches that begin at the start of that text or right after a newline
    of it: the segments the scan leaves before a match end at a line
    start.  Each such match holds a decimal digit (a list marker) or a
    minus or plus sign (a bullet).  This is a fact about one substitution
    and its own input.  The substitutions run one after the other, each on
    the output of the one before, so a marker that stands inside a line of
    the input is taken as well once an earlier removal has brought it to
    the start of the line: ["1. 2) x"] becomes ["2) x"] and then ["x"],
    and ["# - item"] becomes ["item"]. *)
Theorem markers_only_at_line_start :
  (forall (U : unicodedata) (r : regex) (t : text) (l1 : list seg)
          (m : text) (l2 : list seg),
     In r [re_num_dot U; re_num_paren U; re_num_wrapped U; re_bullet] ->
     scan r t = l1 ++ Hit m :: l2 ->
     t = concat (map seg_text l1) ++ m ++ concat (map seg_text l2)
     /\ line_start (rev (concat (map seg_text l1)))
     /\ ((exists x, In x m /\ isdecimal U x = true)
         \/ In c_minus m \/ In c_plus m))
  /\ (sub (re_num_dot ucd_sample) [] (of_string "1. 2) x")
      = of_string "2) x"
      /\ filter_numbered_lists ucd_sample (of_string "1. 2) x")
         = of_string "x")
  /\ filter_special_formatting (of_string "# - item") = of_string "item".
Proof.
  split; [|split; [split|]]; try (vm_compute; reflexivity).
  intros U r t l1 m l2 Hr Hs. split.
  - rewrite <- (scan_text r t) at 1. rewrite Hs.
    rewrite map_app, concat_app. reflexivity.
  - unfold scan in Hs. apply scan_go_hit_pos in Hs.
    destruct Hs as [post Hl]. cbn [firstn app] in Hl.
    rewrite app_nil_r in Hl.
    set (pre := rev (concat (map seg_text l1))) in *.
    simpl in Hr. destruct Hr as [<-|[<-|[<-|[<-|[]]]]].
    + split.
      * destruct Hl as (m1 & m2 & _ & [_ Hb] & _). exact Hb.
      * left. apply (@lang_numbered U pre m post). auto.
    + split.
      * destruct Hl as (m1 & m2 & _ & [_ Hb] & _). exact Hb.
      * left. apply (@lang_numbered U pre m post). auto.
    + split.
      * destruct Hl as (m1 & m2 & _ & [_ Hb] & _). exact Hb.
      * left. apply (@lang_numbered U pre m post). auto.
    + split.
      * destruct Hl as (m1 & m2 & _ & [_ Hb] & _). exact Hb.
      * right. apply lang_bullet in Hl. tauto.
Qed.

Lemma markers_only_at_line_start_witness :
  In (re_num_dot ucd_sample)
     [re_num_dot ucd_sample; re_num_paren ucd_sample;
      re_num_wrapped ucd_sample; re_bullet]
  /\ scan (re_num_dot ucd_sample)
       (of_string ("see 1. a" ++ String "010" "2. b"))
     = map Keep (of_string ("see 1. a" ++ String "010" ""))
       ++ Hit (of_string "2. ") :: [Keep 98%Z]
  /\ line_start
       (rev (concat (map seg_text
          (map Keep (of_string ("see 1. a" ++ String "010" ""))))))
  /\ filter_numbered_lists ucd_sample
       (of_string ("see 1. a" ++ String "010" "2. b"))
     = of_string "see 1. a b".
Proof.
  assert (H1 : In (re_num_dot ucd_sample)
     [re_num_dot ucd_sample; re_num_paren ucd_sample;
      re_num_wrapped ucd_sample; re_bullet]) by (left; reflexivity).
  assert (H2 : scan (re_num_dot ucd_sample)
       (of_string ("see 1. a" ++ String "010" "2. b"))
     = map Keep (of_string ("see 1. a" ++ String "010" ""))
       ++ Hit (of_string "2. ") :: [Keep 98%Z])
    by (vm_compute; reflexivity).
  split; [exact H1|]. split; [exact H2|]. split.
  - exact (proj1 (proj2
      (proj1 markers_only_at_line_start ucd_sample _ _ _ _ _ H1 H2))).
  - vm_compute. reflexivity.
Defined.

(** A greedy loop over a character class takes the whole run when the
    rest of the pattern matches after it. *)
Lemma rep_greedy_max (p : char -> bool) (lo : nat) (k : cont) (x s1 : text)
    (run : text) :
  Forall (fun c => p c = true) run -> not_first p s1 ->
  forall fuel cnt pre,
    length (run ++ s1) < fuel -> lo <= cnt + length run ->
    k (rev run ++ pre) s1 = Some x ->
    rep_loop (rmatch (Chr p)) lo None true k fuel cnt pre (run ++ s1)
    = Some x.
Proof.
  intros Hrun Hs1. induction Hrun as [|c run Hc Hrun IH];
    intros fuel cnt pre Hfuel Hlo Hk;
    (destruct fuel as [|fuel]; [inversion Hfuel|]); rewrite rep_loop_S;
    cbn [below app].
  - cbn [length] in Hlo. cbn [rev app] in Hk.
    replace (cnt <? lo) with false by (symmetry; apply Nat.ltb_ge; lia).
    destruct s1 as [|c s1].
    + rewrite rmatch_chr_nil. exact Hk.
    + rewrite rmatch_chr_cons. cbn [not_first] in Hs1. rewrite Hs1. exact Hk.
  - rewrite rmatch_chr_cons, Hc, length_tail_ltb.
    rewrite IH.
    + now destruct (cnt <? lo).
    + cbn [length app] in Hfuel. lia.
    + cbn [length] in Hlo. lia.
    + cbn [rev] in Hk. now rewrite <- app_assoc in Hk.
Qed.

Lemma rmatch_rep_max (p : char -> bool) (lo : nat) (k : cont)
    (x s1 run pre : text) :
  Forall (fun c => p c = true) run -> not_first p s1 ->
  lo <= length run -> k (rev run ++ pre) s1 = Some x ->
  rmatch (Rep lo None true (Chr p)) pre (run ++ s1) k = Some x.
Proof.
  intros Hrun Hs1 Hlo Hk. rewrite rmatch_rep.
  apply rep_greedy_max; auto.
Qed.

Lemma rmatch_bol (pre s : text) (k : cont) :
  line_start pre -> rmatch Bol pre s k = k pre s.
Proof.
  destruct pre as [|c pre]; cbn [rmatch line_start]; [reflexivity|].
  intros ->. reflexivity.
Qed.

(** The end of a marker: the closing character and the spaces after
    it. *)
Lemma rmatch_marker_end (cls : char -> bool) (c : char) (pre sp rest : text) :
  cls c = true -> Forall (fun x => isspace x = true) sp ->
  not_first isspace rest ->
  rmatch (Seq (Chr cls) spaces0) pre (c :: sp ++ rest) final = Some rest.
Proof.
  intros Hc Hsp Hrest. rewrite rmatch_seq, rmatch_chr_cons, Hc.
  unfold spaces0. apply rmatch_rep_max; auto. lia.
Qed.

(** The digits of a marker and its end. *)
Lemma rmatch_marker_digits (U : unicodedata) (cls : char -> bool) (c : char)
    (pre ds sp rest : text) :
  ds <> [] -> Forall (fun x => isdecimal U x = true) ds ->
  isdecimal U c = false -> cls c = true ->
  Forall (fun x => isspace x = true) sp -> not_first isspace rest ->
  rmatch (Seq (digits1 U) (Seq (Chr cls) spaces0)) pre
    (ds ++ c :: sp ++ rest) final = Some rest.
Proof.
  intros Hne Hds Hcd Hc Hsp Hrest. rewrite rmatch_seq. unfold digits1.
  apply rmatch_rep_max; auto.
  - destruct ds; [contradiction|]. cbn [length]. lia.
  - now apply rmatch_marker_end.
Qed.

Lemma match_at_marker (U : unicodedata) (cls : char -> bool) (c : char)
    (pre sp0 ds sp rest : text) :
  line_start pre ->
  Forall (fun x => isspace x = true) sp0 ->
  ds <> [] ->
  Forall (fun x => isdecimal U x = true /\ isspace x = false) ds ->
  isdecimal U c = false -> cls c = true ->
  Forall (fun x => isspace x = true) sp -> not_first isspace rest ->
  match_at (Seq Bol (Seq spaces0 (Seq (digits1 U) (Seq (Chr cls) spaces0))))
    pre (sp0 ++ ds ++ c :: sp ++ rest) = Some rest.
Proof.
  intros Hpre Hsp0 Hne Hds Hcd Hc Hsp Hrest. unfold match_at.
  rewrite rmatch_seq, rmatch_bol by exact Hpre. rewrite rmatch_seq.
  unfold spaces0 at 1. apply rmatch_rep_max; auto.
  - destruct ds as [|d ds]; [contradiction|]. cbn [app not_first].
    inversion Hds as [|? ? [_ Hd] ?]. exact Hd.
  - lia.
  - apply rmatch_marker_digits; auto.
    eapply Forall_impl; [|exact Hds]. intros a [Ha _]. exact Ha.
Qed.

Lemma match_at_marker_wrapped (U : unicodedata) (o c : char)
    (pre sp0 ds sp rest : text) :
  line_start pre ->
  Forall (fun x => isspace x = true) sp0 ->
  one_of [65288; 40]%Z o = true ->
  ds <> [] -> Forall (fun x => isdecimal U x = true) ds ->
  isdecimal U c = false -> one_of [65289; 41]%Z c = true ->
  Forall (fun x => isspace x = true) sp -> not_first isspace rest ->
  match_at (re_num_wrapped U) pre (sp0 ++ o :: ds ++ c :: sp ++ rest)
  = Some rest.
Proof.
  intros Hpre Hsp0 Ho Hne Hds Hcd Hc Hsp Hrest.
  unfold match_at, re_num_wrapped.
  rewrite rmatch_seq, rmatch_bol by exact Hpre. rewrite rmatch_seq.
  unfold spaces0 at 1. apply rmatch_rep_max; auto.
  - cbn [not_first]. unfold one_of in Ho. cbn [existsb] in Ho.
    rewrite orb_false_r in Ho. apply orb_true_iff in Ho.
    destruct Ho as [Ho|Ho]; apply Z.eqb_eq in Ho; subst o; reflexivity.
  - lia.
  - rewrite rmatch_seq, rmatch_chr_cons, Ho.
    now apply rmatch_marker_digits.
Qed.

(** A scan that cannot match for want of a character keeps the text,
    wherever it starts. *)
Lemma scan_go_no_hit_chars (r : regex) (P : char -> Prop) (repl : text) :
  (forall pre m post, lang r pre m post -> exists x, In x m /\ P x) ->
  forall s pre, (forall x, In x s -> ~ P x) ->
    flat_map (keep_out repl) (scan_go r 0 pre s) = s.
Proof.
  intros Hlang s pre Hs.
  assert (Hno : forall m, ~ In (Hit m) (scan_go r 0 pre s)).
  { intros m Hin. destruct (scan_go_hit _ _ _ _ _ Hin) as (p & q & Hl).
    destruct (Hlang _ _ _ Hl) as (x & Hx & HP).
    apply (Hs x); [|exact HP].
    pose proof (hit_chars _ _ x Hin Hx) as Hc.
    now rewrite scan_go_text in Hc. }
  rewrite <- (scan_go_text r s 0 pre) at 2. cbn [skipn].
  induction (scan_go r 0 pre s) as [|[c|m] l IH]; [reflexivity| |].
  - cbn [flat_map keep_out map concat seg_text app]. f_equal.
    apply IH. intros m Hin. apply (Hno m). now right.
  - destruct (Hno m). now left.
Qed.

Lemma sub_marker (r : regex) (U : unicodedata) (m rest : text) :
  (forall pre m post, lang r pre m post ->
     exists x, In x m /\ isdecimal U x = true) ->
  m <> [] -> match_at r [] (m ++ rest) = Some rest ->
  (forall x, In x rest -> isdecimal U x = false) ->
  sub r [] (m ++ rest) = rest.
Proof.
  intros Hlang Hne Hm Hrest. unfold sub, scan.
  rewrite scan_go_app_hit by assumption.
  cbn [flat_map keep_out app].
  apply scan_go_no_hit_chars with (P := fun x => isdecimal U x = true).
  - exact Hlang.
  - intros x Hx. rewrite (Hrest x Hx). discriminate.
Qed.

(** X8.  A list marker at the very start of the text is removed together
    with the whitespace around it.  The marker is optional whitespace,
    one or more decimal digits and a closing character of the pattern's
    class, followed by optional whitespace; the rest of the text has no
    decimal digit and does not begin with whitespace.  Then each of the
    three substitutions returns the rest for its own marker form (for the
    third form the digits stand between an opening and a closing
    parenthesis), and for the first form [filter_numbered_lists] returns
    the cleaned rest.  The facts assumed of the character database hold
    of Unicode: a decimal digit is no whitespace, the closing character
    is no decimal digit. *)
Theorem list_marker_removed (U : unicodedata) (c : char)
    (sp0 ds sp rest : text) :
  Forall (fun x => isspace x = true) sp0 ->
  ds <> [] ->
  Forall (fun x => isdecimal U x = true /\ isspace x = false) ds ->
  isdecimal U c = false ->
  Forall (fun x => isspace x = true) sp ->
  not_first isspace rest ->
  (forall x, In x rest -> isdecimal U x = false) ->
  (one_of [46; 65294; 12290]%Z c = true ->
     sub (re_num_dot U) [] (sp0 ++ ds ++ c :: sp ++ rest) = rest
     /\ filter_numbered_lists U (sp0 ++ ds ++ c :: sp ++ rest)
        = clean_spaces rest)
  /\ (one_of [41; 12289]%Z c = true ->
     sub (re_num_paren U) [] (sp0 ++ ds ++ c :: sp ++ rest) = rest)
  /\ (forall o, one_of [65288; 40]%Z o = true ->
     one_of [65289; 41]%Z c = true ->
     sub (re_num_wrapped U) [] (sp0 ++ o :: ds ++ c :: sp ++ rest) = rest).
Proof.
  intros Hsp0 Hne Hds Hcd Hsp Hrest Hfree.
  assert (Hds' : Forall (fun x => isdecimal U x = true) ds)
    by (eapply Forall_impl; [|exact Hds]; intros a [Ha _]; exact Ha).
  assert (Hno : forall x, In x rest -> ~ isdecimal U x = true)
    by (intros x Hx; rewrite (Hfree x Hx); discriminate).
  assert (Hm : sp0 ++ ds ++ c :: sp ++ rest = (sp0 ++ ds ++ c :: sp) ++ rest)
    by (now rewrite <- !app_assoc).
  assert (Hmne : sp0 ++ ds ++ c :: sp <> [])
    by (intros E; apply app_eq_nil in E; destruct E as [_ E];
        apply app_eq_nil in E; destruct E as [_ E]; discriminate).
  assert (Hdot : one_of [46; 65294; 12290]%Z c = true ->
            sub (re_num_dot U) [] (sp0 ++ ds ++ c :: sp ++ rest) = rest).
  { intros Hc. rewrite Hm. apply sub_marker with (U := U); auto.
    - intros pre m post Hl. apply (@lang_numbered U pre m post). auto.
    - rewrite <- Hm. apply match_at_marker; auto. exact I. }
  split; [|split].
  - intros Hc. split; [now apply Hdot|].
    unfold filter_numbered_lists. rewrite (Hdot Hc).
    assert (E2 : sub (re_num_paren U) [] rest = rest).
    { apply sub_no_hit_chars with (P := fun x => isdecimal U x = true); auto.
      intros pre m post Hl. apply (@lang_numbered U pre m post). auto. }
    assert (E3 : sub (re_num_wrapped U) [] rest = rest).
    { apply sub_no_hit_chars with (P := fun x => isdecimal U x = true); auto.
      intros pre m post Hl. apply (@lang_numbered U pre m post). auto. }
    now rewrite E2, E3.
  - intros Hc. rewrite Hm. apply sub_marker with (U := U); auto.
    + intros pre m post Hl. apply (@lang_numbered U pre m post). auto.
    + rewrite <- Hm. apply match_at_marker; auto. exact I.
  - intros o Ho Hc.
    replace (sp0 ++ o :: ds ++ c :: sp ++ rest)
      with ((sp0 ++ o :: ds ++ c :: sp) ++ rest)
      by (rewrite <- !app_assoc; cbn [app]; now rewrite <- !app_assoc).
    apply sub_marker with (U := U); auto.
    + intros pre m post Hl. apply (@lang_numbered U pre m post). auto.
    + intros E. apply app_eq_nil in E. destruct E as [_ E]. discriminate.
    + replace ((sp0 ++ o :: ds ++ c :: sp) ++ rest)
        with (sp0 ++ o :: ds ++ c :: sp ++ rest)
        by (rewrite <- !app_assoc; cbn [app]; now rewrite <- !app_assoc).
      apply match_at_marker_wrapped; auto. exact I.
Qed.

Lemma list_marker_removed_witness :
  filter_numbered_lists ucd_sample
    (of_string "  12" ++ 46%Z :: of_string " " ++ of_string "First, then (b)")
  = clean_spaces (of_string "First, then (b)")
  /\ sub (re_num_wrapped ucd_sample) []
       (of_string "  " ++ 40%Z :: of_string "12" ++ 41%Z
          :: of_string " " ++ of_string "First, then (b)")
     = of_string "First, then (b)".
Proof.
  assert (H1 : Forall (fun x => isspace x = true) (of_string "  "))
    by (repeat constructor).
  assert (H2 : of_string "12" <> []) by discriminate.
  assert (H3 : Forall (fun x => isdecimal ucd_sample x = true
                                /\ isspace x = false) (of_string "12"))
    by (repeat constructor).
  assert (H4 : isdecimal ucd_sample 46%Z = false) by reflexivity.
  assert (H4' : isdecimal ucd_sample 41%Z = false) by reflexivity.
  assert (H5 : Forall (fun x => isspace x = true) (of_string " "))
    by (repeat constructor).
  assert (H6 : not_first isspace (of_string "First, then (b)"))
    by reflexivity.
  assert (H7 : forall x, In x (of_string "First, then (b)") ->
                 isdecimal ucd_sample x = false).
  { intros x Hx.
    destruct (isdecimal ucd_sample x) eqn:E; [|reflexivity].
    exfalso. revert Hx. apply not_in_b.
    cbn [isdecimal ucd_sample] in E. unfold in_range in E.
    apply andb_true_iff in E. destruct E as [Ea Eb].
    apply Z.leb_le in Ea. apply Z.leb_le in Eb.
    cbn [of_string existsb]. 
    repeat (apply orb_false_iff; split; [apply Z.eqb_neq; cbn; lia|]).
    reflexivity. }
  split.
  - exact (proj2 (proj1 (@list_marker_removed ucd_sample 46%Z _ _ _ _
                           H1 H2 H3 H4 H5 H6 H7) eq_refl)).
  - exact (proj2 (proj2 (@list_marker_removed ucd_sample 41%Z _ _ _ _
                           H1 H2 H3 H4' H5 H6 H7)) 40%Z eq_refl eq_refl).
Defined.

(* ------------------------------------------------------------------ *)
(** * Properties of the performance monitor *)

Section PerformanceProperties.

Variable R : runtime.

Lemma text_eqb_refl (a : text) : text_eqb a a = true.
Proof.
  induction a as [|x a IH]; [reflexivity|]. cbn [text_eqb].
  now rewrite Z.eqb_refl, IH.
Qed.

(** [log_and_save] finds every key it looks up: it returns, with the
    session [finalize] leaves, one record more on the console and one row
    more in the file of its monitor. *)
Lemma log_and_save_spec (s : PerformanceSession R) (w : world) :
  exists msg row,
    length row = length csv_header
    /\ log_and_save s w
       = Some (snd (fst (finalize s w)),
               append_row (csv_file (monitor s)) row
                 (snd (datetime_now_isoformat R
                         (logger_info msg (snd (finalize s w)))))).
Proof.
  unfold log_and_save, finalize.
  destruct (end_time s); cbn; do 2 eexists; (split; [|reflexivity]);
    reflexivity.
Qed.

Lemma do_call_some (c : method_call) (s : PerformanceSession R) (w : world) :
  exists s' w', do_call c s w = Some (s', w').
Proof.
  destruct c; cbn [do_call];
    try (do 2 eexists; f_equal; apply surjective_pairing).
  - destruct (finalize s w) as [[m s1] w1]. now do 2 eexists.
  - destruct (log_and_save_spec s w) as (msg & row & _ & E).
    rewrite E. now do 2 eexists.
Qed.

(** What no call changes, and what a call changes only once. *)
Lemma do_call_frame (c : method_call) (s s' : PerformanceSession R)
    (w w' : world) :
  do_call c s w = Some (s', w') ->
  session_id s' = session_id s /\ monitor s' = monitor s
  /\ (forall x, start_time s = Some x -> start_time s' = Some x)
  /\ (forall x, llm_first_token_time s = Some x ->
        llm_first_token_time s' = Some x)
  /\ (_first_response_marked s = true ->
        _first_response_marked s' = true
        /\ first_response_time s' = first_response_time s)
  /\ (forall x, end_time s = Some x -> end_time s' = Some x).
Proof.
  destruct c; cbn [do_call]; intros H;
    try (apply (f_equal (option_map fst)) in H; cbn [option_map fst] in H;
         injection H as H; subst s').
  - unfold mark_request_received.
    destruct (start_time s) eqn:E; cbn; rewrite ?E; repeat split; auto;
      discriminate.
  - cbn. repeat split; auto.
  - cbn. repeat split; auto.
  - cbn. repeat split; auto.
  - unfold mark_llm_first_token.
    destruct (llm_first_token_time s) eqn:E; cbn; rewrite ?E;
      repeat split; auto; discriminate.
  - cbn. repeat split; auto.
  - unfold mark_first_response.
    destruct (_first_response_marked s) eqn:E; cbn; rewrite ?E;
      repeat split; auto; discriminate.
  - cbn. repeat split; auto.
  - unfold mark_tts_end.
    destruct (tts_start_time s) eqn:E; cbn; repeat split; auto.
  - cbn. repeat split; auto.
  - cbn. repeat split; auto.
  - unfold finalize in H.
    destruct (end_time s) eqn:E; cbn in H; injection H as <- <-; cbn;
      rewrite ?E; repeat split; auto; discriminate.
  - destruct (log_and_save_spec s w) as (msg & row & _ & E).
    rewrite E in H. injection H as <- <-. unfold finalize.
    destruct (end_time s) eqn:E'; cbn; rewrite ?E'; repeat split; auto;
      discriminate.
Qed.

(** X9.  What is marked first stays: over any sequence of calls on a
    session, none of which raises, the session keeps its id and monitor,
    and a [start_time], an [llm_first_token_time] or an [end_time] that
    is set, and the [first_response_time] of a session whose first
    response is marked, are never overwritten. *)
Theorem first_marks_are_kept (cs : list method_call)
    (s : PerformanceSession R) (w : world) :
  exists s' w',
    do_calls cs s w = Some (s', w')
    /\ session_id s' = session_id s /\ monitor s' = monitor s
    /\ (forall x, start_time s = Some x -> start_time s' = Some x)
    /\ (forall x, llm_first_token_time s = Some x ->
          llm_first_token_time s' = Some x)
    /\ (_first_response_marked s = true ->
          _first_response_marked s' = true
          /\ first_response_time s' = first_response_time s)
    /\ (forall x, end_time s = Some x -> end_time s' = Some x).
Proof.
  revert s w. induction cs as [|c cs IH]; intros s w.
  - exists s, w. cbn [do_calls]. repeat split; auto.
  - destruct (do_call_some c s w) as (s1 & w1 & E1).
    destruct (do_call_frame _ _ _ E1) as (A1 & A2 & A3 & A4 & A5 & A6).
    destruct (IH s1 w1) as (s' & w' & E & B1 & B2 & B3 & B4 & B5 & B6).
    exists s', w'. cbn [do_calls]. rewrite E1.
    split; [exact E|]. split; [congruence|]. split; [congruence|].
    split; [auto|]. split; [auto|]. split; [|auto].
    intros H. destruct (A5 H) as [H1 H2]. destruct (B5 H1) as [H3 H4].
    split; congruence.
Qed.

Lemma do_call_tts_calls (c : method_call) (s s' : PerformanceSession R)
    (w w' : world) :
  do_call c s w = Some (s', w') ->
  tts_calls s' = (tts_calls s + if is_tts_start c then 1 else 0)%Z.
Proof.
  destruct c; cbn [do_call is_tts_start]; intros H;
    try (apply (f_equal (option_map fst)) in H; cbn [option_map fst] in H;
         injection H as H; subst s').
  - unfold mark_request_received. destruct (start_time s); cbn; lia.
  - cbn. lia.
  - cbn. lia.
  - cbn. lia.
  - unfold mark_llm_first_token. destruct (llm_first_token_time s); cbn; lia.
  - cbn. lia.
  - unfold mark_first_response.
    destruct (_first_response_marked s); cbn; lia.
  - cbn. lia.
  - unfold mark_tts_end. destruct (tts_start_time s); cbn; lia.
  - cbn. lia.
  - cbn. lia.
  - unfold finalize in H.
    destruct (end_time s); cbn in H; injection H as <- <-; cbn; lia.
  - destruct (log_and_save_spec s w) as (msg & row & _ & E).
    rewrite E in H. injection H as <- <-. unfold finalize.
    destruct (end_time s); cbn; lia.
Qed.

(** X10.  [tts_calls] counts the calls of [mark_tts_start]: over any
    sequence of calls it grows by the number of them in the sequence and
    nothing else changes it.  [mark_tts_end] without a start that is
    still open does nothing (it does not even read the clock), and it
    closes the start it uses, so a second end in a row is ignored. *)
Theorem tts_calls_counted (cs : list method_call)
    (s : PerformanceSession R) (w : world) :
  (exists s' w',
     do_calls cs s w = Some (s', w')
     /\ tts_calls s'
        = (tts_calls s + Z.of_nat (length (filter is_tts_start cs)))%Z)
  /\ (tts_start_time s = None -> mark_tts_end s w = (s, w))
  /\ mark_tts_end (fst (mark_tts_end s w)) (snd (mark_tts_end s w))
     = mark_tts_end s w.
Proof.
  split; [|split].
  - revert s w. induction cs as [|c cs IH]; intros s w.
    + exists s, w. cbn. split; [reflexivity|lia].
    + destruct (do_call_some c s w) as (s1 & w1 & E1).
      pose proof (do_call_tts_calls _ _ _ E1) as H1.
      destruct (IH s1 w1) as (s' & w' & E & H).
      exists s', w'. cbn [do_calls filter]. rewrite E1.
      split; [exact E|]. rewrite H, H1.
      destruct (is_tts_start c); cbn [length]; lia.
  - intros H. unfold mark_tts_end. now rewrite H.
  - unfold mark_tts_end. destruct (tts_start_time s) eqn:E; cbn.
    + reflexivity.
    + now rewrite E.
Qed.

(** X11.  [finalize] returns the six metrics under their keys, in the
    order of the assignments, and can be repeated: a later call on the
    session it leaves reads no clock and returns the same metrics and the
    same session.  On a session on which nothing was marked every metric
    is [0.0]. *)
Theorem finalize_repeatable (s : PerformanceSession R) (w : world) :
  map fst (fst (fst (finalize s w)))
  = [ "network_latency_ms"; "asr_latency_ms"; "llm_first_token_ms";
      "llm_total_latency_ms"; "tts_latency_ms";
      "time_to_first_response_ms" ]%string
  /\ (forall w2,
        finalize (snd (fst (finalize s w))) w2
        = (fst (fst (finalize s w)), snd (fst (finalize s w)), w2))
  /\ (forall session_id monitor,
        map snd (fst (fst (finalize
                             (PerformanceSession_init R session_id monitor)
                             w)))
        = repeat (f_zero R) 6).
Proof.
  split; [|split].
  - unfold finalize. destruct (end_time s); reflexivity.
  - intros w2. unfold finalize. destruct (end_time s) eqn:E; cbn.
    + now rewrite E.
    + reflexivity.
  - intros sid mon. reflexivity.
Qed.

Lemma do_call_request_frame (c : method_call) (s s' : PerformanceSession R)
    (w w' : world) :
  is_request c = false -> do_call c s w = Some (s', w') ->
  start_time s' = start_time s
  /\ request_reception_time s' = request_reception_time s.
Proof.
  destruct c; cbn [do_call is_request]; intros Hc H; try discriminate;
    try (apply (f_equal (option_map fst)) in H; cbn [option_map fst] in H;
         injection H as H; subst s').
  - cbn. auto.
  - cbn. auto.
  - cbn. auto.
  - unfold mark_llm_first_token.
    destruct (llm_first_token_time s); cbn; auto.
  - cbn. auto.
  - unfold mark_first_response.
    destruct (_first_response_marked s); cbn; auto.
  - cbn. auto.
  - unfold mark_tts_end. destruct (tts_start_time s); cbn; auto.
  - cbn. auto.
  - cbn. auto.
  - unfold finalize in H.
    destruct (end_time s); cbn in H; injection H as <- <-; cbn; auto.
  - destruct (log_and_save_spec s w) as (msg & row & _ & E).
    rewrite E in H. injection H as <- <-. unfold finalize.
    destruct (end_time s); cbn; auto.
Qed.

Lemma do_calls_request_frame (cs : list method_call) :
  forallb (fun c => negb (is_request c)) cs = true ->
  forall (s : PerformanceSession R) (w : world),
  exists s' w',
    do_calls cs s w = Some (s', w')
    /\ start_time s' = start_time s
    /\ request_reception_time s' = request_reception_time s.
Proof.
  induction cs as [|c cs IH]; intros Hcs s w.
  - exists s, w. cbn. auto.
  - cbn [forallb] in Hcs. apply andb_true_iff in Hcs.
    destruct Hcs as [Hc Hcs]. apply negb_true_iff in Hc.
    destruct (do_call_some c s w) as (s1 & w1 & E1).
    destruct (do_call_request_frame _ _ _ Hc E1) as [A1 A2].
    destruct (IH Hcs s1 w1) as (s' & w' & E & B1 & B2).
    exists s', w'. cbn [do_calls]. rewrite E1.
    split; [exact E|]. split; congruence.
Qed.

(** X12.  The network latency a session reports is the gap between the
    two successive clock readings of its first [mark_request_received]:
    on a session without [start_time], after that call and any calls
    other than [mark_request_received], [finalize] gives
    [(t2 - t1) * 1000] for the first two readings [t1], [t2] the call
    took. *)
Theorem network_latency_of_first_request (cs : list method_call)
    (s : PerformanceSession R) (w : world) :
  start_time s = None ->
  forallb (fun c => negb (is_request c)) cs = true ->
  exists s1 w1,
    do_calls (MarkRequestReceived :: cs) s w = Some (s1, w1)
    /\ getitem R (fst (fst (finalize s1 w1))) "network_latency_ms"%string
       = Some (fmul R (fsub R (perf_counter R (S (clock w)))
                              (perf_counter R (clock w)))
                      (f_1000 R)).
Proof.
  intros Hs Hcs. cbn [do_calls do_call].
  destruct (mark_request_received s w) as [s0 w0] eqn:E0.
  destruct (do_calls_request_frame cs Hcs s0 w0) as (s1 & w1 & E & A1 & A2).
  exists s1, w1. split; [exact E|].
  unfold mark_request_received in E0. rewrite Hs in E0. cbn in E0.
  injection E0 as <- <-. cbn in A1, A2.
  unfold finalize. destruct (end_time s1); cbn; now rewrite A1, A2.
Qed.

Lemma do_call_files (c : method_call) (s s' : PerformanceSession R)
    (w w' : world) (old : list (list text)) :
  do_call c s w = Some (s', w') ->
  files w (csv_file (monitor s)) = Some old ->
  exists rows,
    files w' (csv_file (monitor s)) = Some (old ++ rows)
    /\ length rows = (if is_log_and_save c then 1 else 0)
    /\ Forall (fun row => length row = length csv_header) rows.
Proof.
  assert (Hnone : forall w0 : world,
            files w0 (csv_file (monitor s)) = files w (csv_file (monitor s)) ->
            files w (csv_file (monitor s)) = Some old ->
            exists rows,
              files w0 (csv_file (monitor s)) = Some (old ++ rows)
              /\ length rows = 0
              /\ Forall (fun row => length row = length csv_header) rows).
  { intros w0 E Hold. exists []. rewrite E, app_nil_r. auto. }
  destruct c; cbn [do_call is_log_and_save]; intros H Hold;
    try (apply (f_equal (option_map snd)) in H; cbn [option_map snd] in H;
         injection H as H; subst w'; apply Hnone; [|exact Hold]).
  - unfold mark_request_received. now destruct (start_time s).
  - reflexivity.
  - reflexivity.
  - reflexivity.
  - unfold mark_llm_first_token. now destruct (llm_first_token_time s).
  - reflexivity.
  - unfold mark_first_response. now destruct (_first_response_marked s).
  - reflexivity.
  - unfold mark_tts_end. now destruct (tts_start_time s).
  - reflexivity.
  - reflexivity.
  - unfold finalize in H.
    destruct (end_time s); cbn in H; injection H as <- <-;
      apply Hnone; auto.
  - destruct (log_and_save_spec s w) as (msg & row & Hrow & E).
    assert (Hf : files (snd (datetime_now_isoformat R
                   (logger_info msg (snd (finalize s w)))))
                   (csv_file (monitor s)) = Some old).
    { rewrite <- Hold. unfold finalize. now destruct (end_time s). }
    assert (Hw : w' = append_row (csv_file (monitor s)) row
                   (snd (datetime_now_isoformat R
                           (logger_info msg (snd (finalize s w))))))
      by congruence.
    exists [row]. split; [|split; [reflexivity|now constructor]].
    rewrite Hw. unfold append_row.
    rewrite Hf. cbn [files set_file]. now rewrite text_eqb_refl.
Qed.

(** X13.  The CSV file of a monitor keeps its rows and every row written
    has as many cells as the header has names.  [_init_csv_file] leaves
    a file that is there as it is and gives a new file the header as its
    only row; after any sequence of calls on a session of the monitor the
    file holds those rows followed by one row of ten cells for each
    [log_and_save] of the sequence, and none of the calls raises. *)
Theorem csv_rows_match_header (mon : PerformanceMonitor)
    (cs : list method_call) (s : PerformanceSession R) (w : world) :
  monitor s = mon ->
  exists s' w' rows,
    do_calls cs s (_init_csv_file mon w) = Some (s', w')
    /\ files w' (csv_file mon)
       = Some (match files w (csv_file mon) with
               | Some old => old
               | None => [csv_header]
               end ++ rows)
    /\ length rows = length (filter is_log_and_save cs)
    /\ Forall (fun row => length row = 10) rows.
Proof.
  intros Hmon.
  assert (Hinit : files (_init_csv_file mon w) (csv_file mon)
                  = Some (match files w (csv_file mon) with
                          | Some old => old
                          | None => [csv_header]
                          end)).
  { unfold _init_csv_file.
    destruct (files w (csv_file mon)) eqn:E; [exact E|].
    cbn [write_row set_file files]. now rewrite text_eqb_refl. }
  revert Hinit. generalize (_init_csv_file mon w).
  generalize (match files w (csv_file mon) with
              | Some old => old
              | None => [csv_header]
              end).
  revert s Hmon. induction cs as [|c cs IH]; intros s Hmon old w0 Hold.
  - exists s, w0, []. cbn. rewrite app_nil_r. auto.
  - destruct (do_call_some c s w0) as (s1 & w1 & E1).
    rewrite <- Hmon in Hold.
    destruct (do_call_files _ _ _ E1 Hold) as (r1 & F1 & L1 & W1).
    destruct (do_call_frame _ _ _ E1) as (_ & M1 & _).
    rewrite Hmon in F1, M1.
    destruct (IH s1 M1 _ w1 F1) as (s' & w' & rows & E & F & L & W).
    exists s', w', (r1 ++ rows). cbn [do_calls filter]. rewrite E1.
    split; [exact E|]. split; [now rewrite app_assoc|]. split.
    + rewrite length_app, L1, L.
      destruct (is_log_and_save c); reflexivity.
    + apply Forall_app. auto.
Qed.

End PerformanceProperties.

(** ** Instances *)

Lemma tts_filter_delimiters_gone_witness :
  exists t',
    fst (tts_filter ucd_sample (of_string "a [b] (c) <d> e")
           false true true false true None []) = Ok t'
    /\ ~ In c_lbracket t' /\ ~ In c_rparen t' /\ ~ In c_langle t'.
Proof.
  destruct (tts_filter_delimiters_gone ucd_sample
              (of_string "a [b] (c) <d> e") true true false true [])
    as (t' & E & Hb & Hp & Ha).
  exists t'. split; [exact E|]. split; [exact (proj1 (Hb eq_refl))|].
  split; [exact (proj2 (Hp eq_refl))|exact (proj1 (Ha eq_refl))].
Defined.

Lemma first_marks_are_kept_witness :
  exists s' w',
    do_calls [MarkRequestReceived; MarkLlmFirstToken; Finalize; LogAndSave]
      (fst (mark_request_received
              (create_session runtime_sample monitor_sample (of_string "a"))
              world_sample))
      world_sample
    = Some (s', w')
    /\ start_time s' = Some 0%Z.
Proof.
  destruct (first_marks_are_kept
              [MarkRequestReceived; MarkLlmFirstToken; Finalize; LogAndSave]
              (fst (mark_request_received
                      (create_session runtime_sample monitor_sample
                         (of_string "a"))
                      world_sample))
              world_sample)
    as (s' & w' & E & _ & _ & H & _).
  exists s', w'. split; [exact E|]. exact (H 0%Z eq_refl).
Defined.

Lemma tts_calls_counted_witness :
  (exists s' w',
     do_calls [MarkTtsStart; MarkTtsEnd; MarkTtsEnd; MarkTtsStart]
       (create_session runtime_sample monitor_sample (of_string "a"))
       world_sample
     = Some (s', w')
     /\ tts_calls s' = 2%Z)
  /\ mark_tts_end
       (create_session runtime_sample monitor_sample (of_string "a"))
       world_sample
     = (create_session runtime_sample monitor_sample (of_string "a"),
        world_sample).
Proof.
  destruct (tts_calls_counted
              [MarkTtsStart; MarkTtsEnd; MarkTtsEnd; MarkTtsStart]
              (create_session runtime_sample monitor_sample (of_string "a"))
              world_sample)
    as ((s' & w' & E & H) & Hnone & _).
  split.
  - exists s', w'. split; [exact E|exact H].
  - exact (Hnone eq_refl).
Defined.

Lemma network_latency_of_first_request_witness :
  start_time (create_session runtime_sample monitor_sample (of_string "a"))
  = None
  /\ forallb (fun c => negb (is_request c))
       [MarkAsrStart; MarkAsrEnd; MarkTtsStart; LogAndSave] = true
  /\ exists s1 w1,
       do_calls
         (MarkRequestReceived
            :: [MarkAsrStart; MarkAsrEnd; MarkTtsStart; LogAndSave])
         (create_session runtime_sample monitor_sample (of_string "a"))
         world_sample
       = Some (s1, w1)
       /\ getitem runtime_sample (fst (fst (finalize s1 w1)))
            "network_latency_ms"%string
          = Some 1000%Z.
Proof.
  split; [reflexivity|]. split; [reflexivity|].
  exact (@network_latency_of_first_request runtime_sample
           [MarkAsrStart; MarkAsrEnd; MarkTtsStart; LogAndSave]
           (create_session runtime_sample monitor_sample (of_string "a"))
           world_sample eq_refl eq_refl).
Defined.

Lemma csv_rows_match_header_witness :
  monitor (create_session runtime_sample monitor_sample (of_string "a"))
  = monitor_sample
  /\ exists s' w' rows,
       do_calls [MarkRequestReceived; LogAndSave; MarkTtsStart; LogAndSave]
         (create_session runtime_sample monitor_sample (of_string "a"))
         (_init_csv_file monitor_sample world_sample)
       = Some (s', w')
       /\ files w' (csv_file monitor_sample) = Some ([csv_header] ++ rows)
       /\ length rows = 2
       /\ Forall (fun row => length row = 10) rows.
Proof.
  split; [reflexivity|].
  exact (@csv_rows_match_header runtime_sample monitor_sample
           [MarkRequestReceived; LogAndSave; MarkTtsStart; LogAndSave]
           (create_session runtime_sample monitor_sample (of_string "a"))
           world_sample eq_refl).
Defined.

(** ** The row of [log_and_save] against the header *)

Lemma getitem_finalize (R : runtime) (s : PerformanceSession R) (w : world)
    (key : string) (v : float R) :
  getitem R (fst (fst (finalize s w))) key = Some v ->
  In (key, v)
     [ ("network_latency_ms"%string,
        between R (start_time s) (request_reception_time s));
       ("asr_latency_ms"%string,
        between R (asr_start_time s) (asr_end_time s));
       ("llm_first_token_ms"%string,
        between R (llm_start_time s) (llm_first_token_time s));
       ("llm_total_latency_ms"%string,
        between R (llm_start_time s) (llm_end_time s));
       ("tts_latency_ms"%string, total_tts_time s);
       ("time_to_first_response_ms"%string,
        between R (start_time s) (first_response_time s)) ].
Proof.
  assert (E : fst (fst (finalize s w))
    = [ ("network_latency_ms"%string,
         between R (start_time s) (request_reception_time s));
        ("asr_latency_ms"%string,
         between R (asr_start_time s) (asr_end_time s));
        ("llm_first_token_ms"%string,
         between R (llm_start_time s) (llm_first_token_time s));
        ("llm_total_latency_ms"%string,
         between R (llm_start_time s) (llm_end_time s));
        ("tts_latency_ms"%string, total_tts_time s);
        ("time_to_first_response_ms"%string,
         between R (start_time s) (first_response_time s)) ])
    by (unfold finalize; destruct (end_time s); reflexivity).
  rewrite E. clear E. cbn [getitem].
  repeat match goal with
  | |- context [String.eqb ?k key] =>
    destruct (String.eqb_spec k key) as [<-|_];
      [intros H; injection H as <-; cbn [In]; tauto|]
  end.
  discriminate.
Qed.

Lemma log_and_save_eq (R : runtime) (s : PerformanceSession R) (w : world) :
  log_and_save s w
  = Some (snd (fst (finalize s w)),
          append_row (csv_file (monitor s))
            (metrics_row (now_isoformat R (wall_clock w)) s
               (between R (start_time s) (request_reception_time s))
               (between R (asr_start_time s) (asr_end_time s))
               (between R (llm_start_time s) (llm_first_token_time s))
               (between R (llm_start_time s) (llm_end_time s))
               (total_tts_time s)
               (between R (start_time s) (first_response_time s)))
            (snd (datetime_now_isoformat R
                    (logger_info
                       (metrics_message s
                          (between R (start_time s)
                             (request_reception_time s))
                          (between R (asr_start_time s) (asr_end_time s))
                          (between R (llm_start_time s)
                             (llm_first_token_time s))
                          (between R (llm_start_time s) (llm_end_time s))
                          (total_tts_time s)
                          (between R (start_time s)
                             (first_response_time s)))
                       (snd (finalize s w)))))).
Proof.
  unfold log_and_save, finalize. destruct (end_time s); reflexivity.
Qed.

(** X14.  The row [log_and_save] appends is aligned with the header of
    [_init_csv_file]: the call returns, the file of the monitor gets one
    row more with a cell for each name of the header, and under each name
    stands the value it names: the reading of the wall clock under
    [timestamp], the id of the session, each metric of [finalize] in the
    format [:.2f] under its key, and the two lengths as they were set
    last.  The console gets one record of level INFO. *)
Theorem log_and_save_row_aligned (R : runtime) (s : PerformanceSession R)
    (w : world) :
  exists s' w' row,
    log_and_save s w = Some (s', w')
    /\ files w' (csv_file (monitor s))
       = Some (match files w (csv_file (monitor s)) with
               | Some old => old
               | None => []
               end ++ [row])
    /\ length row = length csv_header
    /\ In (of_string "timestamp", now_isoformat R (wall_clock w))
          (combine csv_header row)
    /\ In (of_string "session_id", session_id s) (combine csv_header row)
    /\ In (of_string "user_input_length", str_of_int (user_input_length s))
          (combine csv_header row)
    /\ In (of_string "response_length", str_of_int (response_length s))
          (combine csv_header row)
    /\ (forall key v,
          getitem R (fst (fst (finalize s w))) key = Some v ->
          In (of_string key, format_2f R v) (combine csv_header row))
    /\ exists msg, console w' = console w ++ [(INFO, msg)].
Proof.
  pose proof (getitem_finalize s w) as Hget.
  rewrite log_and_save_eq.
  set (msg := metrics_message _ _ _ _ _ _ _).
  set (row := metrics_row _ _ _ _ _ _ _ _).
  set (w1 := snd (datetime_now_isoformat R
                    (logger_info msg (snd (finalize s w))))).
  assert (Hfiles : files w1 = files w)
    by (unfold w1, finalize; destruct (end_time s); reflexivity).
  assert (Hconsole : console w1 = console w ++ [(INFO, msg)])
    by (unfold w1, finalize; destruct (end_time s); reflexivity).
  exists (snd (fst (finalize s w))), (append_row (csv_file (monitor s)) row w1),
    row.
  split; [reflexivity|]. split.
  { unfold append_row. rewrite Hfiles.
    destruct (files w (csv_file (monitor s))); cbn [set_file files app];
      now rewrite text_eqb_refl. }
  split; [reflexivity|].
  unfold row, metrics_row, csv_header. cbn [combine In].
  split; [tauto|]. split; [tauto|]. split; [tauto|]. split; [tauto|].
  split.
  - intros key v H. apply Hget in H. cbn [In] in H.
    repeat (destruct H as [H|H]; [injection H as <- <-; tauto|]).
    contradiction.
  - exists msg. unfold append_row.
    destruct (files w1 (csv_file (monitor s))); exact Hconsole.
Qed.
